(** * A skip-list backed key-value store with per-key expiry

    Shallow embedding of [practical_applications/skiplist_kv_store.go]:
    the skip list engine ([SkipList]) and the store built on it
    ([SkiplistKVStore]).

    Conventions of the embedding.
    - A [*Element] is an index into an arena [sl_mem] of elements; the nil
      pointer is [None].  Allocation appends to the arena, and elements
      that were unlinked stay in it (a caller may still hold them).
    - A [[]byte] is a [list byte]; a nil slice and an empty slice are
      identified (the code only reads keys through [bytes.Compare],
      [bytes.Equal], [bytes.HasPrefix] and [string(key)], none of which
      tells them apart).  A slice is kept as the value it had when it was
      stored: the caller is taken not to write into it afterwards.
    - A [float64] is a [spec_float] of the binary64 format; comparisons
      are the IEEE ones ([SFltb], [SFeqb], [SFleb]), so NaN compares false
      with everything and the two zeros are equal.
    - A Go panic (nil dereference, index out of range) and a loop that does
      not return are both [None].  The loops that follow links take as fuel
      the number of cells plus one, which is enough on every chain that
      does not come back on itself; no operation builds one that does.
    - [length] is an unbounded integer and [level] a natural number (the
      code's [int] would need 2^63 elements to wrap).
    - Each method body runs under the structure's lock, so a method is one
      atomic step on the state; [go f()] is recorded as a spawned task.
      cleanExpiredKeys takes the lock anew for every key it deletes; it is
      modelled running on its own, with no other call in between.
    - [time.Now()] is an argument of the operations that read the clock
      (Keys reads it once per element and takes the readings as a
      function); instants and durations are integers (nanoseconds). *)

From Stdlib Require Import ZArith Lia Bool SpecFloat.
From Stdlib Require Strings.Byte.
From stdpp Require Import base option list sorting gmap.

Local Open Scope Z_scope.

(* stdpp's solvers clear hypotheses that may already be gone. *)
#[local] Set Warnings "-clear-no-such-hyp".

(** ** Bytes *)

Abbreviation byte := Init.Byte.byte.
Abbreviation bytes := (list Init.Byte.byte).

#[global] Instance byte_eq_dec : EqDecision byte := Byte.byte_eq_dec.
#[global] Instance byte_countable : Countable byte :=
  inj_countable Byte.to_N Byte.of_N Byte.of_to_N.

Definition byte_val (b : byte) : Z := Z.of_N (Byte.to_N b).

(** [bytes.Compare]: lexicographic comparison of unsigned bytes; the result
    is -1, 0 or +1. *)
Fixpoint bytes_Compare (a b : bytes) : Z :=
  match a, b with
  | [], [] => 0
  | [], _ :: _ => -1
  | _ :: _, [] => 1
  | x :: a', y :: b' =>
      match byte_val x ?= byte_val y with
      | Lt => -1
      | Gt => 1
      | Eq => bytes_Compare a' b'
      end
  end.

(** [bytes.Equal] *)
Fixpoint bytes_Equal (a b : bytes) : bool :=
  match a, b with
  | [], [] => true
  | x :: a', y :: b' => Byte.eqb x y && bytes_Equal a' b'
  | _, _ => false
  end.

(** [bytes.HasPrefix] *)
Fixpoint bytes_HasPrefix (s prefix : bytes) : bool :=
  match prefix, s with
  | [], _ => true
  | p :: prefix', c :: s' => Byte.eqb c p && bytes_HasPrefix s' prefix'
  | _ :: _, [] => false
  end.

(** ** float64 *)

Definition float64 := spec_float.

Definition f64_lt (a b : float64) : bool := SFltb a b.
Definition f64_eq (a b : float64) : bool := SFeqb a b.
Definition f64_le (a b : float64) : bool := SFleb a b.

(** Conversion of an integer to [float64], rounding to nearest, ties to
    even, as Go's [float64(x)] does. *)
Definition f64_of_Z (z : Z) : float64 := binary_normalize 53 1024 z 0 false.

Definition is_nan (a : float64) : bool :=
  match a with S754_nan => true | _ => false end.

(** ** hashBytes (FNV-1a, 64 bit) *)

Definition u64 (z : Z) : Z := z mod 2 ^ 64.

Definition hashBytes (data : bytes) : Z :=
  fold_left (fun hash b => u64 (Z.lxor hash (byte_val b) * 1099511628211))
            data 14695981039346656037.

(** ** Elements and the skip list *)

Definition MaxLevel : nat := 32.

Abbreviation ptr := nat.

Record Element := mkElement {
  Key : bytes;
  Value : bytes;
  Score : float64;
  Next : list (option ptr);
  Prev : option ptr
}.

(** The random source.  [randomLevel] only looks at whether a draw of
    [Float64()] is below [Probability]; [rand_below n] says so for the
    n-th draw, [rand_pos] counts the draws made. *)
Record Rand := mkRand {
  rand_below : nat -> bool;
  rand_pos : nat
}.

Record SkipList := mkSkipList {
  sl_head : ptr;
  sl_tail : option ptr;
  sl_length : Z;
  sl_level : nat;
  sl_rand : Rand;
  sl_mem : list Element
}.

Definition NewElement (key value : bytes) (score : float64) (level : nat) : Element :=
  {| Key := key; Value := value; Score := score;
     Next := replicate level None; Prev := None |}.

Definition NewSkipList (r : Rand) : SkipList :=
  {| sl_head := 0%nat; sl_tail := None; sl_length := 0; sl_level := 1;
     sl_rand := r;
     sl_mem := [NewElement [] [] (f64_of_Z (-1)) MaxLevel] |}.

(** *** Field access through a pointer *)

Definition with_Next (e : Element) (nx : list (option ptr)) : Element :=
  {| Key := Key e; Value := Value e; Score := Score e; Next := nx; Prev := Prev e |}.

Definition with_Prev (e : Element) (p : option ptr) : Element :=
  {| Key := Key e; Value := Value e; Score := Score e; Next := Next e; Prev := p |}.

Definition with_Value (e : Element) (v : bytes) : Element :=
  {| Key := Key e; Value := v; Score := Score e; Next := Next e; Prev := Prev e |}.

(** [p.Next[i]] *)
Definition get_Next (m : list Element) (p : ptr) (i : nat) : option (option ptr) :=
  e ← m !! p; Next e !! i.

(** [p.Next[i] = v] *)
Definition set_Next (m : list Element) (p : ptr) (i : nat) (v : option ptr)
  : option (list Element) :=
  e ← m !! p;
  if decide (i < length (Next e))%nat
  then Some (<[p := with_Next e (<[i := v]> (Next e))]> m)
  else None.

(** [p.Prev = v] *)
Definition set_Prev (m : list Element) (p : ptr) (v : option ptr)
  : option (list Element) :=
  e ← m !! p; Some (<[p := with_Prev e v]> m).

(** [p.Value = v] *)
Definition set_Value (m : list Element) (p : ptr) (v : bytes)
  : option (list Element) :=
  e ← m !! p; Some (<[p := with_Value e v]> m).

(** [update[i] = v] on a slice: out of range panics. *)
Definition store_at {A} (l : list A) (i : nat) (v : A) : option (list A) :=
  if decide (i < length l)%nat then Some (<[i := v]> l) else None.

(** *** randomLevel *)

Definition rand_next (r : Rand) : Rand :=
  {| rand_below := rand_below r; rand_pos := S (rand_pos r) |}.

(** The loop [for level < MaxLevel && Float64() < Probability { level++ }];
    it runs at most [MaxLevel] times, which is the fuel given below. *)
Fixpoint randomLevel_loop (fuel : nat) (r : Rand) (level : nat) : nat * Rand :=
  match fuel with
  | O => (level, r)
  | S fuel' =>
      if (level <? MaxLevel)%nat then
        if rand_below r (rand_pos r)
        then randomLevel_loop fuel' (rand_next r) (S level)
        else (level, rand_next r)
      else (level, r)
  end.

Definition randomLevel (r : Rand) : nat * Rand := randomLevel_loop MaxLevel r 1.

(** *** The downward walk

    Insert, Delete, Search and Range open with the same two nested loops:
<<
    for i := sl.level - 1; i >= 0; i-- {
        for x.Next[i] != nil && adv(x.Next[i]) { x = x.Next[i] }
        update[i] = x          // Insert and Delete only
    }
>>
    [adv] is the test on the next element. *)

(** The inner loop at level [i].  The walk does not write, so a run that
    takes more steps than there are elements has come back to an element
    and would not return: [S (length m)] is the fuel the callers give. *)
Fixpoint walk_level (fuel : nat) (m : list Element) (adv : Element -> bool)
    (i : nat) (x : ptr) : option ptr :=
  match fuel with
  | O => None
  | S fuel' =>
      nx ← get_Next m x i;
      match nx with
      | None => Some x
      | Some y =>
          ey ← m !! y;
          if adv ey then walk_level fuel' m adv i y else Some x
      end
  end.

(** The outer loop with the [update] vector (Insert, Delete); [n] counts
    the levels still to visit, so the level visited is [n - 1]. *)
Fixpoint walk_down (m : list Element) (adv : Element -> bool) (n : nat)
    (x : ptr) (update : list (option ptr)) : option (ptr * list (option ptr)) :=
  match n with
  | O => Some (x, update)
  | S i =>
      x' ← walk_level (S (length m)) m adv i x;
      update' ← store_at update i (Some x');
      walk_down m adv i x' update'
  end.

(** The outer loop without [update] (Search, Range). *)
Fixpoint seek (m : list Element) (adv : Element -> bool) (n : nat) (x : ptr)
  : option ptr :=
  match n with
  | O => Some x
  | S i => x' ← walk_level (S (length m)) m adv i x; seek m adv i x'
  end.

(** [e.Score < score || (e.Score == score && bytes.Compare(e.Key, key) < 0)] *)
Definition precedes (score : float64) (key : bytes) (e : Element) : bool :=
  f64_lt (Score e) score
  || (f64_eq (Score e) score && (bytes_Compare (Key e) key <? 0)).

(** [e.Score == score && bytes.Equal(e.Key, key)] *)
Definition matches (score : float64) (key : bytes) (e : Element) : bool :=
  f64_eq (Score e) score && bytes_Equal (Key e) key.

(** *** Insert *)

(** [for i := sl.level; i < level; i++ { update[i] = sl.head }], with [k]
    iterations left. *)
Fixpoint raise_update (k i : nat) (hd : ptr) (update : list (option ptr))
  : option (list (option ptr)) :=
  match k with
  | O => Some update
  | S k' => update' ← store_at update i (Some hd); raise_update k' (S i) hd update'
  end.

(** [for i := 0; i < level; i++ {
       newElement.Next[i] = update[i].Next[i]; update[i].Next[i] = newElement }],
    with [k] iterations left. *)
Fixpoint splice (k i : nat) (update : list (option ptr)) (n : ptr)
    (m : list Element) : option (list Element) :=
  match k with
  | O => Some m
  | S k' =>
      ou ← update !! i;
      u ← ou;
      nx ← get_Next m u i;
      m1 ← set_Next m n i nx;
      m2 ← set_Next m1 u i (Some n);
      splice k' (S i) update n m2
  end.

(** Insert returns the list as it leaves it and the element it returns. *)
Definition SkipList_Insert (sl : SkipList) (key value : bytes) (score : float64)
  : option (SkipList * ptr) :=
  '(x, update) ← walk_down (sl_mem sl) (precedes score key) (sl_level sl)
                   (sl_head sl) (replicate MaxLevel None);
  (* if x.Next[0] != nil && x.Next[0].Score == score
        && bytes.Equal(x.Next[0].Key, key) *)
  nx ← get_Next (sl_mem sl) x 0;
  let hit := match nx with
             | Some y => ey ← sl_mem sl !! y;
                         if matches score key ey then Some y else None
             | None => None
             end in
  match hit with
  | Some y =>
      (* x.Next[0].Value = value; return x.Next[0] *)
      m' ← set_Value (sl_mem sl) y value;
      Some ({| sl_head := sl_head sl; sl_tail := sl_tail sl;
               sl_length := sl_length sl; sl_level := sl_level sl;
               sl_rand := sl_rand sl; sl_mem := m' |}, y)
  | None =>
      let '(level, r') := randomLevel (sl_rand sl) in
      (* if level > sl.level { ...; sl.level = level } *)
      update1 ← (if decide (sl_level sl < level)%nat
                 then raise_update (level - sl_level sl) (sl_level sl)
                        (sl_head sl) update
                 else Some update);
      let level' := if decide (sl_level sl < level)%nat then level else sl_level sl in
      (* newElement := NewElement(key, value, score, level) *)
      let n := length (sl_mem sl) in
      let m0 := sl_mem sl ++ [NewElement key value score level] in
      m1 ← splice level 0 update1 n m0;
      (* if update[0] != sl.head { newElement.Prev = update[0] } *)
      u0 ← update1 !! 0%nat;
      m2 ← (if decide (u0 = Some (sl_head sl)) then Some m1 else set_Prev m1 n u0);
      (* if newElement.Next[0] != nil { newElement.Next[0].Prev = newElement }
         else { sl.tail = newElement } *)
      nx0 ← get_Next m2 n 0;
      match nx0 with
      | Some y =>
          m3 ← set_Prev m2 y (Some n);
          Some ({| sl_head := sl_head sl; sl_tail := sl_tail sl;
                   sl_length := sl_length sl + 1; sl_level := level';
                   sl_rand := r'; sl_mem := m3 |}, n)
      | None =>
          Some ({| sl_head := sl_head sl; sl_tail := Some n;
                   sl_length := sl_length sl + 1; sl_level := level';
                   sl_rand := r'; sl_mem := m2 |}, n)
      end
  end.

(** *** Delete *)

(** [for i := 0; i < sl.level; i++ {
       if update[i].Next[i] != x { break }; update[i].Next[i] = x.Next[i] }],
    with [k] iterations left. *)
Fixpoint unsplice (k i : nat) (update : list (option ptr)) (x : ptr)
    (m : list Element) : option (list Element) :=
  match k with
  | O => Some m
  | S k' =>
      ou ← update !! i;
      u ← ou;
      nu ← get_Next m u i;
      if decide (nu = Some x) then
        nx ← get_Next m x i;
        m' ← set_Next m u i nx;
        unsplice k' (S i) update x m'
      else Some m
  end.

(** [for sl.level > 1 && sl.head.Next[sl.level-1] == nil { sl.level-- }] *)
Fixpoint shrink_level (m : list Element) (hd : ptr) (level : nat) : option nat :=
  match level with
  | S (S _ as top) =>
      nx ← get_Next m hd top;
      match nx with
      | None => shrink_level m hd top
      | Some _ => Some level
      end
  | _ => Some level
  end.

(** Delete returns the list as it leaves it and whether it removed an
    element. *)
Definition SkipList_Delete (sl : SkipList) (key : bytes) (score : float64)
  : option (SkipList * bool) :=
  '(x0, update) ← walk_down (sl_mem sl) (precedes score key) (sl_level sl)
                    (sl_head sl) (replicate MaxLevel None);
  (* x = x.Next[0]
     if x == nil || x.Score != score || !bytes.Equal(x.Key, key) { return false } *)
  nx ← get_Next (sl_mem sl) x0 0;
  let hit := match nx with
             | Some x => ex ← sl_mem sl !! x;
                         if negb (f64_eq (Score ex) score)
                            || negb (bytes_Equal (Key ex) key)
                         then None else Some (x, ex)
             | None => None
             end in
  match hit with
  | None => Some (sl, false)
  | Some (x, ex) =>
      m1 ← unsplice (sl_level sl) 0 update x (sl_mem sl);
      (* if x.Next[0] != nil { x.Next[0].Prev = x.Prev } else { sl.tail = x.Prev } *)
      ex1 ← m1 !! x;
      nx0 ← Next ex1 !! 0%nat;
      m2 ← match nx0 with
           | Some y => set_Prev m1 y (Prev ex1)
           | None => Some m1
           end;
      let tail' := match nx0 with Some _ => sl_tail sl | None => Prev ex1 end in
      level' ← shrink_level m2 (sl_head sl) (sl_level sl);
      Some ({| sl_head := sl_head sl; sl_tail := tail';
               sl_length := sl_length sl - 1; sl_level := level';
               sl_rand := sl_rand sl; sl_mem := m2 |}, true)
  end.

(** *** Search *)

(** Search returns the element found, or nil. *)
Definition SkipList_Search (sl : SkipList) (key : bytes) (score : float64)
  : option (option ptr) :=
  x0 ← seek (sl_mem sl) (precedes score key) (sl_level sl) (sl_head sl);
  nx ← get_Next (sl_mem sl) x0 0;
  match nx with
  | Some x =>
      ex ← sl_mem sl !! x;
      if f64_eq (Score ex) score && bytes_Equal (Key ex) key
      then Some (Some x) else Some None
  | None => Some None
  end.

(** *** Range *)

(** [for x != nil && x.Score <= maxScore {
       result = append(result, x)
       if limit > 0 && len(result) >= limit { break }
       x = x.Next[0] }]
    The result is the list of the elements' addresses, in the order they
    were appended. *)
Fixpoint range_collect (fuel : nat) (m : list Element) (maxScore : float64)
    (limit : Z) (x : option ptr) (result : list ptr) : option (list ptr) :=
  match fuel with
  | O => None
  | S fuel' =>
      match x with
      | None => Some result
      | Some p =>
          e ← m !! p;
          if f64_le (Score e) maxScore then
            let result' := result ++ [p] in
            if (0 <? limit) && (limit <=? Z.of_nat (length result'))
            then Some result'
            else nx ← Next e !! 0%nat;
                 range_collect fuel' m maxScore limit nx result'
          else Some result
      end
  end.

(** The walk of Range advances while [x.Next[i].Score < minScore]. *)
Definition SkipList_Range (sl : SkipList) (minScore maxScore : float64) (limit : Z)
  : option (list ptr) :=
  x0 ← seek (sl_mem sl) (fun e => f64_lt (Score e) minScore) (sl_level sl)
         (sl_head sl);
  x ← get_Next (sl_mem sl) x0 0;
  range_collect (S (length (sl_mem sl))) (sl_mem sl) maxScore limit x [].

Definition SkipList_Length (sl : SkipList) : Z := sl_length sl.

Definition SkipList_First (sl : SkipList) : option (option ptr) :=
  get_Next (sl_mem sl) (sl_head sl) 0.

Definition SkipList_Last (sl : SkipList) : option ptr := sl_tail sl.

(** ** The key-value store *)

(** [ttlData] is a [map[string]time.Time]; its keys are the [string(key)]
    of keys, that is, their bytes.  [stopCh] only stops the reaper. *)
Record SkiplistKVStore := mkStore {
  data : SkipList;
  ttlData : gmap bytes Z
}.

Inductive error := ErrKeyNotFound.

(** A task started with [go]; it runs later, as a call of its own. *)
Inductive goroutine := GoDelete (key : bytes).

(** [float64(hashBytes(key))] *)
Definition score_of (key : bytes) : float64 := f64_of_Z (hashBytes key).

Definition NewSkiplistKVStore (r : Rand) : SkiplistKVStore :=
  {| data := NewSkipList r; ttlData := ∅ |}.

(** [s.data.Insert(key, value, score); delete(s.ttlData, string(key))] *)
Definition Store_Set (s : SkiplistKVStore) (key value : bytes)
  : option SkiplistKVStore :=
  '(sl, _) ← SkipList_Insert (data s) key value (score_of key);
  Some {| data := sl; ttlData := delete key (ttlData s) |}.

(** [s.data.Insert(key, value, score);
     s.ttlData[string(key)] = time.Now().Add(ttl)] *)
Definition Store_SetWithTTL (s : SkiplistKVStore) (now : Z) (key value : bytes)
    (ttl : Z) : option SkiplistKVStore :=
  '(sl, _) ← SkipList_Insert (data s) key value (score_of key);
  Some {| data := sl; ttlData := <[key := now + ttl]> (ttlData s) |}.

(** The TTL test of Get: [exists && time.Now().After(expiry)]. *)
Definition expired_for_Get (s : SkiplistKVStore) (now : Z) (key : bytes) : bool :=
  match ttlData s !! key with
  | Some expiry => expiry <? now
  | None => false
  end.

(** Get returns the store as it leaves it, the value or the error, and the
    tasks it started.  In its first branch the code runs [go s.Delete(key)]
    and returns; Get holds the read lock of the store until then, so the
    Delete cannot start before Get is over. *)
Definition Store_Get (s : SkiplistKVStore) (now : Z) (key : bytes)
  : option (SkiplistKVStore * (bytes + error) * list goroutine) :=
  if expired_for_Get s now key then
    Some (s, inr ErrKeyNotFound, [GoDelete key])
  else
    elem ← SkipList_Search (data s) key (score_of key);
    match elem with
    | None => Some (s, inr ErrKeyNotFound, [])
    | Some p => e ← sl_mem (data s) !! p; Some (s, inl (Value e), [])
    end.

(** [result := s.data.Delete(key, score); delete(s.ttlData, string(key));
     return result] *)
Definition Store_Delete (s : SkiplistKVStore) (key : bytes)
  : option (SkiplistKVStore * bool) :=
  '(sl, result) ← SkipList_Delete (data s) key (score_of key);
  Some ({| data := sl; ttlData := delete key (ttlData s) |}, result).

(** What a task does when it gets to run. *)
Definition run_goroutine (g : goroutine) (s : SkiplistKVStore)
  : option SkiplistKVStore :=
  match g with
  | GoDelete key => fst <$> Store_Delete s key
  end.

(** [time.Until(expiry)]: the difference of two instants, saturated to the
    range of a [Duration]. *)
Definition time_Until (now expiry : Z) : Z :=
  Z.max (- 2 ^ 63) (Z.min (2 ^ 63 - 1) (expiry - now)).

(** GetTTL returns the store as it leaves it and its two results. *)
Definition Store_GetTTL (s : SkiplistKVStore) (now : Z) (key : bytes)
  : SkiplistKVStore * (Z * bool) :=
  match ttlData s !! key with
  | None => (s, (0, false))
  | Some expiry =>
      let remaining := time_Until now expiry in
      if remaining <=? 0 then (s, (0, false)) else (s, (remaining, true))
  end.

Definition Store_Size (s : SkiplistKVStore) : Z := SkipList_Length (data s).

(** The TTL test of Scan: [!exists || now.Before(expiry)]. *)
Definition live_for_Scan (ttl : gmap bytes Z) (now : Z) (key : bytes) : bool :=
  match ttl !! key with
  | Some expiry => now <? expiry
  | None => true
  end.

(** The loop of Scan over the level-0 chain:
    [for current != nil && (limit <= 0 || count < limit) { ... }] *)
Fixpoint scan_loop (fuel : nat) (m : list Element) (ttl : gmap bytes Z)
    (now : Z) (prefix : bytes) (limit : Z) (current : option ptr) (count : Z)
    (result : gmap bytes bytes) : option (gmap bytes bytes) :=
  match fuel with
  | O => None
  | S fuel' =>
      match current with
      | None => Some result
      | Some p =>
          if (limit <=? 0) || (count <? limit) then
            e ← m !! p;
            let take := bytes_HasPrefix (Key e) prefix
                        && live_for_Scan ttl now (Key e) in
            nx ← Next e !! 0%nat;
            scan_loop fuel' m ttl now prefix limit nx
              (if take then count + 1 else count)
              (if take then <[Key e := Value e]> result else result)
          else Some result
      end
  end.

Definition Store_Scan (s : SkiplistKVStore) (now : Z) (prefix : bytes) (limit : Z)
  : option (gmap bytes bytes) :=
  current ← SkipList_First (data s);
  scan_loop (S (length (sl_mem (data s)))) (sl_mem (data s)) (ttlData s) now
    prefix limit current 0 ∅.

(** *** Keys and SizeActive *)

(** The loop of Keys over the level-0 chain.  The code reads the clock
    inside the loop, once for every element that has a TTL entry
    ([!exists || time.Now().Before(expiry)]): [clock n] is what the n-th
    reading returns and [reads] counts the readings made. *)
Fixpoint keys_loop (fuel : nat) (m : list Element) (ttl : gmap bytes Z)
    (clock : nat -> Z) (reads : nat) (current : option ptr) (keys : list bytes)
  : option (list bytes) :=
  match fuel with
  | O => None
  | S fuel' =>
      match current with
      | None => Some keys
      | Some p =>
          e ← m !! p;
          nx ← Next e !! 0%nat;
          match ttl !! Key e with
          | None => keys_loop fuel' m ttl clock reads nx (keys ++ [Key e])
          | Some expiry =>
              keys_loop fuel' m ttl clock (S reads) nx
                (if clock reads <? expiry then keys ++ [Key e] else keys)
          end
      end
  end.

(** [make([][]byte, 0, s.data.Length())] panics on a negative capacity. *)
Definition Store_Keys (s : SkiplistKVStore) (clock : nat -> Z)
  : option (list bytes) :=
  if SkipList_Length (data s) <? 0 then None
  else
    current ← SkipList_First (data s);
    keys_loop (S (length (sl_mem (data s)))) (sl_mem (data s)) (ttlData s)
      clock 0 current [].

(** The loop of SizeActive; the clock is read once, before the loop. *)
Fixpoint size_active_loop (fuel : nat) (m : list Element) (ttl : gmap bytes Z)
    (now : Z) (current : option ptr) (count : Z) : option Z :=
  match fuel with
  | O => None
  | S fuel' =>
      match current with
      | None => Some count
      | Some p =>
          e ← m !! p;
          nx ← Next e !! 0%nat;
          size_active_loop fuel' m ttl now nx
            (if live_for_Scan ttl now (Key e) then count + 1 else count)
      end
  end.

Definition Store_SizeActive (s : SkiplistKVStore) (now : Z) : option Z :=
  current ← SkipList_First (data s);
  size_active_loop (S (length (sl_mem (data s)))) (sl_mem (data s)) (ttlData s)
    now current 0.

(** *** The reaper *)

(** [cleanExpiredKeys]: collect the keys whose expiry is before [now], then
    delete them one by one (Go ranges over the map in an order of its own;
    here it is the order of [map_to_list]). *)
Definition expired_keys (s : SkiplistKVStore) (now : Z) : list bytes :=
  (map_to_list (filter (fun kv => snd kv < now) (ttlData s))).*1.

Fixpoint delete_all (keys : list bytes) (s : SkiplistKVStore)
  : option SkiplistKVStore :=
  match keys with
  | [] => Some s
  | key :: keys' => '(s', _) ← Store_Delete s key; delete_all keys' s'
  end.

Definition Store_cleanExpiredKeys (s : SkiplistKVStore) (now : Z)
  : option SkiplistKVStore :=
  delete_all (expired_keys s now) s.

(** ** Running sequences of operations *)

Inductive sl_op :=
| OpInsert (key value : bytes) (score : float64)
| OpDelete (key : bytes) (score : float64).

Definition sl_step (sl : SkipList) (o : sl_op) : option SkipList :=
  match o with
  | OpInsert key value score => fst <$> SkipList_Insert sl key value score
  | OpDelete key score => fst <$> SkipList_Delete sl key score
  end.

Fixpoint sl_run (ops : list sl_op) (sl : SkipList) : option SkipList :=
  match ops with
  | [] => Some sl
  | o :: ops' => sl' ← sl_step sl o; sl_run ops' sl'
  end.

(** The level-[i] chain: the elements met by following [Next[i]] from the
    head to nil. *)
Fixpoint chain_from (fuel : nat) (m : list Element) (i : nat) (x : option ptr)
  : option (list ptr) :=
  match fuel with
  | O => None
  | S fuel' =>
      match x with
      | None => Some []
      | Some p => nx ← get_Next m p i; (p ::.) <$> chain_from fuel' m i nx
      end
  end.

Definition chain (sl : SkipList) (i : nat) : option (list ptr) :=
  x ← get_Next (sl_mem sl) (sl_head sl) i;
  chain_from (S (length (sl_mem sl))) (sl_mem sl) i x.

(** The states of the store: those a caller can produce.  The reaper and
    the tasks spawned by Get only ever call Delete. *)
Inductive reachable : SkiplistKVStore -> Prop :=
| reach_New r : reachable (NewSkiplistKVStore r)
| reach_Set s key value s' :
    reachable s -> Store_Set s key value = Some s' -> reachable s'
| reach_SetWithTTL s now key value ttl s' :
    reachable s -> Store_SetWithTTL s now key value ttl = Some s' -> reachable s'
| reach_Delete s key s' b :
    reachable s -> Store_Delete s key = Some (s', b) -> reachable s'.

(** * Vocabulary of the specification *)

(** ** The order of the list *)

(** The comparison of the walk, on two (score, key) pairs: score first,
    then key.  [precedes score key e] is [klt (Score e) (Key e) score key]. *)
Definition klt (s1 : float64) (k1 : bytes) (s2 : float64) (k2 : bytes) : bool :=
  f64_lt s1 s2 || (f64_eq s1 s2 && (bytes_Compare k1 k2 <? 0)).

(** The test for "the same pair"; [matches score key e] is
    [keq (Score e) (Key e) score key]. *)
Definition keq (s1 : float64) (k1 : bytes) (s2 : float64) (k2 : bytes) : bool :=
  f64_eq s1 s2 && bytes_Equal k1 k2.

(** The element behind [p] comes before the one behind [q], by the
    comparison the walk uses. *)
Definition elem_lt (m : list Element) (p q : ptr) : Prop :=
  exists ep eq, m !! p = Some ep /\ m !! q = Some eq /\
                precedes (Score eq) (Key eq) ep = true.

(** Scores at or above zero (of either sign for zero itself). *)
Definition f64_nonneg (x : float64) : bool :=
  match x with
  | S754_zero _ => true
  | S754_infinity s => negb s
  | S754_finite s _ _ => negb s
  | S754_nan => false
  end.

(** ** The representation invariant *)

(** What the list holds, read off the arena: one node per element of the
    level-0 chain, with its address, its contents and the number of levels
    it takes part in (the length of its [Next]). *)
Record node := mkNode {
  n_ptr : ptr;
  n_key : bytes;
  n_val : bytes;
  n_score : float64;
  n_height : nat
}.

Definition node_lt (a b : node) : Prop :=
  klt (n_score a) (n_key a) (n_score b) (n_key b) = true.

(** The cell at [n_ptr nd] holds what [nd] says. *)
Definition agrees (m : list Element) (nd : node) : Prop :=
  exists e, m !! n_ptr nd = Some e /\ Key e = n_key nd /\ Value e = n_val nd /\
            Score e = n_score nd /\ length (Next e) = n_height nd.

(** [linked m i x rest]: following [Next[i]] from [x] visits [rest] and
    then nil. *)
Fixpoint linked (m : list Element) (i : nat) (x : ptr) (rest : list ptr) : Prop :=
  match rest with
  | [] => get_Next m x i = Some None
  | y :: rest' => get_Next m x i = Some (Some y) /\ linked m i y rest'
  end.

(** The addresses of the nodes that take part in level [i]. *)
Definition at_level (i : nat) (l : list node) : list ptr :=
  n_ptr <$> filter (fun nd => i < n_height nd)%nat l.

(** [skiplist_inv sl l]: the cells of [sl] are linked into the skip list of
    the nodes [l].  The head has [MaxLevel] links; the nodes are distinct
    cells, strictly increasing in (score, key), with scores that are not
    NaN and heights between 1 and the level of the list; on every level the
    chain from the head visits the nodes of that level, in order. *)
Record skiplist_inv (sl : SkipList) (l : list node) : Prop := {
  inv_head : exists eh, sl_mem sl !! sl_head sl = Some eh /\
                        length (Next eh) = MaxLevel;
  inv_agree : Forall (agrees (sl_mem sl)) l;
  inv_nodup : NoDup (sl_head sl :: (n_ptr <$> l));
  inv_sorted : StronglySorted node_lt l;
  inv_nonan : Forall (fun nd => is_nan (n_score nd) = false) l;
  inv_heights : Forall (fun nd => 1 <= n_height nd <= sl_level sl)%nat l;
  inv_level : (1 <= sl_level sl <= MaxLevel)%nat;
  inv_links : forall i, (i < MaxLevel)%nat ->
                linked (sl_mem sl) i (sl_head sl) (at_level i l);
  inv_length : sl_length sl = Z.of_nat (length l)
}.

(** A list whose cells are linked as the invariant says. *)
Definition well_formed (sl : SkipList) : Prop := exists l, skiplist_inv sl l.

(** The last element of a list, or [d] when it is empty. *)
Definition lastd {A} (d : A) (l : list A) : A := default d (last l).

(** The element at which the walk for a target leaves level [i]: the last
    one of that level among the nodes [l1] below the target, or the head. *)
Definition pred_at (hd : ptr) (l1 : list node) (i : nat) : ptr :=
  lastd hd (at_level i l1).

(** [same_static m m']: the writes from [m] to [m'] touched links only. *)
Definition same_static (m m' : list Element) : Prop :=
  length m' = length m /\
  forall p e, m !! p = Some e ->
    exists e', m' !! p = Some e' /\ Key e' = Key e /\ Value e' = Value e /\
               Score e' = Score e /\ length (Next e') = length (Next e).

(** A node is below the target, or is the target. *)
Definition below (score : float64) (key : bytes) (nd : node) : bool :=
  klt (n_score nd) (n_key nd) score key.

Definition hits (score : float64) (key : bytes) (nd : node) : bool :=
  keq (n_score nd) (n_key nd) score key.

Definition node_set_val (v : bytes) (nd : node) : node :=
  {| n_ptr := n_ptr nd; n_key := n_key nd; n_val := v;
     n_score := n_score nd; n_height := n_height nd |}.

(** ** Properties of the skip list *)

(** An operation of a run that does not insert a NaN score. *)
Definition no_nan_insert (o : sl_op) : Prop :=
  match o with
  | OpInsert _ _ score => is_nan score = false
  | OpDelete _ _ => True
  end.

(** The level-0 chain is strictly increasing, and an element met on a
    level is met on every level below. *)
Definition ordered_levels (sl : SkipList) : Prop :=
  (exists c0, chain sl 0 = Some c0 /\ StronglySorted (elem_lt (sl_mem sl)) c0) /\
  (forall L L' cL p, (L' < L < MaxLevel)%nat -> chain sl L = Some cL -> p ∈ cL ->
     exists cL', chain sl L' = Some cL' /\ p ∈ cL').

(** The score of the element behind [p] lies in [[minScore, maxScore]]. *)
Definition in_range (m : list Element) (minScore maxScore : float64) (p : ptr)
  : bool :=
  match m !! p with
  | Some e => f64_le minScore (Score e) && f64_le (Score e) maxScore
  | None => false
  end.

(** A positive [limit] keeps the first [limit] elements. *)
Definition truncate {A} (limit : Z) (l : list A) : list A :=
  if 0 <? limit then take (Z.to_nat limit) l else l.

(** ** Properties of the store *)

(** The entries of the store, read off the level-0 chain. *)
Fixpoint entries_of (m : list Element) (c : list ptr) : option (list (bytes * bytes)) :=
  match c with
  | [] => Some []
  | p :: c' => e ← m !! p; ((Key e, Value e) ::.) <$> entries_of m c'
  end.

Definition store_entries (s : SkiplistKVStore) : option (gmap bytes bytes) :=
  c ← chain (data s) 0;
  list_to_map <$> entries_of (sl_mem (data s)) c.

(** Scan keeps an entry when its key has the prefix and its TTL, if any,
    is still ahead of the clock. *)
Definition scan_keeps (ttl : gmap bytes Z) (now : Z) (prefix : bytes)
    (entry : bytes * bytes) : Prop :=
  bytes_HasPrefix entry.1 prefix = true /\ live_for_Scan ttl now entry.1 = true.

#[global] Instance scan_keeps_dec ttl now prefix entry :
  Decision (scan_keeps ttl now prefix entry).
Proof. unfold scan_keeps. apply _. Defined.

(** What is asked of an entry that Scan returns, said on the key and the
    TTL table themselves and not through the tests the code runs: the key
    starts with the prefix, and either the key has no TTL entry or the
    clock is before the instant of its entry. *)
Definition scan_wants (ttl : gmap bytes Z) (now : Z) (prefix : bytes)
    (entry : bytes * bytes) : Prop :=
  prefix `prefix_of` entry.1 /\
  forall expiry, ttl !! entry.1 = Some expiry -> now < expiry.

#[global] Instance scan_wants_dec ttl now prefix entry :
  Decision (scan_wants ttl now prefix entry).
Proof.
  unfold scan_wants. destruct (ttl !! entry.1) as [expiry|].
  - destruct (decide (prefix `prefix_of` entry.1 /\ now < expiry)) as [[Hp Hlt]|Hno].
    + left. split; [exact Hp|]. intros e [= <-]. exact Hlt.
    + right. intros [Hp H]. apply Hno. split; [exact Hp|]. by apply H.
  - destruct (decide (prefix `prefix_of` entry.1)) as [Hp|Hno].
    + left. split; [exact Hp|]. intros e [=].
    + right. intros [Hp _]. by apply Hno.
Defined.

Definition kv (nd : node) : bytes * bytes := (n_key nd, n_val nd).

(** What a list of nodes maps keys to. *)
Definition contents (l : list node) : gmap bytes bytes := list_to_map (kv <$> l).

(** The skip list of a store is well formed and every score in it is the
    score of its key. *)
Record store_inv (s : SkiplistKVStore) (l : list node) : Prop := {
  st_list : skiplist_inv (data s) l;
  st_scores : Forall (fun nd => n_score nd = score_of (n_key nd)) l
}.

(** The writes of the Scan loop, over the nodes it keeps. *)
Definition insert_all (ns : list node) (res : gmap bytes bytes) : gmap bytes bytes :=
  foldl (fun r nd => <[n_key nd := n_val nd]> r) res ns.

(** ** The elements of a list *)

(** The elements of the list, read off the cells of the level-0 chain:
    address, key, value, score and number of levels of each. *)
Fixpoint nodes_of (m : list Element) (c : list ptr) : option (list node) :=
  match c with
  | [] => Some []
  | p :: c' =>
      e ← m !! p;
      (mkNode p (Key e) (Value e) (Score e) (length (Next e)) ::.) <$> nodes_of m c'
  end.

Definition sl_nodes (sl : SkipList) : option (list node) :=
  c ← chain sl 0; nodes_of (sl_mem sl) c.

(** ** The TTL table and the answers of Get *)

(** The TTL entry of the key is before the clock: the test of
    cleanExpiredKeys, [expiry.Before(now)]. *)
Definition ttl_before (ttl : gmap bytes Z) (now : Z) (key : bytes) : Prop :=
  exists expiry, ttl !! key = Some expiry /\ expiry < now.

#[global] Instance ttl_before_dec ttl now key : Decision (ttl_before ttl now key).
Proof.
  unfold ttl_before. destruct (ttl !! key) as [expiry|].
  - destruct (decide (expiry < now)); [left; eauto|right].
    intros (e & [= <-] & ?). done.
  - right. intros (e & ? & _). done.
Defined.

(** What Get answers, without the store it hands back. *)
Definition answer (r : option (SkiplistKVStore * (bytes + error) * list goroutine))
  : option ((bytes + error) * list goroutine) :=
  (fun x => (x.1.2, x.2)) <$> r.

(** ** The backward links and the level *)

(** [p.Prev] *)
Definition prev_of (m : list Element) (p : ptr) : option (option ptr) :=
  Prev <$> m !! p.

(** [back_linked m prev c]: the backward link of the first element of [c]
    is [prev], and the backward link of every other element of [c] is the
    element before it. *)
Fixpoint back_linked (m : list Element) (prev : option ptr) (c : list ptr) : Prop :=
  match c with
  | [] => True
  | p :: c' => prev_of m p = Some prev /\ back_linked m (Some p) c'
  end.

(** The tail is the last element of the chain [c] and the backward links
    run along [c], from nil. *)
Definition back_links (sl : SkipList) (c : list ptr) : Prop :=
  sl_tail sl = last c /\ back_linked (sl_mem sl) None c.

(** The greatest number of levels of a node, 1 when there is none. *)
Definition max_height (l : list node) : nat := foldr Nat.max 1%nat (n_height <$> l).

(** The last element of [c], or [prev] when [c] is empty. *)
Definition last_or (prev : option ptr) (c : list ptr) : option ptr :=
  match last c with Some p => Some p | None => prev end.

(** ** Sample data *)

(** A random source whose draws are never below [Probability]: every new
    element gets level 1. *)
Definition rand_flat : Rand := {| rand_below := fun _ => false; rand_pos := 0 |}.

Definition key_a : bytes := [Byte.x61].
Definition key_b : bytes := [Byte.x62].
Definition key_c : bytes := [Byte.x63].
Definition val_1 : bytes := [Byte.x31].
Definition val_2 : bytes := [Byte.x32].
Definition val_3 : bytes := [Byte.x33].

Definition nan_ops : list sl_op :=
  [OpInsert key_a val_1 (f64_of_Z 10); OpInsert key_b val_2 S754_nan;
   OpInsert key_c val_3 (f64_of_Z 20)].

Definition sample_ops : list sl_op :=
  [OpInsert key_a val_1 (f64_of_Z 10); OpInsert key_b val_2 (f64_of_Z 5);
   OpInsert key_c val_3 (f64_of_Z 20); OpDelete key_a (f64_of_Z 10)].

(** A store holding [key_a] with a TTL entry at instant 5. *)
Definition sample_expiring : SkiplistKVStore :=
  default (NewSkiplistKVStore rand_flat)
    (Store_SetWithTTL (NewSkiplistKVStore rand_flat) 0 key_a val_1 5).

(** A store holding [key_a] with no TTL. *)
Definition sample_store : SkiplistKVStore :=
  default (NewSkiplistKVStore rand_flat)
    (Store_Set (NewSkiplistKVStore rand_flat) key_a val_1).

Definition sample_entries : gmap bytes bytes := <[key_a := val_1]> ∅.

(** A store holding [key_a] with a TTL entry at instant 5 and [key_b] with
    no TTL. *)
Definition sample_mixed : SkiplistKVStore :=
  default sample_expiring (Store_Set sample_expiring key_b val_2).

Definition sample_mixed_entries : gmap bytes bytes :=
  <[key_b := val_2]> (<[key_a := val_1]> ∅).

(** The keys "user:1", "user:2", "order:1" and the prefix "user:". *)
Definition user_1 : bytes :=
  [Byte.x75; Byte.x73; Byte.x65; Byte.x72; Byte.x3a; Byte.x31].
Definition user_2 : bytes :=
  [Byte.x75; Byte.x73; Byte.x65; Byte.x72; Byte.x3a; Byte.x32].
Definition order_1 : bytes :=
  [Byte.x6f; Byte.x72; Byte.x64; Byte.x65; Byte.x72; Byte.x3a; Byte.x31].
Definition user_prefix : bytes :=
  [Byte.x75; Byte.x73; Byte.x65; Byte.x72; Byte.x3a].

(** The list left by [sample_ops]: the elements 5 and 20. *)
Definition sample_list : SkipList :=
  default (NewSkipList rand_flat) (sl_run sample_ops (NewSkipList rand_flat)).

(** A random source whose first two draws are below [Probability]: the
    first new element gets level 3. *)
Definition rand_two : Rand := {| rand_below := fun n => (n <? 2)%nat; rand_pos := 0 |}.

(** * Verification *)

(** Case analysis on the comparisons inside [SFcompare]. *)
Ltac cmp_cases :=
  repeat match goal with
  | |- context [Z.compare ?a ?b] => destruct (Z.compare_spec a b)
  | H : context [Z.compare ?a ?b] |- _ => destruct (Z.compare_spec a b)
  | |- context [Pos.compare_cont Eq ?a ?b] =>
      change (Pos.compare_cont Eq a b) with (Pos.compare a b);
      destruct (Pos.compare_spec a b)
  | H : context [Pos.compare_cont Eq ?a ?b] |- _ =>
      change (Pos.compare_cont Eq a b) with (Pos.compare a b) in H;
      destruct (Pos.compare_spec a b)
  end.


(** ** The model on known values *)

(** FNV-1a of the empty string and of "a". *)
Example hashBytes_known :
  hashBytes [] = 0xcbf29ce484222325 /\ hashBytes key_a = 0xaf63dc4c8601ec8c.
Proof. split; reflexivity. Qed.

(** The conversion rounds to 53 bits, ties to even. *)
Example f64_of_Z_rounds :
  f64_of_Z (2 ^ 53 + 1) = f64_of_Z (2 ^ 53) /\
  f64_of_Z (2 ^ 53 + 3) = f64_of_Z (2 ^ 53 + 4) /\
  f64_of_Z (2 ^ 64 - 1) = f64_of_Z (2 ^ 64).
Proof. repeat split; vm_compute; reflexivity. Qed.

Example nan_compares_false :
  f64_lt S754_nan (f64_of_Z 1) = false /\ f64_lt (f64_of_Z 1) S754_nan = false /\
  f64_eq S754_nan S754_nan = false /\ f64_le S754_nan S754_nan = false.
Proof. repeat split. Qed.

(** Insert 10, 5, 20 and delete 10: the chain is 5, 20, the tail is the
    element 20 and its backward link points to the element 5. *)
Example sample_run :
  exists sl, sl_run sample_ops (NewSkipList rand_flat) = Some sl /\
    chain sl 0 = Some [2; 3]%nat /\ sl_tail sl = Some 3%nat /\ sl_length sl = 2 /\
    (Score <$> sl_mem sl !! 2%nat) = Some (f64_of_Z 5) /\
    (Prev <$> sl_mem sl !! 3%nat) = Some (Some 2%nat) /\
    (Prev <$> sl_mem sl !! 2%nat) = Some None.
Proof. eexists. repeat split; vm_compute; reflexivity. Qed.

(** ** The order on scores and keys *)

Lemma SFcompare_antisym a b : SFcompare b a = CompOpp <$> SFcompare a b.
Proof.
  destruct a as [[]|[]| |[] m1 e1], b as [[]|[]| |[] m2 e2]; simpl; try reflexivity;
    cmp_cases; subst; simpl; try reflexivity; try lia.
Qed.

Lemma SFcompare_refl a : is_nan a = false -> SFcompare a a = Some Eq.
Proof.
  destruct a as [[]|[]| |[] m e]; simpl; try done; intros _;
  rewrite Z.compare_refl; change (Pos.compare_cont Eq m m) with (Pos.compare m m);
  by rewrite Pos.compare_refl.
Qed.

Lemma SFcompare_trans a b c r :
  SFcompare a b = Some r -> SFcompare b c = Some r -> SFcompare a c = Some r.
Proof.
  destruct a as [[]|[]| |[] m1 e1], b as [[]|[]| |[] m2 e2], c as [[]|[]| |[] m3 e3];
    simpl; try congruence; intros H1 H2; cmp_cases; subst; simpl in *; try congruence; try lia.
Qed.

Lemma SFcompare_eq_l a b c :
  SFcompare a b = Some Eq -> SFcompare a c = SFcompare b c.
Proof.
  destruct a as [[]|[]| |[] m1 e1], b as [[]|[]| |[] m2 e2], c as [[]|[]| |[] m3 e3];
    simpl; try congruence; intros H1; cmp_cases; subst; simpl in *; try congruence; try lia.
Qed.

Lemma SFcompare_eq_r a b c :
  SFcompare a b = Some Eq -> SFcompare c a = SFcompare c b.
Proof.
  intros H. rewrite (SFcompare_antisym a c), (SFcompare_antisym b c).
  by rewrite (SFcompare_eq_l a b c H).
Qed.

Lemma SFcompare_None a b :
  SFcompare a b = None -> is_nan a = true \/ is_nan b = true.
Proof.
  destruct a as [[]|[]| |[] m1 e1], b as [[]|[]| |[] m2 e2]; simpl; auto; discriminate.
Qed.

(** The score order, on scores that are not NaN. *)
Lemma f64_lt_spec a b : f64_lt a b = true <-> SFcompare a b = Some Lt.
Proof. unfold f64_lt, SFltb. destruct (SFcompare a b) as [[]|]; split; congruence. Qed.

Lemma f64_eq_spec a b : f64_eq a b = true <-> SFcompare a b = Some Eq.
Proof. unfold f64_eq, SFeqb. destruct (SFcompare a b) as [[]|]; split; congruence. Qed.

Lemma f64_le_lt_eq a b : f64_le a b = f64_lt a b || f64_eq a b.
Proof. unfold f64_le, f64_lt, f64_eq, SFleb, SFltb, SFeqb. by destruct (SFcompare a b) as [[]|]. Qed.

Lemma f64_lt_trans a b c : f64_lt a b = true -> f64_lt b c = true -> f64_lt a c = true.
Proof. rewrite !f64_lt_spec. apply SFcompare_trans. Qed.

Lemma f64_eq_trans a b c : f64_eq a b = true -> f64_eq b c = true -> f64_eq a c = true.
Proof. rewrite !f64_eq_spec. apply SFcompare_trans. Qed.

Lemma f64_eq_sym a b : f64_eq a b = true -> f64_eq b a = true.
Proof. rewrite !f64_eq_spec, (SFcompare_antisym a b). by intros ->. Qed.

Lemma f64_eq_refl a : is_nan a = false -> f64_eq a a = true.
Proof. rewrite f64_eq_spec. apply SFcompare_refl. Qed.

Lemma f64_eq_lt_l a b c : f64_eq a b = true -> f64_lt a c = f64_lt b c.
Proof.
  rewrite f64_eq_spec. intros H. unfold f64_lt, SFltb.
  by rewrite (SFcompare_eq_l a b c H).
Qed.

Lemma f64_eq_lt_r a b c : f64_eq a b = true -> f64_lt c a = f64_lt c b.
Proof.
  rewrite f64_eq_spec. intros H. unfold f64_lt, SFltb.
  by rewrite (SFcompare_eq_r a b c H).
Qed.

Lemma f64_eq_eq_l a b c : f64_eq a b = true -> f64_eq a c = f64_eq b c.
Proof.
  rewrite f64_eq_spec. intros H. unfold f64_eq, SFeqb.
  by rewrite (SFcompare_eq_l a b c H).
Qed.

Lemma f64_eq_eq_r a b c : f64_eq a b = true -> f64_eq c a = f64_eq c b.
Proof.
  rewrite f64_eq_spec. intros H. unfold f64_eq, SFeqb.
  by rewrite (SFcompare_eq_r a b c H).
Qed.

Lemma f64_lt_not_eq a b : f64_lt a b = true -> f64_eq a b = false.
Proof. unfold f64_lt, f64_eq, SFltb, SFeqb. by destruct (SFcompare a b) as [[]|]. Qed.

Lemma f64_lt_asym a b : f64_lt a b = true -> f64_lt b a = false.
Proof.
  unfold f64_lt, SFltb. rewrite (SFcompare_antisym a b).
  by destruct (SFcompare a b) as [[]|].
Qed.

Lemma f64_lt_not_nan a b : f64_lt a b = true -> is_nan a = false /\ is_nan b = false.
Proof. by destruct a as [[]|[]| |[] m1 e1], b as [[]|[]| |[] m2 e2]. Qed.

Lemma f64_eq_not_nan a b : f64_eq a b = true -> is_nan a = false /\ is_nan b = false.
Proof. by destruct a as [[]|[]| |[] m1 e1], b as [[]|[]| |[] m2 e2]. Qed.

Lemma f64_total a b :
  is_nan a = false -> is_nan b = false ->
  f64_lt a b = false -> f64_eq a b = false -> f64_lt b a = true.
Proof.
  intros Ha Hb. unfold f64_lt, f64_eq, SFltb, SFeqb.
  rewrite (SFcompare_antisym a b).
  destruct (SFcompare a b) as [[]|] eqn:E; try done.
  apply SFcompare_None in E as [E|E]; congruence.
Qed.

(** [bytes.Compare] is a strict total order on keys. *)
Lemma byte_val_inj x y : byte_val x = byte_val y -> x = y.
Proof.
  unfold byte_val. intros H%(inj Z.of_N).
  assert (Some x = Some y) as [= ->]; [|done].
  by rewrite <- (Byte.of_to_N x), <- (Byte.of_to_N y), H.
Qed.

Lemma bytes_Equal_eq a b : bytes_Equal a b = true <-> a = b.
Proof.
  revert b. induction a as [|x a IH]; intros [|y b]; simpl; try (split; congruence).
  rewrite andb_true_iff, IH. split.
  - intros [H ->]. by apply Byte.byte_dec_bl in H as ->.
  - intros [= -> ->]. split; [by apply Byte.byte_dec_lb|done].
Qed.

Lemma bytes_Compare_eq a b : bytes_Compare a b = 0 <-> a = b.
Proof.
  revert b. induction a as [|x a IH]; intros [|y b]; simpl; try (split; (congruence || lia)).
  destruct (Z.compare_spec (byte_val x) (byte_val y)) as [E|E|E].
  - apply byte_val_inj in E as ->. rewrite IH. split; congruence.
  - split; [lia|]. intros [= -> ->]. lia.
  - split; [lia|]. intros [= -> ->]. lia.
Qed.

Lemma bytes_Compare_antisym a b : bytes_Compare b a = - bytes_Compare a b.
Proof.
  revert b. induction a as [|x a IH]; intros [|y b]; simpl; try done.
  rewrite (Z.compare_antisym (byte_val x) (byte_val y)).
  destruct (byte_val x ?= byte_val y); simpl; auto.
Qed.

Lemma bytes_Compare_trans a b c :
  bytes_Compare a b < 0 -> bytes_Compare b c < 0 -> bytes_Compare a c < 0.
Proof.
  revert b c. induction a as [|x a IH]; intros [|y b] [|z c]; simpl; try lia.
  destruct (Z.compare_spec (byte_val x) (byte_val y)) as [E1|E1|E1];
    destruct (Z.compare_spec (byte_val y) (byte_val z)) as [E2|E2|E2];
    destruct (Z.compare_spec (byte_val x) (byte_val z)) as [E3|E3|E3];
    try lia.
  apply IH.
Qed.

Lemma bytes_HasPrefix_spec s p : bytes_HasPrefix s p = true <-> p `prefix_of` s.
Proof.
  revert s. induction p as [|x p IH]; intros [|c s]; cbn [bytes_HasPrefix].
  - split; [intros _; apply prefix_nil|done].
  - split; [intros _; apply prefix_nil|done].
  - split; [done|]. intros [k Hk]. discriminate.
  - rewrite andb_true_iff, IH. split.
    + intros [H Hp]. apply Byte.byte_dec_bl in H as ->. by apply prefix_cons.
    + intros [k [= -> ->]]. split; [by apply Byte.byte_dec_lb|]. by exists k.
Qed.

(** ** The order on pairs *)

Lemma klt_trans s1 k1 s2 k2 s3 k3 :
  klt s1 k1 s2 k2 = true -> klt s2 k2 s3 k3 = true -> klt s1 k1 s3 k3 = true.
Proof.
  unfold klt. rewrite !orb_true_iff, !andb_true_iff, !Z.ltb_lt.
  intros [H1|[H1 K1]] [H2|[H2 K2]].
  - left. eauto using f64_lt_trans.
  - left. by rewrite <- (f64_eq_lt_r _ _ s1 H2).
  - left. by rewrite (f64_eq_lt_l _ _ s3 H1).
  - right. eauto using f64_eq_trans, bytes_Compare_trans.
Qed.

Lemma klt_irrefl s k : klt s k s k = false.
Proof.
  unfold klt. apply orb_false_iff. split.
  - destruct (f64_lt s s) eqn:E; [|done]. by rewrite (f64_lt_asym _ _ E) in E.
  - apply andb_false_iff. right. apply Z.ltb_ge.
    by rewrite (proj2 (bytes_Compare_eq k k) eq_refl).
Qed.

Lemma klt_total s1 k1 s2 k2 :
  is_nan s1 = false -> is_nan s2 = false ->
  klt s1 k1 s2 k2 = false -> keq s1 k1 s2 k2 = false -> klt s2 k2 s1 k1 = true.
Proof.
  unfold klt, keq. intros N1 N2.
  rewrite !orb_false_iff, !andb_false_iff, orb_true_iff, andb_true_iff.
  intros [L H1] H2.
  destruct (f64_eq s1 s2) eqn:E.
  - right. split; [by apply f64_eq_sym|].
    destruct H1 as [|H1]; [done|]. destruct H2 as [|H2]; [done|].
    apply Z.ltb_ge in H1. apply Z.ltb_lt. rewrite bytes_Compare_antisym.
    assert (bytes_Compare k1 k2 <> 0); [|lia].
    rewrite bytes_Compare_eq. intros ->.
    by rewrite (proj2 (bytes_Equal_eq k2 k2) eq_refl) in H2.
  - left. by apply f64_total.
Qed.

Lemma keq_klt_l s1 k1 s2 k2 s3 k3 :
  keq s1 k1 s2 k2 = true -> klt s1 k1 s3 k3 = klt s2 k2 s3 k3.
Proof.
  unfold keq, klt. rewrite andb_true_iff, bytes_Equal_eq. intros [E ->].
  by rewrite (f64_eq_lt_l _ _ s3 E), (f64_eq_eq_l _ _ s3 E).
Qed.

Lemma keq_klt_r s1 k1 s2 k2 s3 k3 :
  keq s1 k1 s2 k2 = true -> klt s3 k3 s1 k1 = klt s3 k3 s2 k2.
Proof.
  unfold keq, klt. rewrite andb_true_iff, bytes_Equal_eq. intros [E ->].
  by rewrite (f64_eq_lt_r _ _ s3 E), (f64_eq_eq_r _ _ s3 E).
Qed.

Lemma keq_not_klt s1 k1 s2 k2 : keq s1 k1 s2 k2 = true -> klt s1 k1 s2 k2 = false.
Proof.
  intros H. rewrite (keq_klt_l _ _ _ _ _ _ H).  apply klt_irrefl.
Qed.

Lemma precedes_klt score key e :
  precedes score key e = klt (Score e) (Key e) score key.
Proof. reflexivity. Qed.

Lemma matches_keq score key e :
  matches score key e = keq (Score e) (Key e) score key.
Proof. reflexivity. Qed.

(** ** Reading and writing the arena *)

Lemma same_static_refl m : same_static m m.
Proof. split; [done|]. intros p e H. exists e. auto. Qed.

Lemma same_static_trans m1 m2 m3 :
  same_static m1 m2 -> same_static m2 m3 -> same_static m1 m3.
Proof.
  intros [L1 H1] [L2 H2]. split; [congruence|].
  intros p e H. destruct (H1 p e H) as (e' & H' & ? & ? & ? & ?).
  destruct (H2 p e' H') as (e'' & H'' & ? & ? & ? & ?).
  exists e''. repeat split; congruence.
Qed.

Lemma set_Next_static m p i v m' :
  set_Next m p i v = Some m' -> same_static m m'.
Proof.
  unfold set_Next. intros H.
  destruct (m !! p) as [e|] eqn:E; simpl in H; [|done].
  case_decide; [|done]. injection H as <-. split; [by rewrite length_insert|].
  intros q e' Hq. destruct (decide (q = p)) as [->|Hne].
  - rewrite list_lookup_insert_eq by (eapply lookup_lt_Some; eassumption).
    eexists; split; [done|]. assert (e' = e) as -> by congruence. simpl. by rewrite length_insert.
  - rewrite list_lookup_insert_ne by done. eauto 10.
Qed.

Lemma set_Prev_static m p v m' :
  set_Prev m p v = Some m' -> same_static m m'.
Proof.
  unfold set_Prev. intros H.
  destruct (m !! p) as [e|] eqn:E; simpl in H; [|done].
  injection H as <-. split; [by rewrite length_insert|].
  intros q e' Hq. destruct (decide (q = p)) as [->|Hne].
  - rewrite list_lookup_insert_eq by (eapply lookup_lt_Some; eassumption).
    eexists; split; [done|]. by assert (e' = e) as -> by congruence.
  - rewrite list_lookup_insert_ne by done. eauto 10.
Qed.

Lemma get_Next_set_Next m p i v m' q j :
  set_Next m p i v = Some m' ->
  get_Next m' q j = if decide (q = p /\ j = i) then Some v else get_Next m q j.
Proof.
  unfold set_Next, get_Next. intros H.
  destruct (m !! p) as [e|] eqn:E; simpl in H; [|done].
  case_decide as Hi; [|done]. injection H as <-.
  destruct (decide (q = p)) as [->|Hne].
  - rewrite list_lookup_insert_eq by (eapply lookup_lt_Some; eassumption). simpl.
    rewrite E. simpl. destruct (decide (j = i)) as [->|Hj].
    + rewrite decide_True by done. by rewrite list_lookup_insert_eq.
    + rewrite decide_False by naive_solver. by rewrite list_lookup_insert_ne.
  - rewrite list_lookup_insert_ne by done. by rewrite decide_False by naive_solver.
Qed.

Lemma get_Next_set_Prev m p v m' q j :
  set_Prev m p v = Some m' -> get_Next m' q j = get_Next m q j.
Proof.
  unfold set_Prev, get_Next. intros H.
  destruct (m !! p) as [e|] eqn:E; simpl in H; [|done].
  injection H as <-.
  destruct (decide (q = p)) as [->|Hne].
  - rewrite list_lookup_insert_eq by (eapply lookup_lt_Some; eassumption). by rewrite E.
  - by rewrite list_lookup_insert_ne.
Qed.

Lemma get_Next_set_Value m p v m' q j :
  set_Value m p v = Some m' -> get_Next m' q j = get_Next m q j.
Proof.
  unfold set_Value, get_Next. intros H.
  destruct (m !! p) as [e|] eqn:E; simpl in H; [|done].
  injection H as <-.
  destruct (decide (q = p)) as [->|Hne].
  - rewrite list_lookup_insert_eq by (eapply lookup_lt_Some; eassumption). by rewrite E.
  - by rewrite list_lookup_insert_ne.
Qed.

Lemma set_Next_is_Some m p i v e :
  m !! p = Some e -> (i < length (Next e))%nat -> is_Some (set_Next m p i v).
Proof. unfold set_Next. intros -> H. simpl. rewrite decide_True by done. eauto. Qed.

Lemma get_Next_is_Some m p i e :
  m !! p = Some e -> (i < length (Next e))%nat -> is_Some (get_Next m p i).
Proof. unfold get_Next. intros -> H. simpl. by apply lookup_lt_is_Some. Qed.

Lemma agrees_static m m' nd : same_static m m' -> agrees m nd -> agrees m' nd.
Proof.
  intros [_ H] (e & He & ? & ? & ? & ?). destruct (H _ _ He) as (e' & ? & ? & ? & ? & ?).
  exists e'. repeat split; congruence.
Qed.

Lemma linked_ext m m' i x rest :
  (forall p, p ∈ x :: rest -> get_Next m' p i = get_Next m p i) ->
  linked m i x rest -> linked m' i x rest.
Proof.
  revert x. induction rest as [|y rest IH]; intros x Hext; simpl.
  - intros <-. apply Hext. set_solver.
  - intros [H1 H2]. split.
    + rewrite <- H1. apply Hext. set_solver.
    + apply IH; [|done]. intros p Hp. apply Hext. set_solver.
Qed.

Lemma lastd_nil {A} (d : A) : lastd d [] = d.
Proof. done. Qed.

Lemma lastd_cons {A} (d x : A) l : lastd d (x :: l) = lastd x l.
Proof. unfold lastd. rewrite last_cons. by destruct (last l). Qed.

Lemma lastd_app {A} (d : A) l1 l2 : lastd d (l1 ++ l2) = lastd (lastd d l1) l2.
Proof. unfold lastd. rewrite last_app. by destruct (last l2). Qed.

Lemma lastd_elem_of {A} (d : A) l : lastd d l ∈ d :: l.
Proof.
  unfold lastd. destruct (last l) as [x|] eqn:E; simpl; [|set_solver].
  apply last_Some_elem_of in E. set_solver.
Qed.

Lemma linked_app m i x a b :
  linked m i x (a ++ b) -> linked m i (lastd x a) b.
Proof.
  revert x. induction a as [|y a IH]; intros x; simpl; [done|].
  intros [_ H]. rewrite lastd_cons. by apply IH.
Qed.

Lemma linked_next m i x rest :
  linked m i x rest -> get_Next m x i = Some (head rest).
Proof. destruct rest; simpl; naive_solver. Qed.

(** ** The downward walk *)

Lemma walk_level_spec m adv i r1 r2 x fuel :
  linked m i x (r1 ++ r2) ->
  Forall (fun p => exists e, m !! p = Some e /\ adv e = true) r1 ->
  (forall y, head r2 = Some y -> exists e, m !! y = Some e /\ adv e = false) ->
  (length r1 < fuel)%nat ->
  walk_level fuel m adv i x = Some (lastd x r1).
Proof.
  revert x fuel. induction r1 as [|y r1 IH]; intros x fuel Hl Hadv Hstop Hfuel.
  - destruct fuel as [|fuel]; [simpl in Hfuel; lia|]. simpl in *.
    rewrite (linked_next _ _ _ _ Hl). simpl.
    destruct (head r2) as [y|] eqn:E; [|done].
    destruct (Hstop y eq_refl) as (e & He & Ha). rewrite He. simpl. by rewrite Ha.
  - destruct fuel as [|fuel]; [simpl in Hfuel; lia|]. simpl in Hl, Hfuel.
    destruct Hl as [Hx Hl]. apply Forall_cons in Hadv as [(e & He & Ha) Hadv].
    cbn [walk_level]. rewrite Hx. simpl. rewrite He. simpl. rewrite Ha.
    rewrite lastd_cons. apply IH; auto with lia.
Qed.

(** The nodes of level [i] among [l1] are those of level [S i], after
    the last of which come nodes of level [i] only. *)
Lemma at_level_split i l1 (d : ptr) :
  exists a r, at_level i l1 = a ++ r /\ lastd d a = lastd d (at_level (S i) l1) /\
              r ⊆ at_level i l1.
Proof.
  induction l1 as [|z l0 IH] using rev_ind.
  - exists [], []. done.
  - destruct IH as (a & r & E & La & Hr). unfold at_level in *.
    rewrite !filter_app, !fmap_app.
    destruct (decide (S i < n_height z)%nat) as [Hz|Hz].
    + exists ((n_ptr <$> filter (fun nd => i < n_height nd)%nat l0) ++ [n_ptr z]), [].
      rewrite !filter_cons_True by (simpl; lia). rewrite !filter_nil. simpl.
      rewrite app_nil_r, !lastd_app. split; [done|]. split; [done|]. set_solver.
    + exists a, (r ++ (n_ptr <$> filter (fun nd => i < n_height nd)%nat [z])).
      rewrite (filter_cons_False (fun nd => S i < n_height nd)%nat z []) by done.
      simpl. rewrite app_nil_r, E, app_assoc. split; [done|]. split; [done|].
      set_solver.
Qed.

Lemma at_level_app i l1 l2 : at_level i (l1 ++ l2) = at_level i l1 ++ at_level i l2.
Proof. unfold at_level. by rewrite filter_app, fmap_app. Qed.

Lemma at_level_elem_of i l p :
  p ∈ at_level i l <-> exists nd, nd ∈ l /\ n_ptr nd = p /\ (i < n_height nd)%nat.
Proof.
  unfold at_level. rewrite list_elem_of_fmap. setoid_rewrite list_elem_of_filter.
  naive_solver.
Qed.

Lemma at_level_subseteq i l : at_level i l ⊆ n_ptr <$> l.
Proof.
  intros p (nd & ? & ? & ?)%at_level_elem_of. apply list_elem_of_fmap. eauto.
Qed.

Lemma at_level_nil_ge i l :
  Forall (fun nd => n_height nd <= i)%nat l -> at_level i l = [].
Proof.
  intros H. unfold at_level. induction H as [|nd l Hn _ IH]; [done|].
  rewrite filter_cons_False by lia. done.
Qed.

Lemma at_level_0 l :
  Forall (fun nd => 1 <= n_height nd)%nat l -> at_level 0 l = n_ptr <$> l.
Proof.
  intros H. unfold at_level. induction H as [|nd l Hn _ IH]; [done|].
  rewrite filter_cons_True by lia. simpl. by f_equal.
Qed.

Lemma NoDup_at_level i l : NoDup (n_ptr <$> l) -> NoDup (at_level i l).
Proof.
  unfold at_level. induction l as [|nd l IH]; simpl; [constructor|].
  rewrite NoDup_cons. intros [Hn Hl]. rewrite filter_cons.
  case_decide; simpl; auto. apply NoDup_cons. split; auto.
  intros Hin. apply Hn. by apply (at_level_subseteq i l).
Qed.

(** No more distinct addresses than cells. *)
Lemma ptrs_length (ps : list ptr) n :
  NoDup ps -> Forall (fun p => p < n)%nat ps -> (length ps <= n)%nat.
Proof.
  intros Hnd Hlt. assert (ps ⊆+ seq 0 n) as H.
  { apply NoDup_submseteq; [done|]. intros p Hp. apply elem_of_seq.
    rewrite Forall_forall in Hlt. specialize (Hlt p Hp). lia. }
  apply submseteq_length in H. by rewrite length_seq in H.
Qed.

Section Walk.
Context (sl : SkipList) (l l1 l2 : list node) (f : float64 -> bytes -> bool).
Hypothesis Hinv : skiplist_inv sl l.
Hypothesis Hl : l = l1 ++ l2.
Hypothesis Hbelow : Forall (fun nd => f (n_score nd) (n_key nd) = true) l1.
Hypothesis Hstop : Forall (fun nd => f (n_score nd) (n_key nd) = false) l2.

Let m := sl_mem sl.
Let hd := sl_head sl.
Let adv := fun e : Element => f (Score e) (Key e).

Lemma node_lookup nd :
  nd ∈ l -> exists e, m !! n_ptr nd = Some e /\ Key e = n_key nd /\
                      Value e = n_val nd /\ Score e = n_score nd /\
                      length (Next e) = n_height nd.
Proof.
  intros Hin. pose proof (inv_agree _ _ Hinv) as Ha.
  rewrite Forall_forall in Ha. exact (Ha nd Hin).
Qed.

Lemma at_level_lt i : Forall (fun p => p < length m)%nat (at_level i l).
Proof.
  apply Forall_forall. intros p (nd & Hin & <- & _)%at_level_elem_of.
  destruct (node_lookup nd Hin) as (e & He & _). by eapply lookup_lt_Some.
Qed.

Lemma at_level_length i : (length (at_level i l) <= length m)%nat.
Proof.
  apply ptrs_length; [|apply at_level_lt]. apply NoDup_at_level.
  pose proof (inv_nodup _ _ Hinv) as Hnd. by apply NoDup_cons in Hnd as [_ ?].
Qed.

Lemma pred_at_top i : (sl_level sl <= i)%nat -> pred_at hd l1 i = hd.
Proof.
  intros Hi. unfold pred_at. rewrite at_level_nil_ge; [done|].
  pose proof (inv_heights _ _ Hinv) as Hh. rewrite Hl in Hh.
  apply Forall_app in Hh as [Hh _]. eapply Forall_impl; [exact Hh|].
  simpl. intros; lia.
Qed.

Lemma linked_pred i :
  (i < MaxLevel)%nat -> linked m i (pred_at hd l1 i) (at_level i l2).
Proof.
  intros Hi. pose proof (inv_links _ _ Hinv i Hi) as Hk.
  rewrite Hl, at_level_app in Hk. by apply linked_app in Hk.
Qed.

Lemma walk_level_pred i :
  (i < MaxLevel)%nat ->
  walk_level (S (length m)) m adv i (pred_at hd l1 (S i)) = Some (pred_at hd l1 i).
Proof.
  intros Hi. pose proof (inv_links _ _ Hinv i Hi) as Hk.
  rewrite Hl, at_level_app in Hk.
  destruct (at_level_split i l1 hd) as (a & r & E & La & Hr).
  rewrite E, <- app_assoc in Hk. apply linked_app in Hk.
  unfold pred_at. rewrite <- La, E, lastd_app.
  apply walk_level_spec with (r2 := at_level i l2); [done| | |].
  - apply Forall_forall. intros p Hp. apply Hr in Hp.
    apply at_level_elem_of in Hp as (nd & Hin & <- & _).
    destruct (node_lookup nd) as (e & He & Hk' & _ & Hs & _); [set_solver|].
    exists e. split; [done|]. unfold adv. rewrite Hk', Hs.
    rewrite Forall_forall in Hbelow. by apply Hbelow.
  - intros y Hy. apply head_Some_elem_of in Hy.
    apply at_level_elem_of in Hy as (nd & Hin & <- & _).
    destruct (node_lookup nd) as (e & He & Hk' & _ & Hs & _); [set_solver|].
    exists e. split; [done|]. unfold adv. rewrite Hk', Hs.
    rewrite Forall_forall in Hstop. by apply Hstop.
  - pose proof (at_level_length i) as Hlen.
    rewrite Hl, at_level_app, E, !length_app in Hlen. lia.
Qed.

Lemma walk_down_spec n upd :
  (n <= MaxLevel)%nat -> length upd = MaxLevel ->
  exists upd',
    walk_down m adv n (pred_at hd l1 n) upd = Some (pred_at hd l1 0, upd') /\
    length upd' = MaxLevel /\
    (forall i, (i < n)%nat -> upd' !! i = Some (Some (pred_at hd l1 i))) /\
    (forall i, (n <= i)%nat -> upd' !! i = upd !! i).
Proof.
  revert upd. induction n as [|i IH]; intros upd Hn Hlen.
  - exists upd. simpl. repeat split; auto. intros; lia.
  - cbn [walk_down]. rewrite walk_level_pred by lia. simpl.
    unfold store_at. rewrite decide_True by lia. simpl.
    destruct (IH (<[i := Some (pred_at hd l1 i)]> upd)) as (upd' & -> & L & Hlo & Hhi);
      [lia|by rewrite length_insert|].
    exists upd'. repeat split; auto.
    + intros j Hj. destruct (decide (j = i)) as [->|Hne].
      * rewrite Hhi by lia. apply list_lookup_insert_eq. lia.
      * apply Hlo. lia.
    + intros j Hj. rewrite Hhi by lia. apply list_lookup_insert_ne. lia.
Qed.

Lemma seek_spec n :
  (n <= MaxLevel)%nat -> seek m adv n (pred_at hd l1 n) = Some (pred_at hd l1 0).
Proof.
  induction n as [|i IH]; intros Hn; [done|].
  cbn [seek]. rewrite walk_level_pred by lia. simpl. apply IH. lia.
Qed.

(** What the walk reports: the node before the first one it stops on. *)
Lemma next_after_walk :
  get_Next m (pred_at hd l1 0) 0 = Some (n_ptr <$> head l2).
Proof.
  pose proof (inv_level _ _ Hinv) as Hlv.
  assert (0 < MaxLevel)%nat as H0 by (unfold MaxLevel; lia).
  rewrite (linked_next _ _ _ _ (linked_pred 0 H0)). f_equal.
  rewrite at_level_0; [by destruct l2|].
  pose proof (inv_heights _ _ Hinv) as Hh. rewrite Hl in Hh.
  apply Forall_app in Hh as [_ Hh]. eapply Forall_impl; [exact Hh|].
  simpl. intros; lia.
Qed.
End Walk.

(** ** Where a target falls in a sorted list *)

Lemma sorted_split (f : node -> bool) l :
  StronglySorted node_lt l ->
  (forall a b, node_lt a b -> f b = true -> f a = true) ->
  exists l1 l2, l = l1 ++ l2 /\ Forall (fun nd => f nd = true) l1 /\
                Forall (fun nd => f nd = false) l2.
Proof.
  intros Hs Hmono. induction l as [|nd l IH].
  - exists [], []. auto.
  - apply StronglySorted_cons in Hs as [Hnd Hs].
    destruct (f nd) eqn:E.
    + destruct (IH Hs) as (l1 & l2 & -> & H1 & H2).
      exists (nd :: l1), l2. auto.
    + exists [], (nd :: l). repeat split; auto. constructor; [done|].
      eapply Forall_impl; [exact Hnd|]. simpl. intros b Hb.
      destruct (f b) eqn:Eb; [|done]. by rewrite (Hmono _ _ Hb Eb) in E.
Qed.

Lemma split_at_target score key l :
  StronglySorted node_lt l ->
  exists l1 l2, l = l1 ++ l2 /\
    Forall (fun nd => below score key nd = true) l1 /\
    Forall (fun nd => below score key nd = false) l2 /\
    (forall nd, nd ∈ l -> hits score key nd = true -> head l2 = Some nd).
Proof.
  intros Hs.
  destruct (sorted_split (below score key) l Hs) as (l1 & l2 & -> & H1 & H2).
  { unfold below, node_lt. intros a b. apply klt_trans. }
  exists l1, l2. repeat split; auto.
  intros nd Hin Hhit. pose proof (keq_not_klt _ _ _ _ Hhit) as Hnb.
  apply elem_of_app in Hin as [Hin|Hin].
  { rewrite Forall_forall in H1. apply H1 in Hin. unfold below in Hin. congruence. }
  apply StronglySorted_app_1_r in Hs.
  destruct l2 as [|z l2]; [by apply elem_of_nil in Hin|]. simpl. f_equal.
  apply elem_of_cons in Hin as [->|Hin]; [done|].
  apply StronglySorted_cons in Hs as [Hz _]. rewrite Forall_forall in Hz.
  specialize (Hz nd Hin). unfold node_lt in Hz.
  rewrite (keq_klt_r _ _ _ _ _ _ Hhit) in Hz.
  apply Forall_cons in H2 as [H2 _]. unfold below in H2. congruence.
Qed.

(** A target that is not NaN and is not in the list is below everything
    the walk stopped before. *)
Lemma above_target score key l2 :
  is_nan score = false ->
  StronglySorted node_lt l2 ->
  Forall (fun nd => is_nan (n_score nd) = false) l2 ->
  Forall (fun nd => below score key nd = false) l2 ->
  (forall nd, head l2 = Some nd -> hits score key nd = false) ->
  Forall (fun nd => klt score key (n_score nd) (n_key nd) = true) l2.
Proof.
  intros Hn Hs Hnn Hb Hh. destruct l2 as [|z l2]; [constructor|].
  apply StronglySorted_cons in Hs as [Hz _].
  apply Forall_cons in Hnn as [Hzn _]. apply Forall_cons in Hb as [Hzb _].
  assert (klt score key (n_score z) (n_key z) = true) as Hlt.
  { apply klt_total; auto. by apply Hh. }
  constructor; [done|]. eapply Forall_impl; [exact Hz|]. simpl.
  intros b Hb. eapply klt_trans; [exact Hlt|exact Hb].
Qed.

(** ** Search *)

Lemma Search_found sl l key score nd :
  skiplist_inv sl l -> nd ∈ l -> hits score key nd = true ->
  SkipList_Search sl key score = Some (Some (n_ptr nd)).
Proof.
  intros Hinv Hin Hhit.
  destruct (split_at_target score key l (inv_sorted _ _ Hinv))
    as (l1 & l2 & Hl & H1 & H2 & Hfirst).
  unfold SkipList_Search.
  rewrite <- (pred_at_top sl l l1 l2 Hinv Hl (sl_level sl)) at 1 by done.
  change (precedes score key) with (fun e => klt (Score e) (Key e) score key).
  rewrite (seek_spec sl l l1 l2 (fun s k => klt s k score key) Hinv Hl H1 H2)
    by apply (inv_level _ _ Hinv).
  simpl.
  rewrite (next_after_walk sl l l1 l2 (fun s k => klt s k score key) Hinv Hl H2).
  simpl. rewrite (Hfirst nd Hin Hhit). simpl.
  destruct (node_lookup sl l Hinv nd Hin) as (e & -> & Hk & _ & Hs & _). simpl.
  unfold hits, keq in Hhit. by rewrite Hk, Hs, Hhit.
Qed.

Lemma Search_absent sl l key score :
  skiplist_inv sl l -> Forall (fun nd => hits score key nd = false) l ->
  SkipList_Search sl key score = Some None.
Proof.
  intros Hinv Hno.
  destruct (split_at_target score key l (inv_sorted _ _ Hinv))
    as (l1 & l2 & Hl & H1 & H2 & Hfirst).
  unfold SkipList_Search.
  rewrite <- (pred_at_top sl l l1 l2 Hinv Hl (sl_level sl)) at 1 by done.
  change (precedes score key) with (fun e => klt (Score e) (Key e) score key).
  rewrite (seek_spec sl l l1 l2 (fun s k => klt s k score key) Hinv Hl H1 H2)
    by apply (inv_level _ _ Hinv).
  simpl.
  rewrite (next_after_walk sl l l1 l2 (fun s k => klt s k score key) Hinv Hl H2).
  simpl. destruct l2 as [|z l2]; [done|]. simpl.
  assert (z ∈ l) as Hin by (rewrite Hl; set_solver).
  destruct (node_lookup sl l Hinv z Hin) as (e & -> & Hk & _ & Hs & _). simpl.
  rewrite Forall_forall in Hno. specialize (Hno z Hin).
  unfold hits, keq in Hno. by rewrite Hk, Hs, Hno.
Qed.

(** ** randomLevel *)

Lemma randomLevel_loop_bounds fuel r level :
  (1 <= level <= MaxLevel)%nat ->
  (1 <= fst (randomLevel_loop fuel r level) <= MaxLevel)%nat.
Proof.
  revert r level. induction fuel as [|fuel IH]; intros r level H; simpl; [done|].
  destruct (level <? MaxLevel)%nat eqn:E; [|done].
  apply Nat.ltb_lt in E. destruct (rand_below r (rand_pos r)); [|done].
  apply IH. lia.
Qed.

Lemma randomLevel_bounds r : (1 <= fst (randomLevel r) <= MaxLevel)%nat.
Proof. apply randomLevel_loop_bounds. unfold MaxLevel. lia. Qed.

(** ** Splicing a new element in *)

Lemma at_level_cons i nd l :
  at_level i (nd :: l) =
  if decide (i < n_height nd)%nat then n_ptr nd :: at_level i l else at_level i l.
Proof. unfold at_level. rewrite filter_cons. by case_decide. Qed.

Lemma static_slot m m' p j :
  same_static m m' ->
  (exists e, m !! p = Some e /\ (j < length (Next e))%nat) ->
  exists e', m' !! p = Some e' /\ (j < length (Next e'))%nat.
Proof.
  intros [_ H] (e & He & Hj). destruct (H _ _ He) as (e' & He' & _ & _ & _ & Hn).
  exists e'. split; [done|]. lia.
Qed.

Lemma splice_spec upd n (u : nat -> ptr) k :
  forall i m,
  (forall j, (i <= j < i + k)%nat -> upd !! j = Some (Some (u j))) ->
  (forall j, (i <= j < i + k)%nat ->
     u j <> n /\ exists e, m !! u j = Some e /\ (j < length (Next e))%nat) ->
  (exists en, m !! n = Some en /\ (i + k <= length (Next en))%nat) ->
  exists m', splice k i upd n m = Some m' /\ same_static m m' /\
    forall p j, get_Next m' p j =
      if decide (i <= j < i + k)%nat then
        if decide (p = n) then get_Next m (u j) j
        else if decide (p = u j) then Some (Some n) else get_Next m p j
      else get_Next m p j.
Proof.
  induction k as [|k IH]; intros i m Hupd Hu Hn.
  - exists m. split; [done|]. split; [apply same_static_refl|].
    intros p j. rewrite decide_False by lia. done.
  - cbn [splice]. rewrite (Hupd i) by lia. simpl.
    destruct (Hu i) as [Hne (eu & Heu & Hslot)]; [lia|].
    destruct (get_Next_is_Some m (u i) i eu Heu Hslot) as [nx Hnx].
    rewrite Hnx. simpl.
    destruct Hn as (en & Hen & Hnlen).
    destruct (set_Next_is_Some m n i nx en Hen) as [m1 Hm1]; [lia|].
    rewrite Hm1. simpl.
    pose proof (set_Next_static _ _ _ _ _ Hm1) as S1.
    destruct (static_slot m m1 (u i) i S1) as (eu1 & Heu1 & Hslot1); [eauto|].
    destruct (set_Next_is_Some m1 (u i) i (Some n) eu1 Heu1 Hslot1) as [m2 Hm2].
    rewrite Hm2. simpl.
    pose proof (set_Next_static _ _ _ _ _ Hm2) as S2.
    pose proof (same_static_trans _ _ _ S1 S2) as S12.
    destruct (IH (S i) m2) as (m' & Hm' & S' & Hget).
    { intros j Hj. apply Hupd. lia. }
    { intros j Hj. destruct (Hu j) as [? Hs]; [lia|]. split; [done|].
      by apply (static_slot m m2). }
    { destruct (static_slot m m2 n (i + k) S12) as (en' & ? & ?); [exists en; split; [done|lia]|].
      exists en'. split; [done|lia]. }
    exists m'. split; [done|]. split; [by eapply same_static_trans|].
    intros p j. rewrite Hget.
    rewrite !(get_Next_set_Next _ _ _ _ _ _ _ Hm2), !(get_Next_set_Next _ _ _ _ _ _ _ Hm1).
    destruct (decide (j = i)) as [->|Hji].
    + rewrite (decide_False (P := (S i <= i < S i + k)%nat)) by lia.
      rewrite (decide_True (P := (i <= i < i + S k)%nat)) by lia.
      destruct (decide (p = n)) as [->|Hpn].
      * rewrite decide_False by (intros [? _]; congruence).
        rewrite decide_True by done. done.
      * destruct (decide (p = u i)) as [->|Hpu].
        -- by rewrite decide_True.
        -- rewrite decide_False by (intros [? _]; congruence).
           by rewrite decide_False by (intros [? _]; congruence).
    + destruct (decide (S i <= j < S i + k)%nat) as [Hj|Hj].
      * rewrite (decide_True (P := (i <= j < i + S k)%nat)) by lia.
        destruct (decide (p = n)) as [->|Hpn].
        -- rewrite decide_False by (intros [_ ?]; congruence).
           by rewrite decide_False by (intros [_ ?]; congruence).
        -- destruct (decide (p = u j)) as [->|Hpu]; [done|].
           rewrite decide_False by (intros [_ ?]; congruence).
           by rewrite decide_False by (intros [_ ?]; congruence).
      * rewrite (decide_False (P := (i <= j < i + S k)%nat)) by lia.
        rewrite decide_False by (intros [_ ?]; congruence).
        by rewrite decide_False by (intros [_ ?]; congruence).
Qed.

Lemma linked_insert m m' i n a1 a2 :
  forall x,
  linked m i x (a1 ++ a2) ->
  NoDup (x :: a1 ++ a2) ->
  get_Next m' (lastd x a1) i = Some (Some n) ->
  get_Next m' n i = get_Next m (lastd x a1) i ->
  (forall p, p ∈ x :: a1 ++ a2 -> p <> lastd x a1 ->
     get_Next m' p i = get_Next m p i) ->
  linked m' i x (a1 ++ n :: a2).
Proof.
  induction a1 as [|y a1 IH]; intros x Hl Hnd Hu Hn Hother.
  - simpl in *. rewrite lastd_nil in *. split; [done|].
    apply NoDup_cons in Hnd as [Hx Hnd].
    destruct a2 as [|z a2]; simpl in *.
    + by rewrite Hn.
    + destruct Hl as [Hxz Hl]. split; [by rewrite Hn|].
      apply (linked_ext m); [|done]. intros p Hp. apply Hother; [set_solver|].
      intros ->. done.
  - simpl in Hl. destruct Hl as [Hxy Hl]. rewrite lastd_cons in *.
    apply NoDup_cons in Hnd as [Hx Hnd]. simpl. split.
    + rewrite <- Hxy. apply Hother; [set_solver|]. intros ->.
      apply Hx. pose proof (lastd_elem_of y a1). set_solver.
    + apply IH; auto. intros p Hp Hne. apply Hother; [set_solver|done].
Qed.

(** ** Insert on a pair that is in the list *)

Lemma NoDup_ptrs_mid (hd : ptr) l1 nd l2 :
  NoDup (hd :: (n_ptr <$> l1 ++ nd :: l2)) ->
  hd <> n_ptr nd /\ (forall x, x ∈ l1 ++ l2 -> n_ptr x <> n_ptr nd).
Proof.
  rewrite fmap_app, fmap_cons. intros [Hhd Hnd]%NoDup_cons.
  apply NoDup_app in Hnd as (_ & Hd & [Hn _]%NoDup_cons). split.
  - intros ->. apply Hhd. set_solver.
  - intros x [Hx|Hx]%elem_of_app Heq.
    + apply (Hd (n_ptr nd)); [|set_solver]. rewrite <- Heq.
      apply list_elem_of_fmap. eauto.
    + apply Hn. rewrite <- Heq. apply list_elem_of_fmap. eauto.
Qed.

Lemma inv_set_Value sl l1 nd l2 e value :
  skiplist_inv sl (l1 ++ nd :: l2) ->
  sl_mem sl !! n_ptr nd = Some e ->
  skiplist_inv
    {| sl_head := sl_head sl; sl_tail := sl_tail sl; sl_length := sl_length sl;
       sl_level := sl_level sl; sl_rand := sl_rand sl;
       sl_mem := <[n_ptr nd := with_Value e value]> (sl_mem sl) |}
    (l1 ++ node_set_val value nd :: l2).
Proof.
  intros Hinv He. destruct Hinv as [Hhd Hag Hnd Hso Hnn Hhe Hlv Hli Hlen].
  destruct (NoDup_ptrs_mid _ _ _ _ Hnd) as [Hne Hothers].
  assert (set_Value (sl_mem sl) (n_ptr nd) value
          = Some (<[n_ptr nd := with_Value e value]> (sl_mem sl))) as Hset.
  { unfold set_Value. by rewrite He. }
  constructor; simpl.
  - destruct Hhd as (eh & Heh & Hl). exists eh.
    by rewrite list_lookup_insert_ne.
  - apply Forall_app in Hag as [H1 [Hn H2]%Forall_cons].
    assert (forall x, x ∈ l1 ++ l2 -> agrees (sl_mem sl) x ->
              agrees (<[n_ptr nd := with_Value e value]> (sl_mem sl)) x) as Hkeep.
    { intros x Hx (ex & Hex & ?). exists ex.
      rewrite list_lookup_insert_ne by (intros Heq; by apply (Hothers x)). done. }
    apply Forall_app. split; [|constructor].
    + apply Forall_forall. intros x Hx. apply Hkeep; [set_solver|].
      rewrite Forall_forall in H1. auto.
    + destruct Hn as (e' & He' & Hk & Hv & Hs & Hh).
      assert (e' = e) as -> by congruence.
      exists (with_Value e value).
      rewrite list_lookup_insert_eq by (eapply lookup_lt_Some; eassumption). done.
    + apply Forall_forall. intros x Hx. apply Hkeep; [set_solver|].
      rewrite Forall_forall in H2. auto.
  - by rewrite fmap_app, fmap_cons in *.
  - apply StronglySorted_app in Hso as (Hc & S1 & [Hn S2]%StronglySorted_cons).
    apply StronglySorted_app. split; [|split; [done|]].
    + intros x1 x2 Hx1 [->|Hx2]%elem_of_cons.
      * apply (Hc x1 nd); set_solver.
      * apply Hc; set_solver.
    + apply StronglySorted_cons. split; [|done]. exact Hn.
  - apply Forall_app in Hnn as [H1 [Hn H2]%Forall_cons].
    apply Forall_app. split; [done|]. by constructor.
  - apply Forall_app in Hhe as [H1 [Hn H2]%Forall_cons].
    apply Forall_app. split; [done|]. by constructor.
  - done.
  - intros i Hi. specialize (Hli i Hi).
    rewrite at_level_app, at_level_cons in *. simpl.
    apply (linked_ext (sl_mem sl)); [|done].
    intros p _. by apply (get_Next_set_Value _ _ _ _ _ _ Hset).
  - by rewrite length_app in *.
Qed.

Lemma walk_for_target sl l l1 l2 score key :
  skiplist_inv sl l -> l = l1 ++ l2 ->
  Forall (fun nd => below score key nd = true) l1 ->
  Forall (fun nd => below score key nd = false) l2 ->
  exists upd,
    walk_down (sl_mem sl) (precedes score key) (sl_level sl) (sl_head sl)
      (replicate MaxLevel None) = Some (pred_at (sl_head sl) l1 0, upd) /\
    length upd = MaxLevel /\
    (forall i, (i < sl_level sl)%nat ->
       upd !! i = Some (Some (pred_at (sl_head sl) l1 i))) /\
    (forall i, (sl_level sl <= i < MaxLevel)%nat -> upd !! i = Some None).
Proof.
  intros Hinv Hl H1 H2.
  destruct (walk_down_spec sl l l1 l2 (fun s k => klt s k score key) Hinv Hl H1 H2
              (sl_level sl) (replicate MaxLevel None))
    as (upd & Hw & Hlen & Hlo & Hhi).
  { apply (inv_level _ _ Hinv). }
  { apply length_replicate. }
  rewrite (pred_at_top sl l l1 l2 Hinv Hl (sl_level sl)) in Hw by done.
  exists upd. split; [exact Hw|]. split; [done|]. split; [done|].
  intros i Hi. rewrite Hhi by lia. apply lookup_replicate_2. lia.
Qed.

Lemma Insert_hit sl l1 nd l2 key value score :
  skiplist_inv sl (l1 ++ nd :: l2) ->
  Forall (fun nd => below score key nd = true) l1 ->
  Forall (fun nd => below score key nd = false) (nd :: l2) ->
  hits score key nd = true ->
  exists e, sl_mem sl !! n_ptr nd = Some e /\
    SkipList_Insert sl key value score =
      Some ({| sl_head := sl_head sl; sl_tail := sl_tail sl;
               sl_length := sl_length sl; sl_level := sl_level sl;
               sl_rand := sl_rand sl;
               sl_mem := <[n_ptr nd := with_Value e value]> (sl_mem sl) |},
            n_ptr nd).
Proof.
  intros Hinv H1 H2 Hhit.
  destruct (walk_for_target sl _ l1 (nd :: l2) score key Hinv eq_refl H1 H2)
    as (upd & Hw & _).
  destruct (node_lookup sl _ Hinv nd) as (e & He & Hk & _ & Hs & _); [set_solver|].
  exists e. split; [done|]. unfold SkipList_Insert. rewrite Hw. simpl.
  rewrite (next_after_walk sl _ l1 (nd :: l2) (fun s k => klt s k score key)
             Hinv eq_refl H2). simpl.
  rewrite He. simpl. unfold hits in Hhit. unfold matches. rewrite Hk, Hs.
  fold (keq (n_score nd) (n_key nd) score key). rewrite Hhit.
  unfold set_Value. rewrite He. done.
Qed.

(** ** Insert of a new pair *)

Lemma get_Next_app_l m k p i :
  (p < length m)%nat -> get_Next (m ++ k) p i = get_Next m p i.
Proof. intros H. unfold get_Next. by rewrite lookup_app_l. Qed.

Lemma agrees_app_l m k nd : agrees m nd -> agrees (m ++ k) nd.
Proof.
  intros (e & He & ?). exists e. split; [|done].
  rewrite lookup_app_l; [done|]. by eapply lookup_lt_Some.
Qed.

Lemma head_lt sl l : skiplist_inv sl l -> (sl_head sl < length (sl_mem sl))%nat.
Proof. intros [(eh & Heh & _) _ _ _ _ _ _ _ _]. by eapply lookup_lt_Some. Qed.

Lemma ptrs_lt sl l :
  skiplist_inv sl l -> Forall (fun p => p < length (sl_mem sl))%nat (n_ptr <$> l).
Proof.
  intros Hinv. apply Forall_forall. intros p (nd & -> & Hin)%list_elem_of_fmap.
  destruct (node_lookup sl l Hinv nd Hin) as (e & He & _). by eapply lookup_lt_Some.
Qed.

Lemma NoDup_head_at_level sl l i :
  skiplist_inv sl l -> NoDup (sl_head sl :: at_level i l).
Proof.
  intros Hinv. pose proof (inv_nodup _ _ Hinv) as [Hh Hn]%NoDup_cons.
  apply NoDup_cons. split; [|by apply NoDup_at_level].
  intros Hin. apply Hh. by apply (at_level_subseteq i l).
Qed.

Lemma pred_at_elem_of hd l1 i : pred_at hd l1 i ∈ hd :: at_level i l1.
Proof. apply lastd_elem_of. Qed.

Lemma pred_at_slot sl l l1 l2 j :
  skiplist_inv sl l -> l = l1 ++ l2 -> (j < MaxLevel)%nat ->
  exists e, sl_mem sl !! pred_at (sl_head sl) l1 j = Some e /\
            (j < length (Next e))%nat.
Proof.
  intros Hinv Hl Hj. pose proof (pred_at_elem_of (sl_head sl) l1 j) as Hin.
  apply elem_of_cons in Hin as [->|Hin].
  - destruct (inv_head _ _ Hinv) as (eh & Heh & Hlen). exists eh.
    split; [done|lia].
  - apply at_level_elem_of in Hin as (nd & Hnd & <- & Hh).
    destruct (node_lookup sl l Hinv nd) as (e & He & _ & _ & _ & Hlen).
    { rewrite Hl. set_solver. }
    exists e. split; [done|lia].
Qed.

Lemma pred_at_lt sl l l1 l2 j :
  skiplist_inv sl l -> l = l1 ++ l2 ->
  (pred_at (sl_head sl) l1 j < length (sl_mem sl))%nat.
Proof.
  intros Hinv Hl. pose proof (pred_at_elem_of (sl_head sl) l1 j) as Hin.
  apply elem_of_cons in Hin as [->|Hin]; [by eapply head_lt|].
  pose proof (ptrs_lt sl l Hinv) as Hlt. rewrite Forall_forall in Hlt.
  apply Hlt. apply (at_level_subseteq j). rewrite Hl, at_level_app. set_solver.
Qed.

Lemma inv_after_insert sl l1 l2 key value score lv tail' r' mf :
  skiplist_inv sl (l1 ++ l2) ->
  Forall (fun nd => below score key nd = true) l1 ->
  Forall (fun nd => klt score key (n_score nd) (n_key nd) = true) l2 ->
  is_nan score = false ->
  (1 <= lv <= MaxLevel)%nat ->
  same_static (sl_mem sl ++ [NewElement key value score lv]) mf ->
  (forall p j, get_Next mf p j =
     if decide (j < lv)%nat then
       if decide (p = length (sl_mem sl))
       then get_Next (sl_mem sl ++ [NewElement key value score lv])
              (pred_at (sl_head sl) l1 j) j
       else if decide (p = pred_at (sl_head sl) l1 j)
            then Some (Some (length (sl_mem sl)))
            else get_Next (sl_mem sl ++ [NewElement key value score lv]) p j
     else get_Next (sl_mem sl ++ [NewElement key value score lv]) p j) ->
  skiplist_inv
    {| sl_head := sl_head sl; sl_tail := tail'; sl_length := sl_length sl + 1;
       sl_level := if decide (sl_level sl < lv)%nat then lv else sl_level sl;
       sl_rand := r'; sl_mem := mf |}
    (l1 ++ mkNode (length (sl_mem sl)) key value score lv :: l2).
Proof.
  intros Hinv H1 H2 Hnan Hlv Hst Hget.
  set (n := length (sl_mem sl)) in *.
  set (m0 := sl_mem sl ++ [NewElement key value score lv]) in *.
  pose proof (head_lt _ _ Hinv) as Hhlt.
  pose proof (ptrs_lt _ _ Hinv) as Hplt. rewrite Forall_forall in Hplt.
  destruct Hinv as [Hhd Hag Hnd Hso Hnn Hhe Hlvl Hli Hlen].
  constructor; simpl.
  - destruct Hhd as (eh & Heh & Hl).
    destruct Hst as [_ Hst]. destruct (Hst (sl_head sl) eh) as (e' & He' & _ & _ & _ & Hl').
    { subst m0. by rewrite lookup_app_l. }
    exists e'. split; [done|congruence].
  - apply Forall_app in Hag as [Ha1 Ha2].
    apply Forall_app. split; [|constructor].
    + eapply Forall_impl; [exact Ha1|]. intros nd Hnd'. simpl.
      apply (agrees_static m0); [done|]. by apply agrees_app_l.
    + apply (agrees_static m0); [done|]. exists (NewElement key value score lv).
      simpl. split; [|by rewrite length_replicate].
      subst m0 n. by rewrite list_lookup_middle.
    + eapply Forall_impl; [exact Ha2|]. intros nd Hnd'. simpl.
      apply (agrees_static m0); [done|]. by apply agrees_app_l.
  - rewrite fmap_app, fmap_cons. simpl.
    assert (forall p, p ∈ sl_head sl :: (n_ptr <$> l1 ++ l2) -> p <> n) as Hfresh.
    { intros p [->|Hp]%elem_of_cons; [lia|]. specialize (Hplt p Hp). lia. }
    rewrite fmap_app in Hnd, Hfresh.
    apply NoDup_cons in Hnd as [Hh Hnd]. apply NoDup_app in Hnd as (N1 & Hd & N2).
    apply NoDup_cons. split.
    { intros [Hin|[Heq|Hin]%elem_of_cons]%elem_of_app.
      - apply Hh. set_solver.
      - apply (Hfresh (sl_head sl)); [set_solver|done].
      - apply Hh. set_solver. }
    apply NoDup_app. split; [done|]. split.
    { intros p Hp [->|Hin]%elem_of_cons.
      - apply (Hfresh n); [set_solver|done].
      - by apply (Hd p). }
    apply NoDup_cons. split; [|done]. intros Hin. apply (Hfresh n); [set_solver|done].
  - apply StronglySorted_app in Hso as (Hc & S1 & S2).
    apply StronglySorted_app. split; [|split; [done|]].
    + intros x1 x2 Hx1 [->|Hx2]%elem_of_cons.
      * rewrite Forall_forall in H1. apply (H1 x1 Hx1).
      * by apply Hc.
    + apply StronglySorted_cons. split; [|done]. exact H2.
  - apply Forall_app in Hnn as [N1 N2]. apply Forall_app. split; [done|].
    by constructor.
  - apply Forall_app in Hhe as [E1 E2].
    assert (forall nd, (1 <= n_height nd <= sl_level sl)%nat ->
              (1 <= n_height nd <= if decide (sl_level sl < lv)%nat then lv
                                   else sl_level sl)%nat) as Hmono.
    { intros nd ?. case_decide; lia. }
    apply Forall_app. split; [eapply Forall_impl; [exact E1|exact Hmono]|].
    constructor.
    + simpl. case_decide; lia.
    + eapply Forall_impl; [exact E2|exact Hmono].
  - case_decide; lia.
  - intros i Hi. specialize (Hli i Hi).
    rewrite at_level_app in Hli. rewrite at_level_app, at_level_cons. simpl.
    assert (NoDup (sl_head sl :: at_level i l1 ++ at_level i l2)) as Hnd'.
    { rewrite <- at_level_app. apply NoDup_cons. apply NoDup_cons in Hnd as [Hh Hnd].
      split; [|by apply NoDup_at_level]. intros Hin. apply Hh.
      by apply (at_level_subseteq i). }
    assert (forall p, p ∈ sl_head sl :: at_level i l1 ++ at_level i l2 ->
              (p < n)%nat) as Hold.
    { intros p [->|Hp]%elem_of_cons; [done|]. apply Hplt.
      rewrite <- at_level_app in Hp. by apply (at_level_subseteq i). }
    assert (linked m0 i (sl_head sl) (at_level i l1 ++ at_level i l2)) as Hl0.
    { apply (linked_ext (sl_mem sl)); [|done]. intros p Hp.
      apply get_Next_app_l. by apply Hold. }
    assert (pred_at (sl_head sl) l1 i < n)%nat as Hpl.
    { apply Hold. pose proof (pred_at_elem_of (sl_head sl) l1 i). set_solver. }
    destruct (decide (i < lv)%nat) as [Hil|Hil].
    + apply (linked_insert m0); [done|done| | |].
      * fold (pred_at (sl_head sl) l1 i). rewrite Hget.
        rewrite decide_True by done. rewrite decide_False by lia.
        by rewrite decide_True.
      * fold (pred_at (sl_head sl) l1 i). rewrite Hget.
        rewrite decide_True by done. by rewrite decide_True.
      * fold (pred_at (sl_head sl) l1 i). intros p Hp Hne. rewrite Hget.
        rewrite decide_True by done. specialize (Hold p Hp).
        rewrite decide_False by lia. by rewrite decide_False.
    + apply (linked_ext m0); [|done]. intros p Hp. rewrite Hget.
      by rewrite decide_False.
  - rewrite !length_app in *. simpl. lia.
Qed.

Lemma raise_update_spec k hd :
  forall i (upd : list (option ptr)),
  (i + k <= length upd)%nat ->
  exists upd', raise_update k i hd upd = Some upd' /\ length upd' = length upd /\
    (forall j, (i <= j < i + k)%nat -> upd' !! j = Some (Some hd)) /\
    (forall j, ~ (i <= j < i + k)%nat -> upd' !! j = upd !! j).
Proof.
  induction k as [|k IH]; intros i upd Hlen.
  - exists upd. simpl. repeat split; auto. intros; lia.
  - cbn [raise_update]. unfold store_at. rewrite decide_True by lia. simpl.
    destruct (IH (S i) (<[i := Some hd]> upd)) as (upd' & -> & L & Hin & Hout).
    { rewrite length_insert. lia. }
    exists upd'. rewrite length_insert in L. repeat split; auto.
    + intros j Hj. destruct (decide (j = i)) as [->|Hne].
      * rewrite Hout by lia. apply list_lookup_insert_eq. lia.
      * apply Hin. lia.
    + intros j Hj. rewrite Hout by lia. apply list_lookup_insert_ne. lia.
Qed.

Lemma Insert_miss sl l1 l2 key value score :
  skiplist_inv sl (l1 ++ l2) ->
  Forall (fun nd => below score key nd = true) l1 ->
  Forall (fun nd => below score key nd = false) l2 ->
  (forall nd, head l2 = Some nd -> hits score key nd = false) ->
  is_nan score = false ->
  exists sl',
    SkipList_Insert sl key value score = Some (sl', length (sl_mem sl)) /\
    sl_head sl' = sl_head sl /\
    skiplist_inv sl'
      (l1 ++ mkNode (length (sl_mem sl)) key value score
                    (fst (randomLevel (sl_rand sl))) :: l2).
Proof.
  intros Hinv H1 H2 Hmiss Hnan.
  destruct (walk_for_target sl _ l1 l2 score key Hinv eq_refl H1 H2)
    as (upd & Hw & Hulen & Hulo & Huhi).
  pose proof (next_after_walk sl _ l1 l2 (fun s k => klt s k score key)
                Hinv eq_refl H2) as Hnext.
  pose proof (randomLevel_bounds (sl_rand sl)) as Hlv.
  pose proof (inv_level _ _ Hinv) as Hlevel.
  unfold SkipList_Insert. rewrite Hw. simpl. rewrite Hnext. simpl.
  (* the pair is not there *)
  assert (match n_ptr <$> head l2 with
          | Some y => ey ← sl_mem sl !! y;
                      if matches score key ey then Some y else None
          | None => None
          end = None) as ->.
  { destruct l2 as [|z l2]; [done|]. simpl.
    destruct (node_lookup sl _ Hinv z) as (e & -> & Hk & _ & Hs & _); [set_solver|].
    simpl. specialize (Hmiss z eq_refl). unfold hits in Hmiss. unfold matches.
    rewrite Hk, Hs. fold (keq (n_score z) (n_key z) score key). by rewrite Hmiss. }
  destruct (randomLevel (sl_rand sl)) as [lv r'] eqn:Hrl. simpl in Hlv |- *.
  set (n := length (sl_mem sl)).
  set (m0 := sl_mem sl ++ [NewElement key value score lv]).
  (* the update vector, raised to the new level *)
  assert (exists upd1,
    (if decide (sl_level sl < lv)%nat
     then raise_update (lv - sl_level sl) (sl_level sl) (sl_head sl) upd
     else Some upd) = Some upd1 /\
    forall j, (j < lv)%nat -> upd1 !! j = Some (Some (pred_at (sl_head sl) l1 j)))
    as (upd1 & -> & Hu1).
  { case_decide as Hc.
    - destruct (raise_update_spec (lv - sl_level sl) (sl_head sl) (sl_level sl) upd)
        as (upd1 & -> & _ & Hin & Hout); [lia|].
      exists upd1. split; [done|]. intros j Hj.
      destruct (decide (j < sl_level sl)%nat).
      + rewrite Hout by lia. by apply Hulo.
      + rewrite Hin by lia.
        by rewrite (pred_at_top sl _ l1 l2 Hinv eq_refl j) by lia.
    - exists upd. split; [done|]. intros j Hj. apply Hulo. lia. }
  simpl.
  (* the splice *)
  destruct (splice_spec upd1 n (pred_at (sl_head sl) l1) lv 0%nat m0) as (m1 & -> & S1 & Hg1).
  { intros j Hj. apply Hu1. lia. }
  { intros j Hj. pose proof (pred_at_lt sl _ l1 l2 j Hinv eq_refl) as Hlt.
    split; [subst n; lia|].
    destruct (pred_at_slot sl _ l1 l2 j Hinv eq_refl) as (e & He & Hs); [lia|].
    exists e. split; [|done]. subst m0. by rewrite lookup_app_l. }
  { exists (NewElement key value score lv). split.
    - subst m0 n. by rewrite list_lookup_middle.
    - simpl. rewrite length_replicate. lia. }
  simpl. rewrite (Hu1 0%nat) by lia. simpl.
  assert (exists en1, m1 !! n = Some en1) as (en1 & Hen1).
  { destruct S1 as [_ S1].
    destruct (S1 n (NewElement key value score lv)) as (e' & ? & _); [|by eauto].
    subst m0 n. by rewrite list_lookup_middle. }
  (* the backward pointer of the new element *)
  assert (exists m2,
    (if decide (Some (pred_at (sl_head sl) l1 0) = Some (sl_head sl)) then Some m1
     else set_Prev m1 n (Some (pred_at (sl_head sl) l1 0))) = Some m2 /\
    same_static m0 m2 /\ forall p j, get_Next m2 p j = get_Next m1 p j)
    as (m2 & -> & S2 & Hg2).
  { case_decide.
    - exists m1. auto.
    - unfold set_Prev at 1. rewrite Hen1. simpl. eexists. split; [done|].
      assert (set_Prev m1 n (Some (pred_at (sl_head sl) l1 0))
              = Some (<[n := with_Prev en1 (Some (pred_at (sl_head sl) l1 0))]> m1)) as Hsp.
      { unfold set_Prev. by rewrite Hen1. }
      split.
      + eapply same_static_trans; [exact S1|]. by eapply set_Prev_static.
      + intros p j. by eapply get_Next_set_Prev. }
  simpl.
  assert (forall p j, get_Next m2 p j =
     if decide (j < lv)%nat then
       if decide (p = n) then get_Next m0 (pred_at (sl_head sl) l1 j) j
       else if decide (p = pred_at (sl_head sl) l1 j) then Some (Some n)
            else get_Next m0 p j
     else get_Next m0 p j) as Hg.
  { intros p j. rewrite Hg2, Hg1. destruct (decide (j < lv)%nat).
    - by rewrite decide_True by lia.
    - by rewrite decide_False by lia. }
  assert (Forall (fun nd => klt score key (n_score nd) (n_key nd) = true) l2) as Habove.
  { pose proof (inv_sorted _ _ Hinv) as Hs. apply StronglySorted_app_1_r in Hs.
    pose proof (inv_nonan _ _ Hinv) as Hn. apply Forall_app in Hn as [_ Hn].
    by apply above_target. }
  rewrite Hg. rewrite (decide_True (P := (0 < lv)%nat)) by lia.
  rewrite (decide_True (P := n = n)) by done.
  subst m0. rewrite get_Next_app_l by (by eapply pred_at_lt).
  rewrite Hnext. simpl.
  destruct (head l2) as [z|] eqn:Hz; simpl.
  - (* a successor: its backward pointer is redirected *)
    assert (exists ez, m2 !! n_ptr z = Some ez) as (ez & Hez).
    { destruct (node_lookup sl _ Hinv z) as (e & He & _).
      { apply head_Some_elem_of in Hz. set_solver. }
      destruct S2 as [_ S2].
      destruct (S2 (n_ptr z) e) as (e' & ? & _); [|by eauto].
      rewrite lookup_app_l; [done|]. by eapply lookup_lt_Some. }
    unfold set_Prev. rewrite Hez. simpl. eexists. split; [done|]. split; [done|].
    assert (set_Prev m2 (n_ptr z) (Some n)
            = Some (<[n_ptr z := with_Prev ez (Some n)]> m2)) as Hsp.
    { unfold set_Prev. by rewrite Hez. }
    apply inv_after_insert; auto.
    + eapply same_static_trans; [exact S2|]. by eapply set_Prev_static.
    + intros p j. rewrite (get_Next_set_Prev _ _ _ _ _ _ Hsp). apply Hg.
  - eexists. split; [done|]. split; [done|].
    apply inv_after_insert; auto.
Qed.

(** ** Delete *)

Lemma unsplice_spec upd x (u : nat -> ptr) (hx level : nat) m k :
  forall i mi,
  (i + k = level)%nat ->
  (forall j, (j < level)%nat -> upd !! j = Some (Some (u j))) ->
  same_static m mi ->
  (forall p j, (i <= j)%nat -> get_Next mi p j = get_Next m p j) ->
  (forall j, (j < level)%nat -> (j < hx)%nat ->
     get_Next m (u j) j = Some (Some x)) ->
  (forall j, (j < level)%nat -> (hx <= j)%nat ->
     exists o, get_Next m (u j) j = Some o /\ o <> Some x) ->
  (forall j, (j < hx)%nat -> is_Some (get_Next m x j)) ->
  (forall j, (j < level)%nat ->
     exists e, m !! u j = Some e /\ (j < length (Next e))%nat) ->
  exists m', unsplice k i upd x mi = Some m' /\ same_static m m' /\
    forall p j, get_Next m' p j =
      if decide ((i <= j < hx)%nat /\ (j < level)%nat /\ p = u j)
      then get_Next m x j else get_Next mi p j.
Proof.
  induction k as [|k IH]; intros i mi Hik Hupd Hst Hsame Hlo Hhi Hx Hu.
  - exists mi. split; [done|]. split; [done|]. intros p j.
    rewrite decide_False; [done|]. lia.
  - cbn [unsplice]. rewrite (Hupd i) by lia. simpl.
    rewrite (Hsame (u i) i) by lia.
    destruct (decide (i < hx)%nat) as [Hi|Hi].
    + rewrite Hlo by lia. simpl. rewrite decide_True by done.
      rewrite (Hsame x i) by lia. destruct (Hx i Hi) as [nx Hnx]. rewrite Hnx. simpl.
      destruct (static_slot m mi (u i) i Hst) as (eu & Heu & Hslot); [apply Hu; lia|].
      destruct (set_Next_is_Some mi (u i) i nx eu Heu Hslot) as [mi' Hmi'].
      rewrite Hmi'. simpl.
      pose proof (set_Next_static _ _ _ _ _ Hmi') as S1.
      destruct (IH (S i) mi') as (m' & Hm' & S' & Hget); auto; [lia| | |].
      { by eapply same_static_trans. }
      { intros p j Hj. rewrite (get_Next_set_Next _ _ _ _ _ _ _ Hmi').
        rewrite decide_False by lia. apply Hsame. lia. }
      exists m'. split; [done|]. split; [done|]. intros p j. rewrite Hget.
      rewrite (get_Next_set_Next _ _ _ _ _ _ _ Hmi').
      destruct (decide (j = i)) as [->|Hji].
      * rewrite decide_False by lia.
        destruct (decide (p = u i)) as [->|Hp].
        -- rewrite decide_True by done. rewrite decide_True; [done|]. lia.
        -- rewrite decide_False by (intros [? _]; done).
           rewrite decide_False; [done|]. intros (_ & _ & ?). done.
      * rewrite (decide_False (P := p = u i /\ j = i)) by (intros [_ ?]; done).
        destruct (decide ((S i <= j < hx)%nat /\ (j < level)%nat /\ p = u j))
          as [Hc|Hc].
        -- rewrite decide_True; [done|]. destruct Hc as (? & ? & ?).
           repeat split; auto; lia.
        -- rewrite decide_False; [done|]. intros (? & ? & ?). apply Hc.
           repeat split; auto; lia.
    + destruct (Hhi i) as (o & -> & Ho); [lia|lia|]. simpl.
      rewrite decide_False by done.
      exists mi. split; [done|]. split; [done|]. intros p j.
      rewrite decide_False; [done|]. lia.
Qed.

Lemma linked_remove m m' i x a1 a2 :
  forall y,
  linked m i y (a1 ++ x :: a2) ->
  NoDup (y :: a1 ++ x :: a2) ->
  get_Next m' (lastd y a1) i = get_Next m x i ->
  (forall p, p ∈ y :: a1 ++ a2 -> p <> lastd y a1 ->
     get_Next m' p i = get_Next m p i) ->
  linked m' i y (a1 ++ a2).
Proof.
  induction a1 as [|z a1 IH]; intros y Hl Hnd Hu Hother.
  - simpl in *. rewrite lastd_nil in *. destruct Hl as [_ Hl].
    apply NoDup_cons in Hnd as [Hy Hnd].
    destruct a2 as [|w a2]; simpl in *.
    + by rewrite Hu.
    + destruct Hl as [Hxw Hl]. split; [by rewrite Hu|].
      apply (linked_ext m); [|done]. intros p Hp. apply Hother; [set_solver|].
      intros ->. apply Hy. set_solver.
  - simpl in Hl. destruct Hl as [Hyz Hl]. rewrite lastd_cons in *.
    apply NoDup_cons in Hnd as [Hy Hnd]. simpl. split.
    + rewrite <- Hyz. apply Hother; [set_solver|]. intros ->.
      apply Hy. pose proof (lastd_elem_of z a1). set_solver.
    + apply IH; auto. intros p Hp Hne. apply Hother; [set_solver|done].
Qed.

Lemma at_level_nil_inv i l :
  at_level i l = [] -> Forall (fun nd => n_height nd <= i)%nat l.
Proof.
  unfold at_level. induction l as [|nd l IH]; [constructor|].
  rewrite filter_cons. case_decide as Hc; simpl; [done|]. intros Hnil.
  constructor; [lia|auto].
Qed.

Lemma shrink_level_eq m hd t :
  shrink_level m hd (S (S t)) =
  nx ← get_Next m hd (S t);
  match nx with
  | None => shrink_level m hd (S t)
  | Some _ => Some (S (S t))
  end.
Proof. reflexivity. Qed.

Lemma shrink_level_spec m hd l level :
  (forall i, (i < MaxLevel)%nat -> linked m i hd (at_level i l)) ->
  (1 <= level <= MaxLevel)%nat ->
  Forall (fun nd => n_height nd <= level)%nat l ->
  exists level', shrink_level m hd level = Some level' /\
    (1 <= level' <= level)%nat /\
    Forall (fun nd => n_height nd <= level')%nat l.
Proof.
  intros Hli. induction level as [|top IH]; intros Hlv Hh; [lia|].
  destruct top as [|t].
  - exists 1%nat. simpl. split; [done|]. split; [lia|done].
  - rewrite shrink_level_eq, (linked_next _ _ _ _ (Hli (S t) ltac:(lia))).
    cbn [mbind option_bind].
    destruct (head (at_level (S t) l)) as [y|] eqn:E.
    + exists (S (S t)). split; [done|]. split; [lia|done].
    + assert (at_level (S t) l = []) as Hnil by (by destruct (at_level (S t) l)).
      destruct IH as (level' & -> & ? & ?); [lia|by apply at_level_nil_inv|].
      exists level'. split; [done|]. split; [lia|done].
Qed.

Lemma links_after_delete sl l1 nd l2 mf :
  skiplist_inv sl (l1 ++ nd :: l2) ->
  (forall p j, get_Next mf p j =
     if decide ((j < n_height nd)%nat /\ p = pred_at (sl_head sl) l1 j)
     then get_Next (sl_mem sl) (n_ptr nd) j else get_Next (sl_mem sl) p j) ->
  forall i, (i < MaxLevel)%nat -> linked mf i (sl_head sl) (at_level i (l1 ++ l2)).
Proof.
  intros Hinv Hget i Hi.
  pose proof (inv_links _ _ Hinv i Hi) as Hli.
  pose proof (NoDup_head_at_level sl _ i Hinv) as Hnd.
  rewrite at_level_app, at_level_cons in Hli, Hnd. rewrite at_level_app.
  destruct (decide (i < n_height nd)%nat) as [Hih|Hih].
  - apply (linked_remove (sl_mem sl) mf i (n_ptr nd)); [done|done| |].
    + fold (pred_at (sl_head sl) l1 i). rewrite Hget. by rewrite decide_True.
    + fold (pred_at (sl_head sl) l1 i). intros p _ Hne. rewrite Hget.
      rewrite decide_False; [done|]. intros [_ ?]. done.
  - apply (linked_ext (sl_mem sl)); [|done]. intros p _. rewrite Hget.
    rewrite decide_False; [done|]. intros [? _]. done.
Qed.

Lemma inv_after_delete sl l1 nd l2 mf tail' :
  skiplist_inv sl (l1 ++ nd :: l2) ->
  same_static (sl_mem sl) mf ->
  (forall p j, get_Next mf p j =
     if decide ((j < n_height nd)%nat /\ p = pred_at (sl_head sl) l1 j)
     then get_Next (sl_mem sl) (n_ptr nd) j else get_Next (sl_mem sl) p j) ->
  exists level',
    shrink_level mf (sl_head sl) (sl_level sl) = Some level' /\
    skiplist_inv
      {| sl_head := sl_head sl; sl_tail := tail'; sl_length := sl_length sl - 1;
         sl_level := level'; sl_rand := sl_rand sl; sl_mem := mf |}
      (l1 ++ l2).
Proof.
  intros Hinv Hst Hget.
  pose proof (links_after_delete sl l1 nd l2 mf Hinv Hget) as Hlinks.
  destruct Hinv as [Hhd Hag Hnd Hso Hnn Hhe Hlvl Hli Hlen].
  apply Forall_app in Hhe as [E1 [_ E2]%Forall_cons].
  destruct (shrink_level_spec mf (sl_head sl) (l1 ++ l2) (sl_level sl))
    as (level' & Hshrink & Hlv' & Hh'); [done|done| |].
  { apply Forall_app.
    split; [eapply Forall_impl; [exact E1|]|eapply Forall_impl; [exact E2|]];
      simpl; intros; lia. }
  exists level'. split; [done|]. constructor; simpl.
  - destruct Hhd as (eh & Heh & Hl). destruct Hst as [_ Hst].
    destruct (Hst _ _ Heh) as (e' & He' & _ & _ & _ & Hl').
    exists e'. split; [done|congruence].
  - apply Forall_app in Hag as [A1 [_ A2]%Forall_cons].
    apply Forall_app.
    split; [eapply Forall_impl; [exact A1|]|eapply Forall_impl; [exact A2|]];
      simpl; intros; by eapply agrees_static.
  - rewrite fmap_app in *. rewrite fmap_cons in Hnd.
    apply NoDup_cons in Hnd as [Hh Hnd]. apply NoDup_app in Hnd as (N1 & Hd & N2).
    apply NoDup_cons in N2 as [Hx N2].
    apply NoDup_cons. split; [set_solver|].
    apply NoDup_app. split; [done|]. split; [|done]. set_solver.
  - apply StronglySorted_app in Hso as (Hc & S1 & [_ S2]%StronglySorted_cons).
    apply StronglySorted_app. split; [|done]. intros x1 x2 Hx1 Hx2.
    apply Hc; set_solver.
  - apply Forall_app in Hnn as [N1 [_ N2]%Forall_cons]. by apply Forall_app.
  - apply Forall_app in Hh' as [F1 F2]. rewrite Forall_forall in E1, E2, F1, F2.
    apply Forall_forall. intros x [Hx|Hx]%elem_of_app.
    + specialize (E1 x Hx). specialize (F1 x Hx). simpl in *. lia.
    + specialize (E2 x Hx). specialize (F2 x Hx). simpl in *. lia.
  - lia.
  - done.
  - rewrite !length_app in *. simpl in Hlen. lia.
Qed.

Lemma Delete_absent sl l key score :
  skiplist_inv sl l ->
  Forall (fun nd => hits score key nd = false) l ->
  SkipList_Delete sl key score = Some (sl, false).
Proof.
  intros Hinv Hno.
  destruct (split_at_target score key l (inv_sorted _ _ Hinv))
    as (l1 & l2 & Hl & H1 & H2 & _).
  destruct (walk_for_target sl l l1 l2 score key Hinv Hl H1 H2) as (upd & Hw & _).
  unfold SkipList_Delete. rewrite Hw. simpl.
  rewrite (next_after_walk sl l l1 l2 (fun s k => klt s k score key) Hinv Hl H2).
  simpl. destruct l2 as [|z l2]; [done|]. simpl.
  assert (z ∈ l) as Hin by (rewrite Hl; set_solver).
  destruct (node_lookup sl l Hinv z Hin) as (e & -> & Hk & _ & Hs & _). simpl.
  rewrite Forall_forall in Hno. specialize (Hno z Hin).
  unfold hits, keq in Hno. rewrite Hk, Hs.
  apply andb_false_iff in Hno as [->| ->]; simpl; [done|]. by rewrite orb_true_r.
Qed.

Lemma Delete_found sl l1 nd l2 key score :
  skiplist_inv sl (l1 ++ nd :: l2) ->
  Forall (fun nd => below score key nd = true) l1 ->
  Forall (fun nd => below score key nd = false) (nd :: l2) ->
  hits score key nd = true ->
  exists sl',
    SkipList_Delete sl key score = Some (sl', true) /\
    sl_head sl' = sl_head sl /\
    skiplist_inv sl' (l1 ++ l2).
Proof.
  intros Hinv H1 H2 Hhit.
  destruct (walk_for_target sl _ l1 (nd :: l2) score key Hinv eq_refl H1 H2)
    as (upd & Hw & Hulen & Hulo & Huhi).
  destruct (node_lookup sl _ Hinv nd) as (ex & Hex & Hk & _ & Hs & Hhx); [set_solver|].
  pose proof (inv_nodup _ _ Hinv) as Hnd.
  destruct (NoDup_ptrs_mid _ _ _ _ Hnd) as [Hne Hothers].
  pose proof (inv_level _ _ Hinv) as Hlevel.
  pose proof (inv_heights _ _ Hinv) as Hhe.
  apply Forall_app in Hhe as [_ [Hhnd _]%Forall_cons].
  unfold SkipList_Delete. rewrite Hw. simpl.
  rewrite (next_after_walk sl _ l1 (nd :: l2) (fun s k => klt s k score key)
             Hinv eq_refl H2). simpl.
  rewrite Hex. simpl. unfold hits, keq in Hhit. rewrite Hk, Hs.
  apply andb_true_iff in Hhit as [-> ->]. simpl.
  (* the element leaves the levels it takes part in *)
  assert (forall j, pred_at (sl_head sl) l1 j <> n_ptr nd) as Hpx.
  { intros j Heq. pose proof (pred_at_elem_of (sl_head sl) l1 j) as Hin.
    rewrite Heq in Hin. apply elem_of_cons in Hin as [?|Hin]; [done|].
    apply at_level_elem_of in Hin as (x & Hx & Hxe & _).
    apply (Hothers x); [set_solver|done]. }
  destruct (unsplice_spec upd (n_ptr nd) (pred_at (sl_head sl) l1) (n_height nd)
              (sl_level sl) (sl_mem sl) (sl_level sl) 0%nat (sl_mem sl))
    as (m1 & -> & S1 & Hg1); auto.
  { apply same_static_refl. }
  { intros j Hj Hjh.
    assert (j < MaxLevel)%nat as Hjm by lia.
    pose proof (linked_pred sl _ l1 (nd :: l2) Hinv eq_refl j Hjm) as Hl.
    rewrite at_level_cons, decide_True in Hl by done. by destruct Hl. }
  { intros j Hj Hjh.
    assert (j < MaxLevel)%nat as Hjm by lia.
    pose proof (linked_pred sl _ l1 (nd :: l2) Hinv eq_refl j Hjm) as Hl.
    rewrite at_level_cons, decide_False in Hl by lia.
    rewrite (linked_next _ _ _ _ Hl). eexists. split; [done|].
    intros [= Hy]. apply head_Some_elem_of in Hy.
    apply at_level_elem_of in Hy as (x & Hx & Hxe & _).
    apply (Hothers x); [set_solver|done]. }
  { intros j Hj. apply (get_Next_is_Some _ _ _ ex); [done|lia]. }
  { intros j Hj. apply (pred_at_slot sl (l1 ++ nd :: l2) l1 (nd :: l2)); [done|done|lia]. }
  simpl.
  assert (forall p j, get_Next m1 p j =
     if decide ((j < n_height nd)%nat /\ p = pred_at (sl_head sl) l1 j)
     then get_Next (sl_mem sl) (n_ptr nd) j else get_Next (sl_mem sl) p j) as Hg.
  { intros p j. rewrite Hg1.
    destruct (decide ((j < n_height nd)%nat /\ p = pred_at (sl_head sl) l1 j))
      as [[? ?]|Hc].
    - rewrite decide_True; [done|]. repeat split; auto; lia.
    - rewrite decide_False; [done|]. intros (? & ? & ?). apply Hc. split; [lia|done]. }
  (* the successor of the element *)
  assert (get_Next m1 (n_ptr nd) 0 = Some (n_ptr <$> head l2)) as Hnx.
  { rewrite Hg. rewrite decide_False by (intros [_ ?]; by eapply Hpx).
    assert (0 < MaxLevel)%nat as H0m by lia.
    pose proof (linked_pred sl _ l1 (nd :: l2) Hinv eq_refl 0%nat H0m) as Hl.
    rewrite at_level_cons, decide_True in Hl by lia. destruct Hl as [_ Hl].
    rewrite (linked_next _ _ _ _ Hl). f_equal.
    rewrite at_level_0; [by destruct l2|].
    pose proof (inv_heights _ _ Hinv) as Hh.
    apply Forall_app in Hh as [_ [_ Hh]%Forall_cons].
    eapply Forall_impl; [exact Hh|]. simpl. intros; lia. }
  unfold get_Next in Hnx.
  destruct (m1 !! n_ptr nd) as [ex1|] eqn:Hex1; [|done]. simpl in Hnx |- *.
  rewrite Hnx. simpl.
  destruct (head l2) as [z|] eqn:Hz; simpl.
  - assert (exists ez, m1 !! n_ptr z = Some ez) as (ez & Hez).
    { destruct (node_lookup sl _ Hinv z) as (e & He & _).
      { apply head_Some_elem_of in Hz. set_solver. }
      destruct S1 as [_ S1]. destruct (S1 _ _ He) as (e' & ? & _). eauto. }
    assert (set_Prev m1 (n_ptr z) (Prev ex1)
            = Some (<[n_ptr z := with_Prev ez (Prev ex1)]> m1)) as Hsp.
    { unfold set_Prev. by rewrite Hez. }
    rewrite Hsp. simpl.
    destruct (inv_after_delete sl l1 nd l2
                (<[n_ptr z := with_Prev ez (Prev ex1)]> m1) (sl_tail sl) Hinv)
      as (level' & -> & Hinv').
    { eapply same_static_trans; [exact S1|]. by eapply set_Prev_static. }
    { intros p j. rewrite (get_Next_set_Prev _ _ _ _ _ _ Hsp). apply Hg. }
    simpl. eauto.
  - destruct (inv_after_delete sl l1 nd l2 m1 (Prev ex1) Hinv S1 Hg)
      as (level' & -> & Hinv').
    simpl. eauto.
Qed.

(** ** The invariant along a run *)

Lemma NewSkipList_inv r : skiplist_inv (NewSkipList r) [].
Proof.
  constructor; try by constructor.
  - eexists. split; reflexivity.
  - apply NoDup_singleton.
  - simpl. unfold MaxLevel. lia.
  - intros i Hi.
    change (replicate MaxLevel None !! i = Some (@None ptr)).
    by apply lookup_replicate_2.
Qed.

Lemma hits_not_below score key nd :
  hits score key nd = true -> below score key nd = false.
Proof. apply keq_not_klt. Qed.

(** The two outcomes of Insert on a well-formed list. *)
Lemma Insert_cases sl l key value score :
  skiplist_inv sl l -> is_nan score = false ->
  exists sl' p l',
    SkipList_Insert sl key value score = Some (sl', p) /\
    skiplist_inv sl' l' /\ sl_head sl' = sl_head sl /\
    ((exists l1 nd l2 e,
        l = l1 ++ nd :: l2 /\ hits score key nd = true /\
        l' = l1 ++ node_set_val value nd :: l2 /\ p = n_ptr nd /\
        sl_mem sl !! p = Some e /\
        sl' = {| sl_head := sl_head sl; sl_tail := sl_tail sl;
                 sl_length := sl_length sl; sl_level := sl_level sl;
                 sl_rand := sl_rand sl;
                 sl_mem := <[p := with_Value e value]> (sl_mem sl) |})
     \/
     (exists l1 l2 lv,
        l = l1 ++ l2 /\ Forall (fun nd => hits score key nd = false) l /\
        l' = l1 ++ mkNode p key value score lv :: l2 /\
        p = length (sl_mem sl) /\ sl_length sl' = sl_length sl + 1)).
Proof.
  intros Hinv Hnan.
  destruct (split_at_target score key l (inv_sorted _ _ Hinv))
    as (l1 & l2 & Hl & H1 & H2 & Hfirst).
  destruct (head l2) as [z|] eqn:Hz; [destruct (hits score key z) eqn:Hhit|].
  - (* the pair is in the list *)
    destruct l2 as [|z' l2]; [done|]. injection Hz as ->. subst l.
    destruct (Insert_hit sl l1 z l2 key value score Hinv H1 H2 Hhit)
      as (e & He & Hins).
    eexists _, _, _. split; [exact Hins|]. split; [by apply inv_set_Value|].
    split; [done|]. left. exists l1, z, l2, e. done.
  - destruct (Insert_miss sl l1 l2 key value score) as (sl' & Hins & Hhd & Hinv');
      auto; [by subst l|intros nd Hnd; rewrite Hz in Hnd; by injection Hnd as <-|].
    eexists _, _, _. split; [exact Hins|]. split; [exact Hinv'|]. split; [done|].
    right. exists l1, l2, (fst (randomLevel (sl_rand sl))).
    split; [done|]. split; [|split; [done|split; [done|]]].
    + apply Forall_forall. intros nd Hin.
      destruct (hits score key nd) eqn:E; [|done].
      specialize (Hfirst nd Hin E). injection Hfirst as <-. congruence.
    + pose proof (inv_length _ _ Hinv') as L'. pose proof (inv_length _ _ Hinv) as L.
      rewrite L', L, Hl, !length_app. simpl. lia.
  - destruct (Insert_miss sl l1 l2 key value score) as (sl' & Hins & Hhd & Hinv');
      auto; [by subst l|intros nd Hnd; by rewrite Hz in Hnd|].
    eexists _, _, _. split; [exact Hins|]. split; [exact Hinv'|]. split; [done|].
    right. exists l1, l2, (fst (randomLevel (sl_rand sl))).
    split; [done|]. split; [|split; [done|split; [done|]]].
    + apply Forall_forall. intros nd Hin.
      destruct (hits score key nd) eqn:E; [|done].
      by specialize (Hfirst nd Hin E).
    + pose proof (inv_length _ _ Hinv') as L'. pose proof (inv_length _ _ Hinv) as L.
      rewrite L', L, Hl, !length_app. simpl. lia.
Qed.

(** The two outcomes of Delete on a well-formed list. *)
Lemma Delete_cases sl l key score :
  skiplist_inv sl l ->
  exists sl' b l',
    SkipList_Delete sl key score = Some (sl', b) /\
    skiplist_inv sl' l' /\ sl_head sl' = sl_head sl /\
    ((b = false /\ sl' = sl /\ l' = l /\
      Forall (fun nd => hits score key nd = false) l)
     \/
     (b = true /\ exists l1 nd l2,
        l = l1 ++ nd :: l2 /\ hits score key nd = true /\ l' = l1 ++ l2)).
Proof.
  intros Hinv.
  destruct (split_at_target score key l (inv_sorted _ _ Hinv))
    as (l1 & l2 & Hl & H1 & H2 & Hfirst).
  assert ((exists z l2', l2 = z :: l2' /\ hits score key z = true) \/
          Forall (fun nd => hits score key nd = false) l) as [(z & l2' & -> & Hhit)|Hno].
  { destruct l2 as [|z l2'].
    - right. apply Forall_forall. intros nd Hin.
      destruct (hits score key nd) eqn:E; [|done]. by specialize (Hfirst nd Hin E).
    - destruct (hits score key z) eqn:Hhit; [left; eauto|]. right.
      apply Forall_forall. intros nd Hin.
      destruct (hits score key nd) eqn:E; [|done].
      specialize (Hfirst nd Hin E). simpl in Hfirst. injection Hfirst as ->.
      congruence. }
  - subst l. destruct (Delete_found sl l1 z l2' key score Hinv H1 H2 Hhit)
      as (sl' & Hdel & Hhd & Hinv').
    exists sl', true, (l1 ++ l2'). split; [done|]. split; [done|]. split; [done|].
    right. split; [done|]. exists l1, z, l2'. done.
  - exists sl, false, l. split; [by apply (Delete_absent sl l)|]. split; [done|].
    split; [done|]. left. done.
Qed.

Lemma sl_step_inv sl l o :
  skiplist_inv sl l -> no_nan_insert o ->
  exists sl' l', sl_step sl o = Some sl' /\ skiplist_inv sl' l'.
Proof.
  intros Hinv Ho. destruct o as [key value score|key score]; simpl in *.
  - destruct (Insert_cases sl l key value score Hinv Ho) as (sl' & p & l' & -> & ? & _).
    simpl. eauto.
  - destruct (Delete_cases sl l key score Hinv) as (sl' & b & l' & -> & ? & _).
    simpl. eauto.
Qed.

Lemma sl_run_inv ops :
  forall sl l, skiplist_inv sl l -> Forall no_nan_insert ops ->
  exists sl' l', sl_run ops sl = Some sl' /\ skiplist_inv sl' l'.
Proof.
  induction ops as [|o ops IH]; intros sl l Hinv Hops; simpl.
  - eauto.
  - apply Forall_cons in Hops as [Ho Hops].
    destruct (sl_step_inv sl l o Hinv Ho) as (sl1 & l1 & -> & Hinv1). simpl.
    by apply (IH sl1 l1).
Qed.

(** ** The chains of a well-formed list *)

Lemma chain_from_spec m i rest :
  forall x fuel, linked m i x rest -> (length rest < fuel)%nat ->
  chain_from fuel m i (head rest) = Some rest.
Proof.
  induction rest as [|y rest IH]; intros x fuel Hl Hfuel.
  - destruct fuel; [simpl in Hfuel; lia|done].
  - destruct fuel as [|fuel]; [simpl in Hfuel; lia|]. simpl in *.
    destruct Hl as [_ Hl]. rewrite (linked_next _ _ _ _ Hl). simpl.
    rewrite (IH y fuel Hl) by lia. done.
Qed.

Lemma chain_spec sl l i :
  skiplist_inv sl l -> (i < MaxLevel)%nat -> chain sl i = Some (at_level i l).
Proof.
  intros Hinv Hi. unfold chain.
  pose proof (inv_links _ _ Hinv i Hi) as Hl.
  rewrite (linked_next _ _ _ _ Hl). cbn [mbind option_bind].
  apply (chain_from_spec _ _ _ (sl_head sl)); [done|].
  pose proof (at_level_length sl l Hinv i). lia.
Qed.

(** ** Scores of the store *)

Lemma shr_1_nonneg mrs : 0 <= shr_m mrs -> 0 <= shr_m (shr_1 mrs).
Proof. destruct mrs as [[|[p|p|]|[p|p|]] r s]; simpl; lia. Qed.

Lemma iter_pos_shr_1_nonneg p : forall mrs,
  0 <= shr_m mrs -> 0 <= shr_m (SpecFloat.iter_pos shr_1 p mrs).
Proof.
  induction p as [p IH|p IH|]; intros mrs H; simpl.
  - apply IH, IH. by apply shr_1_nonneg.
  - by apply IH, IH.
  - by apply shr_1_nonneg.
Qed.

Lemma shr_nonneg mrs e n : 0 <= shr_m mrs -> 0 <= shr_m (fst (shr mrs e n)).
Proof.
  intros H. destruct n; simpl; auto. by apply iter_pos_shr_1_nonneg.
Qed.

Lemma shr_fexp_nonneg prec emax m e l :
  0 <= m -> 0 <= shr_m (fst (shr_fexp prec emax m e l)).
Proof.
  intros H. unfold shr_fexp. apply shr_nonneg.
  by destruct l as [|[]].
Qed.

Lemma round_nearest_even_nonneg m l : 0 <= m -> 0 <= round_nearest_even m l.
Proof.
  intros H. destruct l as [|[]]; simpl; auto; [|lia].
  destruct (Z.even m); lia.
Qed.

Lemma binary_round_aux_nonneg prec emax mx ex lx :
  0 <= mx -> f64_nonneg (binary_round_aux prec emax false mx ex lx) = true.
Proof.
  intros H. unfold binary_round_aux.
  pose proof (shr_fexp_nonneg prec emax mx ex lx H) as H1.
  destruct (shr_fexp prec emax mx ex lx) as [mrs' e']. simpl in H1.
  pose proof (round_nearest_even_nonneg (shr_m mrs') (loc_of_shr_record mrs') H1) as H2.
  pose proof (shr_fexp_nonneg prec emax _ e' loc_Exact H2) as H3.
  destruct (shr_fexp prec emax _ e' loc_Exact) as [mrs'' e'']. simpl in H3.
  destruct (shr_m mrs'') as [|p|p]; [done| |lia].
  by destruct (e'' <=? emax - prec).
Qed.

Lemma f64_of_Z_nonneg z : 0 <= z -> f64_nonneg (f64_of_Z z) = true.
Proof.
  intros H. unfold f64_of_Z, binary_normalize. destruct z as [|p|p]; [done| |lia].
  unfold binary_round. destruct (shl_align _ _ _) as [mz ez].
  by apply binary_round_aux_nonneg.
Qed.

Lemma hashBytes_nonneg data : 0 <= hashBytes data.
Proof.
  unfold hashBytes.
  assert (forall init, 0 <= init ->
    0 <= fold_left (fun hash b => u64 (Z.lxor hash (byte_val b) * 1099511628211))
           data init) as H; [|by apply H].
  induction data as [|b data IH]; intros init Hi; simpl; [done|].
  apply IH. unfold u64. apply Z.mod_pos_bound. lia.
Qed.

Lemma score_of_nonneg key : f64_nonneg (score_of key) = true.
Proof. apply f64_of_Z_nonneg, hashBytes_nonneg. Qed.

Lemma score_of_not_nan key : is_nan (score_of key) = false.
Proof. pose proof (score_of_nonneg key). by destruct (score_of key). Qed.

Lemma minus_one_lt_nonneg x :
  f64_nonneg x = true -> f64_lt (f64_of_Z (-1)) x = true.
Proof. by destruct x as [[]|[]| |[] m e]. Qed.

(** ** Skip list properties *)

Lemma StronglySorted_fmap_elem {A B} (R1 : relation A) (R2 : relation B)
    (f : A -> B) l :
  (forall x y, x ∈ l -> y ∈ l -> R1 x y -> R2 (f x) (f y)) ->
  StronglySorted R1 l -> StronglySorted R2 (f <$> l).
Proof.
  intros Hf Hs. induction Hs as [|x l Hs IH Hx]; simpl; constructor.
  - apply IH. intros a b Ha Hb. apply Hf; set_solver.
  - apply Forall_fmap, Forall_forall. intros y Hy. simpl.
    rewrite Forall_forall in Hx. apply Hf; [set_solver|set_solver|auto].
Qed.

Lemma chain0_sorted sl l :
  skiplist_inv sl l -> StronglySorted (elem_lt (sl_mem sl)) (at_level 0 l).
Proof.
  intros Hinv. rewrite at_level_0.
  - apply (StronglySorted_fmap_elem node_lt); [|apply (inv_sorted _ _ Hinv)].
    intros a b Ha Hb Hab.
    destruct (node_lookup sl l Hinv a Ha) as (ea & Hea & Hka & _ & Hsa & _).
    destruct (node_lookup sl l Hinv b Hb) as (eb & Heb & Hkb & _ & Hsb & _).
    exists ea, eb. split; [done|]. split; [done|].
    rewrite precedes_klt, Hka, Hsa, Hkb, Hsb. exact Hab.
  - pose proof (inv_heights _ _ Hinv) as Hh. eapply Forall_impl; [exact Hh|].
    simpl. intros; lia.
Qed.

Lemma inv_ordered_levels sl l : skiplist_inv sl l -> ordered_levels sl.
Proof.
  intros Hinv. split.
  - exists (at_level 0 l). split; [|by apply chain0_sorted].
    apply chain_spec; [done|]. unfold MaxLevel. lia.
  - intros L L' cL p HL Hc Hp. rewrite (chain_spec sl l L Hinv) in Hc by lia.
    injection Hc as <-. exists (at_level L' l).
    split; [apply chain_spec; [done|lia]|].
    apply at_level_elem_of in Hp as (nd & ? & ? & ?).
    apply at_level_elem_of. exists nd. split; [done|]. split; [done|lia].
Qed.

Lemma run_well_formed r ops sl :
  Forall no_nan_insert ops -> sl_run ops (NewSkipList r) = Some sl ->
  well_formed sl.
Proof.
  intros Hops Hrun.
  destruct (sl_run_inv ops (NewSkipList r) [] (NewSkipList_inv r) Hops)
    as (sl' & l & Hrun' & Hinv).
  rewrite Hrun in Hrun'. injection Hrun' as <-. by exists l.
Qed.

(** C2, as stated, fails: a NaN score is below nothing and above nothing,
    so an element inserted with one stays where the walk began, and later
    inserts land in front of it whatever their score: after inserting
    10, NaN and 20 the level-0 chain reads 20, NaN, 10. *)
Lemma ordering_fails_with_nan :
  exists sl, sl_run nan_ops (NewSkipList rand_flat) = Some sl /\
             ~ ordered_levels sl.
Proof.
  eexists. split; [vm_compute; reflexivity|].
  intros [(c0 & Hc & Hs) _]. vm_compute in Hc. injection Hc as <-.
  apply StronglySorted_cons in Hs as [Hs _].
  apply Forall_cons in Hs as [(ep & eq & Hp & Hq & Hlt) _].
  vm_compute in Hp, Hq. injection Hp as <-. injection Hq as <-.
  vm_compute in Hlt. discriminate.
Qed.

(** C2, amended: after every sequence of Insert and Delete in which no
    Insert is given a NaN score, the operations all return, the level-0
    chain from the head is strictly increasing in (score, key), and an
    element reachable at a level is reachable at every level below. *)
Theorem ordering_invariant r ops :
  Forall no_nan_insert ops ->
  exists sl, sl_run ops (NewSkipList r) = Some sl /\ ordered_levels sl.
Proof.
  intros Hops.
  destruct (sl_run_inv ops (NewSkipList r) [] (NewSkipList_inv r) Hops)
    as (sl & l & Hrun & Hinv).
  exists sl. split; [done|]. by apply (inv_ordered_levels sl l).
Qed.

Lemma ordering_invariant_witness :
  Forall no_nan_insert sample_ops /\
  exists sl, sl_run sample_ops (NewSkipList rand_flat) = Some sl /\
             ordered_levels sl.
Proof.
  assert (Forall no_nan_insert sample_ops) as H by (repeat constructor).
  split; [exact H|]. exact (ordering_invariant rand_flat sample_ops H).
Defined.

Lemma Insert_hit_elem sl l nd key value score :
  skiplist_inv sl l -> nd ∈ l -> hits score key nd = true ->
  exists e, sl_mem sl !! n_ptr nd = Some e /\
    SkipList_Insert sl key value score =
      Some ({| sl_head := sl_head sl; sl_tail := sl_tail sl;
               sl_length := sl_length sl; sl_level := sl_level sl;
               sl_rand := sl_rand sl;
               sl_mem := <[n_ptr nd := with_Value e value]> (sl_mem sl) |},
            n_ptr nd).
Proof.
  intros Hinv Hin Hhit.
  destruct (split_at_target score key l (inv_sorted _ _ Hinv))
    as (l1 & l2 & Hl & H1 & H2 & Hfirst).
  specialize (Hfirst nd Hin Hhit). destruct l2 as [|z l2]; [done|].
  injection Hfirst as ->. subst l. by apply (Insert_hit sl l1 nd l2).
Qed.

Lemma Insert_hit_on_chain sl c0 p e key value score :
  well_formed sl ->
  chain sl 0 = Some c0 -> p ∈ c0 -> sl_mem sl !! p = Some e ->
  matches score key e = true ->
  SkipList_Insert sl key value score =
    Some ({| sl_head := sl_head sl; sl_tail := sl_tail sl;
             sl_length := sl_length sl; sl_level := sl_level sl;
             sl_rand := sl_rand sl;
             sl_mem := <[p := {| Key := Key e; Value := value; Score := Score e;
                                 Next := Next e; Prev := Prev e |}]> (sl_mem sl) |},
          p).
Proof.
  intros [l Hinv] Hc Hp He Hm.
  rewrite (chain_spec sl l 0 Hinv) in Hc by (unfold MaxLevel; lia).
  injection Hc as <-. apply at_level_elem_of in Hp as (nd & Hin & <- & _).
  destruct (node_lookup sl l Hinv nd Hin) as (e' & He' & Hk & _ & Hs & _).
  assert (e' = e) as -> by congruence.
  assert (hits score key nd = true) as Hhit.
  { unfold hits. rewrite <- Hk, <- Hs. exact Hm. }
  destruct (Insert_hit_elem sl l nd key value score Hinv Hin Hhit) as (e' & He'' & ->).
  by assert (e' = e) as -> by congruence.
Qed.

(** C4, as stated, fails on a list that holds a NaN score: after
    inserting 10, NaN and 20 the level-0 chain reads 20, NaN, 10, so the
    walk of Insert for the pair (10, [key_a]) stops at the head, whose
    successor has score 20; the element that holds the pair is not found,
    a second element with the same pair is linked in and the length
    grows. *)
Lemma Insert_duplicates_after_nan :
  exists sl c0 e sl' p,
    sl_run nan_ops (NewSkipList rand_flat) = Some sl /\
    chain sl 0 = Some c0 /\ 1%nat ∈ c0 /\ sl_mem sl !! 1%nat = Some e /\
    matches (f64_of_Z 10) key_a e = true /\
    SkipList_Insert sl key_a val_2 (f64_of_Z 10) = Some (sl', p) /\
    p <> 1%nat /\ sl_length sl' = sl_length sl + 1 /\
    (Value <$> sl_mem sl' !! 1%nat) = Some val_1.
Proof.
  eexists _, _, _, _, _.
  split; [vm_compute; reflexivity|].
  split; [vm_compute; reflexivity|].
  split; [set_solver|].
  split; [vm_compute; reflexivity|].
  split; [vm_compute; reflexivity|].
  split; [vm_compute; reflexivity|].
  split; [done|]. split; vm_compute; reflexivity.
Qed.

(** C4, amended: on a list built by Insert and Delete with no NaN score
    given to Insert, if an element with the pair (score, key) is on the
    level-0 chain, Insert writes the value into that element and returns
    it; head, tail, length, level and random source stay, and the cell
    keeps its key, score, forward links and backward link, as does every
    other cell. *)
Theorem Insert_overwrites r ops sl c0 p e key value score :
  Forall no_nan_insert ops -> sl_run ops (NewSkipList r) = Some sl ->
  chain sl 0 = Some c0 -> p ∈ c0 -> sl_mem sl !! p = Some e ->
  matches score key e = true ->
  SkipList_Insert sl key value score =
    Some ({| sl_head := sl_head sl; sl_tail := sl_tail sl;
             sl_length := sl_length sl; sl_level := sl_level sl;
             sl_rand := sl_rand sl;
             sl_mem := <[p := {| Key := Key e; Value := value; Score := Score e;
                                 Next := Next e; Prev := Prev e |}]> (sl_mem sl) |},
          p).
Proof.
  intros Hops Hrun. apply Insert_hit_on_chain.
  by apply (run_well_formed r ops).
Qed.

Lemma Insert_overwrites_witness :
  exists sl p,
    sl_run [OpInsert key_a val_1 (f64_of_Z 10)] (NewSkipList rand_flat) = Some sl /\
    chain sl 0 = Some [p] /\
    (fst <$> SkipList_Insert sl key_a val_2 (f64_of_Z 10)) ≫= (fun sl' => Value <$> sl_mem sl' !! p)
      = Some val_2.
Proof.
  eexists _, 1%nat. split; [vm_compute; reflexivity|].
  split; [vm_compute; reflexivity|].
  erewrite (Insert_overwrites rand_flat [OpInsert key_a val_1 (f64_of_Z 10)]
              _ [1%nat] 1%nat _ key_a val_2 (f64_of_Z 10));
    [vm_compute; reflexivity|repeat constructor|vm_compute; reflexivity
    |vm_compute; reflexivity|apply list_elem_of_here
    |vm_compute; reflexivity|vm_compute; reflexivity].
Defined.

(** C9, as stated, fails: the head's score is -1, not -infinity, and
    Insert accepts scores below it (here -2). *)
Lemma head_score_is_not_neg_infinity :
  exists eh,
    sl_mem (NewSkipList rand_flat) !! sl_head (NewSkipList rand_flat) = Some eh /\
    Score eh <> S754_infinity true /\
    exists sl p ep,
      SkipList_Insert (NewSkipList rand_flat) key_a val_1 (f64_of_Z (-2))
        = Some (sl, p) /\
      chain sl 0 = Some [p] /\ sl_mem sl !! p = Some ep /\
      f64_lt (Score eh) (Score ep) = false /\ f64_lt (Score ep) (Score eh) = true.
Proof.
  eexists. split; [reflexivity|]. split; [discriminate|].
  eexists _, _, _. split; [vm_compute; reflexivity|].
  split; [vm_compute; reflexivity|]. split; [vm_compute; reflexivity|].
  split; vm_compute; reflexivity.
Qed.

(** C9, amended: a new SkipList owns a head element whose score is -1,
    which is strictly less than every score the store gives an element
    (the float64 of a 64-bit hash), and which has MaxLevel = 32 forward
    links, all nil; the list starts at level 1 with no element. *)
Theorem NewSkipList_head r :
  exists eh,
    sl_mem (NewSkipList r) !! sl_head (NewSkipList r) = Some eh /\
    Score eh = f64_of_Z (-1) /\
    (forall key, f64_lt (Score eh) (score_of key) = true) /\
    length (Next eh) = 32%nat /\ MaxLevel = 32%nat /\
    (forall i, (i < 32)%nat -> Next eh !! i = Some None) /\
    chain (NewSkipList r) 0 = Some [].
Proof.
  eexists. split; [reflexivity|]. split; [reflexivity|]. split.
  { intros key. apply minus_one_lt_nonneg, score_of_nonneg. }
  split; [reflexivity|]. split; [reflexivity|]. split; [|reflexivity].
  intros i Hi. change (replicate 32 None !! i = Some (@None ptr)).
  by apply lookup_replicate_2.
Qed.

(** ** Range *)

Lemma f64_le_below a b c :
  f64_lt a b = true \/ f64_eq a b = true -> f64_le b c = true -> f64_le a c = true.
Proof.
  rewrite !f64_le_lt_eq, !orb_true_iff. intros [Hab|Hab] [Hbc|Hbc].
  - left. eauto using f64_lt_trans.
  - left. by rewrite <- (f64_eq_lt_r _ _ a Hbc).
  - left. by rewrite (f64_eq_lt_l _ _ c Hab).
  - right. eauto using f64_eq_trans.
Qed.

Lemma node_lt_scores a b :
  node_lt a b ->
  f64_lt (n_score a) (n_score b) = true \/ f64_eq (n_score a) (n_score b) = true.
Proof.
  unfold node_lt, klt. rewrite orb_true_iff, andb_true_iff. naive_solver.
Qed.

Lemma f64_not_lt_le a b :
  is_nan a = false -> is_nan b = false -> f64_lt a b = false -> f64_le b a = true.
Proof.
  intros Ha Hb Hlt. rewrite f64_le_lt_eq. apply orb_true_iff.
  destruct (f64_eq a b) eqn:E.
  - right. by apply f64_eq_sym.
  - left. by apply f64_total.
Qed.

Lemma f64_lt_not_le a b : f64_lt a b = true -> f64_le b a = false.
Proof.
  intros Hlt. rewrite f64_le_lt_eq. apply orb_false_iff. split.
  - by apply f64_lt_asym.
  - destruct (f64_eq b a) eqn:E; [|done].
    apply f64_eq_sym in E. by rewrite (f64_lt_not_eq _ _ Hlt) in E.
Qed.

Lemma filter_all {A} (P : A -> Prop) `{!forall x, Decision (P x)} (l : list A) :
  Forall P l -> filter P l = l.
Proof.
  induction 1 as [|x l Hx _ IH]; [done|]. rewrite filter_cons_True by done.
  by f_equal.
Qed.

Lemma filter_none {A} (P : A -> Prop) `{!forall x, Decision (P x)} (l : list A) :
  Forall (fun x => ~ P x) l -> filter P l = [].
Proof.
  induction 1 as [|x l Hx _ IH]; [done|]. by rewrite filter_cons_False.
Qed.

Lemma range_collect_spec m maxScore limit ra rb :
  forall x acc fuel,
  linked m 0 x (ra ++ rb) ->
  Forall (fun p => exists e, m !! p = Some e /\ f64_le (Score e) maxScore = true) ra ->
  (forall y, head rb = Some y ->
     exists e, m !! y = Some e /\ f64_le (Score e) maxScore = false) ->
  (length ra < fuel)%nat ->
  (0 < limit -> Z.of_nat (length acc) < limit) ->
  range_collect fuel m maxScore limit (head (ra ++ rb)) acc =
    Some (acc ++ if 0 <? limit
                 then take (Z.to_nat (limit - Z.of_nat (length acc))) ra
                 else ra).
Proof.
  induction ra as [|p ra IH]; intros x acc fuel Hl Hin Hout Hfuel Hlim.
  - destruct fuel as [|fuel]; [simpl in Hfuel; lia|]. simpl.
    assert (acc ++ (if 0 <? limit
                    then take (Z.to_nat (limit - Z.of_nat (length acc))) []
                    else []) = acc) as ->.
    { destruct (0 <? limit); by rewrite ?take_nil, app_nil_r. }
    destruct (head rb) as [y|] eqn:E; [|done].
    destruct (Hout y eq_refl) as (e & -> & Hle). simpl. by rewrite Hle.
  - destruct fuel as [|fuel]; [simpl in Hfuel; lia|].
    simpl in Hl, Hfuel. destruct Hl as [_ Hl].
    apply Forall_cons in Hin as [(e & He & Hle) Hin].
    cbn [app head range_collect]. rewrite He. cbn [mbind option_bind]. rewrite Hle.
    pose proof (linked_next _ _ _ _ Hl) as Hnx. unfold get_Next in Hnx.
    rewrite He in Hnx. cbn [mbind option_bind] in Hnx.
    rewrite length_app. simpl length. 
    destruct ((0 <? limit) && (limit <=? Z.of_nat (length acc + 1))) eqn:Hc.
    + apply andb_true_iff in Hc as [H0 H1].
      rewrite H0. apply Z.ltb_lt in H0. apply Z.leb_le in H1.
      specialize (Hlim H0).
      replace (Z.to_nat (limit - Z.of_nat (length acc))) with 1%nat by lia.
      simpl. by rewrite take_0.
    + rewrite Hnx. cbn [mbind option_bind].
      assert (0 < limit -> Z.of_nat (length (acc ++ [p])) < limit) as Hlim'.
      { rewrite length_app. simpl. intros H0.
        apply andb_false_iff in Hc as [Hc|Hc].
        - apply Z.ltb_ge in Hc. lia.
        - apply Z.leb_gt in Hc. lia. }
      rewrite (IH p (acc ++ [p]) fuel Hl Hin Hout ltac:(lia) Hlim').
      f_equal. rewrite <- app_assoc. f_equal. simpl.
      destruct (0 <? limit) eqn:H0; [|done].
      apply Z.ltb_lt in H0. specialize (Hlim H0). simpl in Hc.
      apply Z.leb_gt in Hc. rewrite length_app. simpl.
      replace (Z.to_nat (limit - Z.of_nat (length acc)))
        with (S (Z.to_nat (limit - Z.of_nat (length acc + 1)))) by lia.
      done.
Qed.

Lemma StronglySorted_take {A} (R : relation A) n l :
  StronglySorted R l -> StronglySorted R (take n l).
Proof.
  intros H. rewrite <- (take_drop n l) in H. by apply StronglySorted_app_1_l in H.
Qed.

Lemma StronglySorted_truncate {A} (R : relation A) limit l :
  StronglySorted R l -> StronglySorted R (truncate limit l).
Proof. unfold truncate. destruct (0 <? limit); auto using StronglySorted_take. Qed.

Lemma in_range_node sl l nd minScore maxScore :
  skiplist_inv sl l -> nd ∈ l ->
  in_range (sl_mem sl) minScore maxScore (n_ptr nd) =
  f64_le minScore (n_score nd) && f64_le (n_score nd) maxScore.
Proof.
  intros Hinv Hin. unfold in_range.
  destruct (node_lookup sl l Hinv nd Hin) as (e & -> & _ & _ & -> & _). done.
Qed.

Lemma Range_nodes sl l minScore maxScore limit :
  skiplist_inv sl l -> is_nan minScore = false ->
  exists l1 la lb,
    l = l1 ++ la ++ lb /\
    SkipList_Range sl minScore maxScore limit = Some (truncate limit (n_ptr <$> la)) /\
    filter (fun p => in_range (sl_mem sl) minScore maxScore p = true) (n_ptr <$> l)
      = n_ptr <$> la.
Proof.
  intros Hinv Hnan.
  pose proof (inv_sorted _ _ Hinv) as Hso.
  destruct (sorted_split (fun nd => f64_lt (n_score nd) minScore) l Hso)
    as (l1 & l2 & Hl & H1 & H2).
  { intros a b Hab Hb. apply node_lt_scores in Hab as [Hab|Hab].
    - eauto using f64_lt_trans.
    - by rewrite (f64_eq_lt_l _ _ minScore Hab). }
  assert (StronglySorted node_lt l2) as Hso2.
  { rewrite Hl in Hso. by apply StronglySorted_app_1_r in Hso. }
  destruct (sorted_split (fun nd => f64_le (n_score nd) maxScore) l2 Hso2)
    as (la & lb & Hl2 & Ha & Hb).
  { intros a b Hab Hb. eapply f64_le_below; [|exact Hb]. by apply node_lt_scores. }
  exists l1, la, lb. split; [by rewrite Hl, Hl2|].
  assert (forall nd, nd ∈ l2 -> nd ∈ l) as Hsub by (intros; rewrite Hl; set_solver).
  split.
  - unfold SkipList_Range.
    rewrite <- (pred_at_top sl l l1 l2 Hinv Hl (sl_level sl)) at 1 by done.
    change (fun e : Element => f64_lt (Score e) minScore)
      with (fun e : Element => (fun s (_ : bytes) => f64_lt s minScore) (Score e) (Key e)).
    rewrite (seek_spec sl l l1 l2 (fun s _ => f64_lt s minScore) Hinv Hl H1 H2)
      by apply (inv_level _ _ Hinv).
    cbn [mbind option_bind].
    assert (0 < MaxLevel)%nat as H0 by (unfold MaxLevel; lia).
    pose proof (linked_pred sl l l1 l2 Hinv Hl 0%nat H0) as Hlk.
    rewrite at_level_0 in Hlk.
    2:{ pose proof (inv_heights _ _ Hinv) as Hh. rewrite Hl in Hh.
        apply Forall_app in Hh as [_ Hh]. eapply Forall_impl; [exact Hh|].
        simpl. intros; lia. }
    rewrite (linked_next _ _ _ _ Hlk). cbn [mbind option_bind].
    rewrite Hl2, fmap_app in Hlk |- *.
    rewrite (range_collect_spec _ maxScore limit _ _ _ [] _ Hlk).
    + simpl. unfold truncate. by rewrite Z.sub_0_r.
    + apply Forall_fmap, Forall_forall. intros nd Hnd. simpl.
      destruct (node_lookup sl l Hinv nd) as (e & He & _ & _ & Hs & _).
      { apply Hsub. rewrite Hl2. set_solver. }
      exists e. split; [done|]. rewrite Hs. rewrite Forall_forall in Ha. by apply Ha.
    + intros y Hy. apply head_Some_elem_of in Hy.
      apply list_elem_of_fmap in Hy as (nd & -> & Hnd).
      destruct (node_lookup sl l Hinv nd) as (e & He & _ & _ & Hs & _).
      { apply Hsub. rewrite Hl2. set_solver. }
      exists e. split; [done|]. rewrite Hs. rewrite Forall_forall in Hb. by apply Hb.
    + rewrite length_fmap. pose proof (at_level_length sl l Hinv 0) as Hlen.
      rewrite at_level_0 in Hlen.
      2:{ pose proof (inv_heights _ _ Hinv) as Hh. eapply Forall_impl; [exact Hh|].
          simpl. intros; lia. }
      rewrite length_fmap, Hl, Hl2, !length_app in Hlen. lia.
    + simpl. lia.
  - pose proof (inv_nonan _ _ Hinv) as Hnn. rewrite Forall_forall in Hnn.
    rewrite Forall_forall in H1, H2, Ha, Hb.
    rewrite Hl, Hl2, !fmap_app, !filter_app.
    rewrite filter_none, filter_all, filter_none; [by rewrite app_nil_r| | |].
    + apply Forall_fmap, Forall_forall. intros nd Hnd. simpl.
      rewrite (in_range_node sl l nd minScore maxScore Hinv) by (apply Hsub; rewrite Hl2; set_solver).
      rewrite (Hb nd Hnd), andb_false_r. done.
    + apply Forall_fmap, Forall_forall. intros nd Hnd. simpl.
      assert (nd ∈ l2) as Hnd2 by (rewrite Hl2; set_solver).
      rewrite (in_range_node sl l nd minScore maxScore Hinv) by (by apply Hsub).
      rewrite (Ha nd Hnd), andb_true_r.
      apply f64_not_lt_le; [by apply Hnn, Hsub|done|by apply H2].
    + apply Forall_fmap, Forall_forall. intros nd Hnd. simpl.
      rewrite (in_range_node sl l nd minScore maxScore Hinv) by (rewrite Hl; set_solver).
      rewrite (f64_lt_not_le _ _ (H1 nd Hnd)). done.
Qed.

Lemma Range_on_chain sl c0 minScore maxScore limit :
  well_formed sl -> is_nan minScore = false -> chain sl 0 = Some c0 ->
  SkipList_Range sl minScore maxScore limit =
    Some (truncate limit
            (filter (fun p => in_range (sl_mem sl) minScore maxScore p = true) c0)) /\
  StronglySorted (elem_lt (sl_mem sl))
    (truncate limit
       (filter (fun p => in_range (sl_mem sl) minScore maxScore p = true) c0)).
Proof.
  intros [l Hinv] Hnan Hc.
  assert (0 < MaxLevel)%nat as H0 by (unfold MaxLevel; lia).
  rewrite (chain_spec sl l 0 Hinv H0) in Hc. injection Hc as <-.
  pose proof (chain0_sorted sl l Hinv) as Hs.
  assert (at_level 0 l = n_ptr <$> l) as E0.
  { apply at_level_0. pose proof (inv_heights _ _ Hinv) as Hh.
    eapply Forall_impl; [exact Hh|]. simpl. intros; lia. }
  rewrite E0 in *.
  destruct (Range_nodes sl l minScore maxScore limit Hinv Hnan)
    as (l1 & la & lb & Hl & Hr & Hf).
  rewrite Hf. split; [done|]. apply StronglySorted_truncate.
  rewrite Hl, !fmap_app in Hs.
  apply StronglySorted_app_1_r in Hs. by apply StronglySorted_app_1_l in Hs.
Qed.

(** C6, as stated, fails in two ways.  At a NaN lower bound no score is
    at least NaN, yet the walk of Range then stops at the head, and Range
    returns the elements from the first one on while their score is at
    most [maxScore].  And on a list that holds a NaN score (after
    inserting 10, NaN and 20 the level-0 chain reads 20, NaN, 10) the
    walk for the bounds 5 and 15 stops at the head, whose successor has
    score 20, and Range returns nothing although the element of score 10
    is in the list. *)
Lemma Range_fails_with_nan :
  (exists sl p,
     sl_run [OpInsert key_a val_1 (f64_of_Z 5)] (NewSkipList rand_flat) = Some sl /\
     chain sl 0 = Some [p] /\
     SkipList_Range sl S754_nan (f64_of_Z 10) 0 = Some [p] /\
     filter (fun q => in_range (sl_mem sl) S754_nan (f64_of_Z 10) q = true) [p] = []) /\
  (exists sl c0 p,
     sl_run nan_ops (NewSkipList rand_flat) = Some sl /\
     chain sl 0 = Some c0 /\
     SkipList_Range sl (f64_of_Z 5) (f64_of_Z 15) 0 = Some [] /\
     filter (fun q => in_range (sl_mem sl) (f64_of_Z 5) (f64_of_Z 15) q = true) c0 = [p]).
Proof.
  split.
  - eexists _, _. split; [vm_compute; reflexivity|].
    split; [vm_compute; reflexivity|]. split; vm_compute; reflexivity.
  - eexists _, _, _. split; [vm_compute; reflexivity|].
    split; [vm_compute; reflexivity|]. split; vm_compute; reflexivity.
Qed.

(** C6, amended: on a list built by Insert and Delete with no NaN score
    given to Insert, and for a [minScore] that is not NaN, Range returns
    the elements of the level-0 chain whose score lies in
    [[minScore, maxScore]], in the order of the chain (ascending in
    (score, key)), cut to the first [limit] of them when [limit] is
    positive.  Range has no write: the list is the same after the call. *)
Theorem Range_returns r ops sl c0 minScore maxScore limit :
  Forall no_nan_insert ops -> sl_run ops (NewSkipList r) = Some sl ->
  is_nan minScore = false -> chain sl 0 = Some c0 ->
  SkipList_Range sl minScore maxScore limit =
    Some (truncate limit
            (filter (fun p => in_range (sl_mem sl) minScore maxScore p = true) c0)) /\
  StronglySorted (elem_lt (sl_mem sl))
    (truncate limit
       (filter (fun p => in_range (sl_mem sl) minScore maxScore p = true) c0)).
Proof.
  intros Hops Hrun. apply Range_on_chain.
  by apply (run_well_formed r ops).
Qed.

Lemma Range_returns_witness :
  exists sl,
    sl_run sample_ops (NewSkipList rand_flat) = Some sl /\
    SkipList_Range sl (f64_of_Z 5) (f64_of_Z 10) 1 = Some [2%nat].
Proof.
  eexists. split; [vm_compute; reflexivity|].
  refine (eq_trans
    (proj1 (Range_returns rand_flat sample_ops _ [2%nat; 3%nat]
              (f64_of_Z 5) (f64_of_Z 10) 1 _ _ _ _)) _);
    [repeat constructor|vm_compute; reflexivity|vm_compute; reflexivity
    |vm_compute; reflexivity|vm_compute; reflexivity].
Defined.

(** ** The store *)

Lemma hits_key key nd :
  n_score nd = score_of (n_key nd) ->
  hits (score_of key) key nd = true <-> n_key nd = key.
Proof.
  intros Hs. unfold hits, keq. rewrite andb_true_iff, bytes_Equal_eq, Hs. split.
  - by intros [_ ?].
  - intros ->. split; [|done]. apply f64_eq_refl, score_of_not_nan.
Qed.

Lemma kv_keys l : (kv <$> l).*1 = n_key <$> l.
Proof. rewrite <- list_fmap_compose. done. Qed.

Lemma keys_NoDup l :
  StronglySorted node_lt l ->
  Forall (fun nd => n_score nd = score_of (n_key nd)) l ->
  NoDup (n_key <$> l).
Proof.
  intros Hs Hsc. induction Hs as [|nd l Hs IH Hnd]; simpl; [constructor|].
  apply Forall_cons in Hsc as [Hn Hsc]. constructor; [|auto].
  intros (x & Hk & Hx)%list_elem_of_fmap.
  rewrite Forall_forall in Hnd, Hsc. specialize (Hnd x Hx). specialize (Hsc x Hx).
  unfold node_lt in Hnd. rewrite Hn, Hsc, Hk in Hnd.
  by rewrite klt_irrefl in Hnd.
Qed.

Lemma store_keys_NoDup s l : store_inv s l -> NoDup (n_key <$> l).
Proof.
  intros [Hinv Hsc]. apply keys_NoDup; [apply (inv_sorted _ _ Hinv)|done].
Qed.

Lemma contents_lookup l k v :
  NoDup (n_key <$> l) ->
  contents l !! k = Some v <-> exists nd, nd ∈ l /\ n_key nd = k /\ n_val nd = v.
Proof.
  intros Hnd. unfold contents. rewrite <- elem_of_list_to_map by (by rewrite kv_keys).
  rewrite list_elem_of_fmap. unfold kv. split.
  - intros (nd & [= -> ->] & ?). eauto.
  - intros (nd & ? & <- & <-). eauto.
Qed.

Lemma contents_None l k :
  contents l !! k = None <-> Forall (fun nd => n_key nd <> k) l.
Proof.
  unfold contents. rewrite <- not_elem_of_list_to_map, kv_keys.
  rewrite list_elem_of_fmap, Forall_forall. naive_solver.
Qed.

Lemma contents_app l1 l2 : contents (l1 ++ l2) = contents l1 ∪ contents l2.
Proof. unfold contents. by rewrite fmap_app, list_to_map_app. Qed.

Lemma contents_cons nd l : contents (nd :: l) = <[n_key nd := n_val nd]> (contents l).
Proof. done. Qed.

Lemma contents_insert_new l1 l2 nd :
  Forall (fun x => n_key x <> n_key nd) l1 ->
  contents (l1 ++ nd :: l2) = <[n_key nd := n_val nd]> (contents (l1 ++ l2)).
Proof.
  intros H1. rewrite !contents_app, contents_cons.
  rewrite insert_union_r; [done|]. by apply contents_None.
Qed.

Lemma entries_of_nodes m l :
  Forall (agrees m) l -> entries_of m (n_ptr <$> l) = Some (kv <$> l).
Proof.
  induction 1 as [|nd l (e & He & Hk & Hv & _) _ IH]; [done|].
  rewrite !fmap_cons. cbn [entries_of]. rewrite He. cbn [mbind option_bind].
  rewrite IH. simpl. unfold kv. by rewrite Hk, Hv.
Qed.

Lemma store_entries_spec s l : store_inv s l -> store_entries s = Some (contents l).
Proof.
  intros [Hinv _]. unfold store_entries.
  rewrite (chain_spec _ l 0 Hinv) by (unfold MaxLevel; lia). simpl.
  rewrite at_level_0.
  - by rewrite (entries_of_nodes _ l (inv_agree _ _ Hinv)).
  - pose proof (inv_heights _ _ Hinv) as Hh. eapply Forall_impl; [exact Hh|].
    simpl. intros; lia.
Qed.

Lemma NewSkiplistKVStore_inv r : store_inv (NewSkiplistKVStore r) [].
Proof. split; [apply NewSkipList_inv|constructor]. Qed.

(** Insert for the store: the list maps [key] to [value] afterwards and
    is otherwise as before. *)
Lemma store_Insert s l key value :
  store_inv s l ->
  exists sl' p l',
    SkipList_Insert (data s) key value (score_of key) = Some (sl', p) /\
    skiplist_inv sl' l' /\
    Forall (fun nd => n_score nd = score_of (n_key nd)) l' /\
    contents l' = <[key := value]> (contents l).
Proof.
  intros Hst. pose proof (store_keys_NoDup s l Hst) as Hnd. destruct Hst as [Hinv Hsc].
  destruct (Insert_cases (data s) l key value (score_of key) Hinv
              (score_of_not_nan key))
    as (sl' & p & l' & Hins & Hinv' & _ & Hcase).
  exists sl', p, l'. split; [done|]. split; [done|].
  destruct Hcase as [(l1 & nd & l2 & e & Hl & Hhit & Hl' & _)
                    |(l1 & l2 & lv & Hl & Hno & Hl' & _)].
  - subst l l'. apply Forall_app in Hsc as [S1 [Sn S2]%Forall_cons].
    apply hits_key in Hhit; [|done].
    split; [apply Forall_app; split; [done|by constructor]|].
    rewrite fmap_app, fmap_cons in Hnd.
    apply NoDup_app in Hnd as (_ & Hd & _).
    assert (Forall (fun x => n_key x <> key) l1) as Hk1.
    { apply Forall_forall. intros x Hx Heq. apply (Hd key); [|set_solver].
      rewrite <- Heq. apply list_elem_of_fmap. eauto. }
    rewrite (contents_insert_new l1 l2 (node_set_val value nd))
      by (simpl; by rewrite Hhit).
    rewrite (contents_insert_new l1 l2 nd) by (by rewrite Hhit).
    simpl. by rewrite Hhit, insert_insert_eq.
  - subst l l'. apply Forall_app in Hsc as [S1 S2].
    split; [apply Forall_app; split; [done|by constructor]|].
    rewrite (contents_insert_new l1 l2 (mkNode p key value (score_of key) lv)); [done|].
    apply Forall_app in Hno as [Hno _]. rewrite Forall_forall in S1, Hno.
    apply Forall_forall. intros x Hx Heq. specialize (Hno x Hx).
    rewrite (proj2 (hits_key key x (S1 x Hx)) Heq) in Hno. done.
Qed.

Lemma Store_Set_spec s l key value :
  store_inv s l ->
  exists s' l', Store_Set s key value = Some s' /\ store_inv s' l' /\
    contents l' = <[key := value]> (contents l) /\
    ttlData s' = delete key (ttlData s).
Proof.
  intros Hst. destruct (store_Insert s l key value Hst)
    as (sl' & p & l' & Hins & Hinv' & Hsc' & Hc).
  unfold Store_Set. rewrite Hins. simpl. eexists _, l'. split; [done|].
  split; [by split|]. done.
Qed.

Lemma Store_SetWithTTL_spec s l now key value ttl :
  store_inv s l ->
  exists s' l', Store_SetWithTTL s now key value ttl = Some s' /\ store_inv s' l' /\
    contents l' = <[key := value]> (contents l) /\
    ttlData s' = <[key := now + ttl]> (ttlData s).
Proof.
  intros Hst. destruct (store_Insert s l key value Hst)
    as (sl' & p & l' & Hins & Hinv' & Hsc' & Hc).
  unfold Store_SetWithTTL. rewrite Hins. simpl. eexists _, l'. split; [done|].
  split; [by split|]. done.
Qed.

Lemma Store_Delete_spec s l key :
  store_inv s l ->
  exists s' b l', Store_Delete s key = Some (s', b) /\ store_inv s' l' /\
    contents l' = delete key (contents l) /\
    ttlData s' = delete key (ttlData s) /\
    (b = false -> data s' = data s /\ contents l !! key = None) /\
    (b = true -> is_Some (contents l !! key) /\
                 sl_length (data s') = sl_length (data s) - 1).
Proof.
  intros Hst. pose proof (store_keys_NoDup s l Hst) as Hnd. destruct Hst as [Hinv Hsc].
  destruct (Delete_cases (data s) l key (score_of key) Hinv)
    as (sl' & b & l' & Hdel & Hinv' & _ & Hcase).
  unfold Store_Delete. rewrite Hdel. simpl. eexists _, b, l'. split; [done|].
  destruct Hcase as [(-> & -> & -> & Hno)|(-> & l1 & nd & l2 & Hl & Hhit & Hl')].
  - assert (contents l !! key = None) as Hk.
    { apply contents_None. rewrite Forall_forall in Hno, Hsc.
      apply Forall_forall. intros x Hx Heq. specialize (Hno x Hx).
      by rewrite (proj2 (hits_key key x (Hsc x Hx)) Heq) in Hno. }
    split; [by split|]. split; [by rewrite delete_id|]. split; [done|].
    split; [done|]. intros [=].
  - subst l l'. apply Forall_app in Hsc as [S1 [Sn S2]%Forall_cons].
    apply hits_key in Hhit; [|done].
    split; [split; [done|by apply Forall_app]|].
    rewrite fmap_app, fmap_cons in Hnd.
    apply NoDup_app in Hnd as (_ & Hd & [Hn2 _]%NoDup_cons).
    assert (contents l1 !! key = None) as Hk1.
    { apply contents_None, Forall_forall. intros x Hx Heq.
      apply (Hd key); [|set_solver]. rewrite <- Heq. apply list_elem_of_fmap. eauto. }
    assert (contents l2 !! key = None) as Hk2.
    { apply contents_None, Forall_forall. intros x Hx Heq. apply Hn2.
      rewrite Hhit, <- Heq. apply list_elem_of_fmap. eauto. }
    split.
    { rewrite !contents_app, contents_cons, delete_union, Hhit.
      by rewrite delete_insert_eq, !delete_id. }
    split; [done|]. split; [intros [=]|]. intros _. split.
    + rewrite contents_app, contents_cons, Hhit.
      rewrite lookup_union_r by done. rewrite lookup_insert_eq. eauto.
    + simpl. rewrite (inv_length _ _ Hinv'), (inv_length _ _ Hinv), !length_app.
      simpl. lia.
Qed.

Lemma Store_Get_spec s l now key :
  store_inv s l -> expired_for_Get s now key = false ->
  Store_Get s now key =
    Some (s, match contents l !! key with
             | Some v => inl v
             | None => inr ErrKeyNotFound
             end, []).
Proof.
  intros Hst Hexp. pose proof (store_keys_NoDup s l Hst) as Hnd.
  destruct Hst as [Hinv Hsc]. unfold Store_Get. rewrite Hexp.
  destruct (contents l !! key) as [v|] eqn:Hc.
  - apply contents_lookup in Hc as (nd & Hin & Hk & Hv); [|done].
    rewrite Forall_forall in Hsc.
    rewrite (Search_found (data s) l key (score_of key) nd Hinv Hin)
      by (by apply hits_key; auto).
    simpl. destruct (node_lookup _ l Hinv nd Hin) as (e & -> & _ & Hve & _).
    simpl. by rewrite Hve, Hv.
  - apply contents_None in Hc.
    rewrite (Search_absent (data s) l key (score_of key) Hinv); [done|].
    rewrite Forall_forall in Hc, Hsc. apply Forall_forall. intros x Hx.
    destruct (hits (score_of key) key x) eqn:E; [|done].
    apply hits_key in E; [|by apply Hsc]. by apply Hc in E.
Qed.

Lemma reachable_inv s : reachable s -> exists l, store_inv s l.
Proof.
  induction 1 as [r|s key value s' _ [l Hl] Hset
                 |s now key value ttl s' _ [l Hl] Hset
                 |s key s' b _ [l Hl] Hdel].
  - exists []. apply NewSkiplistKVStore_inv.
  - destruct (Store_Set_spec s l key value Hl) as (s1 & l' & Hs1 & ? & _).
    exists l'. congruence.
  - destruct (Store_SetWithTTL_spec s l now key value ttl Hl) as (s1 & l' & Hs1 & ? & _).
    exists l'. congruence.
  - destruct (Store_Delete_spec s l key Hl) as (s1 & b1 & l' & Hs1 & ? & _).
    exists l'. congruence.
Qed.

(** ** The reaper and the spawned tasks stay within the reachable states *)

Lemma Store_Delete_reachable s key :
  reachable s -> exists s' b, Store_Delete s key = Some (s', b) /\ reachable s'.
Proof.
  intros Hr. destruct (reachable_inv s Hr) as [l Hst].
  destruct (Store_Delete_spec s l key Hst) as (s' & b & l' & Hdel & _).
  exists s', b. split; [done|]. by eapply reach_Delete.
Qed.

Lemma run_goroutine_reachable g s :
  reachable s -> exists s', run_goroutine g s = Some s' /\ reachable s'.
Proof.
  intros Hr. destruct g as [key].
  destruct (Store_Delete_reachable s key Hr) as (s' & b & Hdel & Hr').
  exists s'. simpl. by rewrite Hdel.
Qed.

Lemma delete_all_reachable keys :
  forall s, reachable s -> exists s', delete_all keys s = Some s' /\ reachable s'.
Proof.
  induction keys as [|key keys IH]; intros s Hr; simpl; [eauto|].
  destruct (Store_Delete_reachable s key Hr) as (s1 & b & -> & Hr1). simpl.
  by apply IH.
Qed.

Lemma Store_cleanExpiredKeys_reachable s now :
  reachable s ->
  exists s', Store_cleanExpiredKeys s now = Some s' /\ reachable s'.
Proof. apply delete_all_reachable. Qed.

(** ** Properties of the store *)

(** C1: on every state of the store, Set(key, value) returns, and a Get
    of the same key right after it, whatever the clock, returns the value
    with no error, starts no task and leaves the store as it is. *)
Theorem Set_then_Get s key value :
  reachable s ->
  exists s', Store_Set s key value = Some s' /\
    forall now, Store_Get s' now key = Some (s', inl value, []).
Proof.
  intros [l Hst]%reachable_inv.
  destruct (Store_Set_spec s l key value Hst) as (s' & l' & Hset & Hst' & Hc & Httl).
  exists s'. split; [done|]. intros now.
  rewrite (Store_Get_spec s' l' now key Hst').
  - by rewrite Hc, lookup_insert_eq.
  - unfold expired_for_Get. by rewrite Httl, lookup_delete_eq.
Qed.

Lemma Set_then_Get_witness :
  reachable (NewSkiplistKVStore rand_flat) /\
  exists s', Store_Set (NewSkiplistKVStore rand_flat) key_a val_1 = Some s' /\
    forall now, Store_Get s' now key_a = Some (s', inl val_1, []).
Proof.
  split; [apply reach_New|].
  apply (Set_then_Get (NewSkiplistKVStore rand_flat) key_a val_1), reach_New.
Defined.

(** C3: when the TTL table has an entry for the key and its instant is
    before the clock, Get reports "not found" at once, starts one task, a
    Delete of the key, and returns with the store unchanged: the element
    is still in the skip list until that task runs. *)
Theorem Get_expired_spawns_Delete s now key expiry :
  ttlData s !! key = Some expiry -> expiry < now ->
  Store_Get s now key = Some (s, inr ErrKeyNotFound, [GoDelete key]) /\
  forall s0, run_goroutine (GoDelete key) s0 = fst <$> Store_Delete s0 key.
Proof.
  intros Httl Hexp. split; [|done]. unfold Store_Get, expired_for_Get.
  rewrite Httl. by rewrite (proj2 (Z.ltb_lt expiry now) Hexp).
Qed.

Lemma Get_expired_spawns_Delete_witness :
  ttlData sample_expiring !! key_a = Some 5 /\ 5 < 10 /\
  Store_Get sample_expiring 10 key_a
    = Some (sample_expiring, inr ErrKeyNotFound, [GoDelete key_a]) /\
  Store_Size sample_expiring = 1.
Proof.
  assert (ttlData sample_expiring !! key_a = Some 5) as H1 by (vm_compute; reflexivity).
  assert (5 < 10) as H2 by lia.
  split; [exact H1|]. split; [exact H2|].
  split; [exact (proj1 (Get_expired_spawns_Delete sample_expiring 10 key_a 5 H1 H2))|].
  vm_compute. reflexivity.
Defined.

(** C5: on every state of the store in which the key is absent, Delete
    returns false and leaves the skip list, hence Size, as it was. *)
Theorem Delete_absent_key s ents key :
  reachable s -> store_entries s = Some ents -> ents !! key = None ->
  exists s', Store_Delete s key = Some (s', false) /\
    data s' = data s /\ Store_Size s' = Store_Size s.
Proof.
  intros [l Hst]%reachable_inv Hents Hk.
  rewrite (store_entries_spec s l Hst) in Hents. injection Hents as <-.
  destruct (Store_Delete_spec s l key Hst) as (s' & b & l' & Hdel & _ & _ & _ & Hf & Ht).
  destruct b.
  - destruct (Ht eq_refl) as [[v Hv] _]. congruence.
  - destruct (Hf eq_refl) as [Hd _]. exists s'. split; [done|]. split; [done|].
    unfold Store_Size. by rewrite Hd.
Qed.

Lemma Delete_absent_key_witness :
  reachable (NewSkiplistKVStore rand_flat) /\
  store_entries (NewSkiplistKVStore rand_flat) = Some ∅ /\
  (∅ : gmap bytes bytes) !! key_a = None /\
  exists s', Store_Delete (NewSkiplistKVStore rand_flat) key_a = Some (s', false) /\
    data s' = data (NewSkiplistKVStore rand_flat) /\
    Store_Size s' = Store_Size (NewSkiplistKVStore rand_flat).
Proof.
  assert (store_entries (NewSkiplistKVStore rand_flat) = Some ∅) as H
    by (vm_compute; reflexivity).
  split; [apply reach_New|]. split; [exact H|]. split; [apply lookup_empty|].
  exact (Delete_absent_key (NewSkiplistKVStore rand_flat) ∅ key_a
           (reach_New rand_flat) H (lookup_empty key_a)).
Defined.

(** C7: on every state of the store, after Set(key, value) the TTL table
    has no entry for the key, whatever it held before, and GetTTL of the
    key reports no TTL. *)
Theorem Set_clears_TTL s key value :
  reachable s ->
  exists s', Store_Set s key value = Some s' /\
    ttlData s' !! key = None /\
    forall now, Store_GetTTL s' now key = (s', (0, false)).
Proof.
  intros [l Hst]%reachable_inv.
  destruct (Store_Set_spec s l key value Hst) as (s' & l' & Hset & _ & _ & Httl).
  exists s'. split; [done|].
  assert (ttlData s' !! key = None) as Hk by (by rewrite Httl, lookup_delete_eq).
  split; [done|]. intros now. unfold Store_GetTTL. by rewrite Hk.
Qed.

Lemma sample_expiring_reachable : reachable sample_expiring.
Proof.
  apply (reach_SetWithTTL (NewSkiplistKVStore rand_flat) 0 key_a val_1 5);
    [apply reach_New|vm_compute; reflexivity].
Qed.

Lemma Set_clears_TTL_witness :
  reachable sample_expiring /\ ttlData sample_expiring !! key_a = Some 5 /\
  exists s', Store_Set sample_expiring key_a val_2 = Some s' /\
    ttlData s' !! key_a = None /\
    forall now, Store_GetTTL s' now key_a = (s', (0, false)).
Proof.
  split; [exact sample_expiring_reachable|].
  split; [vm_compute; reflexivity|].
  exact (Set_clears_TTL sample_expiring key_a val_2 sample_expiring_reachable).
Defined.

(** C10: GetTTL returns the store it was given, for every key and clock;
    when the key has no TTL entry, or one whose instant is not after the
    clock, it reports (0, false) and, unlike Get, starts no Delete: the
    element and the stale entry stay. *)
Theorem GetTTL_leaves_store s now key :
  fst (Store_GetTTL s now key) = s /\
  (match ttlData s !! key with
   | Some expiry => expiry <= now
   | None => True
   end -> snd (Store_GetTTL s now key) = (0, false)).
Proof.
  unfold Store_GetTTL, time_Until. destruct (ttlData s !! key) as [expiry|]; [|done].
  split.
  - by destruct (_ <=? 0).
  - intros Hexp. destruct (_ <=? 0) eqn:E; [done|]. apply Z.leb_gt in E. lia.
Qed.

Lemma GetTTL_leaves_store_witness :
  ttlData sample_expiring !! key_a = Some 5 /\
  Store_GetTTL sample_expiring 10 key_a = (sample_expiring, (0, false)) /\
  Store_Size sample_expiring = 1.
Proof.
  pose proof (GetTTL_leaves_store sample_expiring 10 key_a) as [H1 H2].
  assert (ttlData sample_expiring !! key_a = Some 5) as Hk by (vm_compute; reflexivity).
  rewrite Hk in H2. specialize (H2 ltac:(lia)).
  split; [exact Hk|]. split; [|vm_compute; reflexivity].
  destruct (Store_GetTTL sample_expiring 10 key_a) as [s' r]. simpl in *. congruence.
Defined.

(** ** Scan *)

Lemma insert_all_contents ns res :
  NoDup (n_key <$> ns) -> insert_all ns res = contents ns ∪ res.
Proof.
  revert res. induction ns as [|nd ns IH]; intros res Hnd; simpl.
  - symmetry. apply (left_id_L (∅ : gmap bytes bytes) (∪)).
  - rewrite fmap_cons in Hnd. apply NoDup_cons in Hnd as [Hn Hnd].
    rewrite IH by done. rewrite contents_cons, <- insert_union_l.
    rewrite insert_union_r; [done|].
    apply contents_None, Forall_forall. intros x Hx Heq. apply Hn.
    rewrite <- Heq. apply list_elem_of_fmap. eauto.
Qed.

Lemma scan_loop_nodes m ttl now prefix limit l :
  forall x count result fuel,
  linked m 0 x (n_ptr <$> l) -> Forall (agrees m) l ->
  (length l < fuel)%nat -> (0 < limit -> count <= limit) ->
  scan_loop fuel m ttl now prefix limit (head (n_ptr <$> l)) count result =
  Some (insert_all
          (let keep := filter (fun nd => scan_keeps ttl now prefix (kv nd)) l in
           if 0 <? limit then take (Z.to_nat (limit - count)) keep else keep)
          result).
Proof.
  induction l as [|nd l IH]; intros x count result fuel Hl Hag Hfuel Hlim.
  - destruct fuel; [simpl in Hfuel; lia|]. simpl. f_equal.
    rewrite filter_nil. destruct (0 <? limit); by rewrite ?take_nil.
  - destruct fuel as [|fuel]; [simpl in Hfuel; lia|]. cbv zeta.
    rewrite fmap_cons in Hl. simpl in Hl, Hfuel. destruct Hl as [_ Hl].
    apply Forall_cons in Hag as [(e & He & Hk & Hv & _) Hag].
    rewrite fmap_cons. cbn [head scan_loop].
    destruct ((limit <=? 0) || (count <? limit)) eqn:Hc.
    + rewrite He. cbn [mbind option_bind].
      pose proof (linked_next _ _ _ _ Hl) as Hnx. unfold get_Next in Hnx.
      rewrite He in Hnx. cbn [mbind option_bind] in Hnx. rewrite Hnx.
      cbn [mbind option_bind]. rewrite Hk, Hv.
      assert (0 < limit -> count < limit) as Hlt.
      { intros H0. apply orb_true_iff in Hc as [Hc|Hc].
        - apply Z.leb_le in Hc. lia.
        - by apply Z.ltb_lt in Hc. }
      rewrite filter_cons.
      destruct (decide (scan_keeps ttl now prefix (kv nd))) as [[Hp Hv']|Hno].
      * simpl in Hp, Hv'. rewrite Hp, Hv'. simpl.
        rewrite (IH (n_ptr nd) (count + 1) _ fuel Hl Hag) by lia.
        f_equal. destruct (0 <? limit) eqn:H0; [|done].
        apply Z.ltb_lt in H0. specialize (Hlt H0).
        replace (Z.to_nat (limit - count))
          with (S (Z.to_nat (limit - (count + 1)))) by lia.
        done.
      * assert (bytes_HasPrefix (n_key nd) prefix
                && live_for_Scan ttl now (n_key nd) = false) as ->.
        { apply not_true_is_false. intros [? ?]%andb_true_iff. by apply Hno. }
        rewrite (IH (n_ptr nd) count _ fuel Hl Hag) by lia. done.
    + apply orb_false_iff in Hc as [H0 H1].
      apply Z.leb_gt in H0. apply Z.ltb_ge in H1.
      rewrite (proj2 (Z.ltb_lt 0 limit) H0).
      replace (Z.to_nat (limit - count)) with 0%nat by (specialize (Hlim H0); lia).
      by rewrite take_0.
Qed.

Lemma keys_NoDup_sublist (l1 l2 : list node) :
  l1 `sublist_of` l2 -> NoDup (n_key <$> l2) -> NoDup (n_key <$> l1).
Proof.
  induction 1 as [|x l1 l2 Hsub IH|x l1 l2 Hsub IH]; rewrite ?fmap_cons.
  - done.
  - intros [Hx Hnd]%NoDup_cons. apply NoDup_cons. split; [|auto].
    intros (y & Hy & Hin)%list_elem_of_fmap. apply Hx. apply list_elem_of_fmap.
    exists y. split; [done|]. by apply (sublist_subseteq _ _ Hsub).
  - intros [_ Hnd]%NoDup_cons. auto.
Qed.

Lemma contents_filter (P : bytes * bytes -> Prop) `{!forall x, Decision (P x)} l :
  NoDup (n_key <$> l) ->
  contents (filter (fun nd => P (kv nd)) l) = filter P (contents l).
Proof.
  intros Hnd. apply map_eq. intros k. apply option_eq. intros v.
  rewrite contents_lookup
    by (eapply keys_NoDup_sublist; [apply sublist_filter|done]).
  rewrite map_lookup_filter_Some, contents_lookup by done.
  setoid_rewrite list_elem_of_filter. unfold kv. split.
  - intros (nd & [HP Hin] & <- & <-). eauto.
  - intros [(nd & Hin & <- & <-) HP]. eauto.
Qed.

Lemma contents_size l : NoDup (n_key <$> l) -> size (contents l) = length l.
Proof.
  intros Hnd. unfold contents. rewrite map_size_list_to_map by (by rewrite kv_keys).
  by rewrite length_fmap.
Qed.

Lemma contents_take_subseteq n l :
  NoDup (n_key <$> l) -> contents (take n l) ⊆ contents l.
Proof.
  intros Hnd. apply map_subseteq_spec. intros k v.
  assert (NoDup (n_key <$> take n l)) as Hnd'
    by (eapply keys_NoDup_sublist; [apply sublist_take|done]).
  intros (nd & Hin & ?)%(contents_lookup _ _ _ Hnd').
  apply (contents_lookup _ _ _ Hnd). exists nd. split; [|done].
  revert Hin. apply subseteq_take.
Qed.

Lemma Store_Scan_spec s l now prefix limit :
  store_inv s l ->
  Store_Scan s now prefix limit =
    Some (contents
            (let keep := filter (fun nd => scan_keeps (ttlData s) now prefix (kv nd)) l in
             if 0 <? limit then take (Z.to_nat limit) keep else keep)).
Proof.
  intros Hst. pose proof (store_keys_NoDup s l Hst) as Hnd. destruct Hst as [Hinv _].
  assert (0 < MaxLevel)%nat as H0 by (unfold MaxLevel; lia).
  pose proof (inv_links _ _ Hinv 0%nat H0) as Hl.
  assert (at_level 0 l = n_ptr <$> l) as E0.
  { apply at_level_0. pose proof (inv_heights _ _ Hinv) as Hh.
    eapply Forall_impl; [exact Hh|]. simpl. intros; lia. }
  rewrite E0 in Hl.
  unfold Store_Scan, SkipList_First. rewrite (linked_next _ _ _ _ Hl).
  cbn [mbind option_bind].
  rewrite (scan_loop_nodes _ _ _ _ _ l (sl_head (data s)) 0 ∅ _ Hl (inv_agree _ _ Hinv)).
  - f_equal. cbv zeta. rewrite Z.sub_0_r. rewrite insert_all_contents.
    + apply (right_id_L ∅ (∪)).
    + eapply keys_NoDup_sublist; [|exact Hnd].
      destruct (0 <? limit); [|apply sublist_filter].
      etrans; [apply sublist_take|apply sublist_filter].
  - pose proof (at_level_length _ l Hinv 0) as Hlen.
    rewrite E0, length_fmap in Hlen. lia.
  - lia.
Qed.

Lemma Scan_scenario r X Y Z now :
  exists s1 s2 s3,
    Store_Set (NewSkiplistKVStore r) user_1 X = Some s1 /\
    Store_Set s1 user_2 Y = Some s2 /\
    Store_Set s2 order_1 Z = Some s3 /\
    Store_Scan s3 now user_prefix 0 = Some (<[user_2 := Y]> (<[user_1 := X]> ∅)).
Proof.
  destruct (Store_Set_spec _ [] user_1 X (NewSkiplistKVStore_inv r))
    as (s1 & l1 & H1 & I1 & C1 & T1).
  destruct (Store_Set_spec s1 l1 user_2 Y I1) as (s2 & l2 & H2 & I2 & C2 & T2).
  destruct (Store_Set_spec s2 l2 order_1 Z I2) as (s3 & l3 & H3 & I3 & C3 & T3).
  exists s1, s2, s3. split; [done|]. split; [done|]. split; [done|].
  rewrite (Store_Scan_spec s3 l3 now user_prefix 0 I3). cbv zeta. f_equal.
  change (0 <? 0) with false. cbv iota.
  rewrite (contents_filter (scan_keeps (ttlData s3) now user_prefix))
    by (by eapply store_keys_NoDup).
  rewrite C3, C2, C1, T3, T2, T1. simpl ttlData.
  change (contents []) with (∅ : gmap bytes bytes).
  rewrite !delete_empty.
  rewrite map_filter_insert_False.
  2:{ intros [Hp _]. vm_compute in Hp. discriminate. }
  rewrite delete_insert_ne by discriminate.
  rewrite delete_insert_ne by discriminate. rewrite delete_empty.
  rewrite map_filter_insert_True by (split; vm_compute; reflexivity).
  rewrite map_filter_insert_True by (split; vm_compute; reflexivity).
  by rewrite map_filter_empty.
Qed.

Lemma scan_keeps_wants ttl now prefix entry :
  scan_keeps ttl now prefix entry <-> scan_wants ttl now prefix entry.
Proof.
  unfold scan_keeps, scan_wants, live_for_Scan. rewrite bytes_HasPrefix_spec.
  destruct (ttl !! entry.1) as [expiry|].
  - rewrite Z.ltb_lt. split.
    + intros [Hp Hlt]. split; [done|]. by intros e [= <-].
    + intros [Hp H]. split; [done|]. by apply H.
  - split; intros [Hp _]; (split; [done|]); [by intros e ?|done].
Qed.

(** C8: on every state of the store, Scan returns entries of the store
    whose key starts with the prefix and whose TTL, if any, has not passed
    (the key has no TTL entry, or the clock is before the instant of its
    entry): all of them when [limit] is 0 (or negative), and [limit] of
    them, or all if there are fewer, when [limit] is positive.  After Set
    of "user:1", "user:2" and "order:1" on a new store, Scan("user:", 0)
    returns the two user entries and nothing else. *)
Theorem Scan_returns :
  (forall s now prefix limit ents,
     reachable s -> store_entries s = Some ents ->
     exists m, Store_Scan s now prefix limit = Some m /\
       m ⊆ filter (scan_wants (ttlData s) now prefix) ents /\
       (limit <= 0 -> m = filter (scan_wants (ttlData s) now prefix) ents) /\
       (0 < limit ->
        size m = Nat.min (Z.to_nat limit)
                   (size (filter (scan_wants (ttlData s) now prefix) ents)))) /\
  (forall r X Y Z now,
     exists s1 s2 s3,
       Store_Set (NewSkiplistKVStore r) user_1 X = Some s1 /\
       Store_Set s1 user_2 Y = Some s2 /\
       Store_Set s2 order_1 Z = Some s3 /\
       Store_Scan s3 now user_prefix 0 = Some (<[user_2 := Y]> (<[user_1 := X]> ∅))).
Proof.
  split; [|apply Scan_scenario].
  intros s now prefix limit ents [l Hst]%reachable_inv Hents.
  rewrite (store_entries_spec s l Hst) in Hents. injection Hents as <-.
  pose proof (store_keys_NoDup s l Hst) as Hnd.
  assert (filter (scan_wants (ttlData s) now prefix) (contents l)
          = filter (scan_keeps (ttlData s) now prefix) (contents l)) as ->.
  { apply map_filter_ext. intros k v _. symmetry. apply scan_keeps_wants. }
  rewrite (Store_Scan_spec s l now prefix limit Hst). cbv zeta.
  rewrite <- (contents_filter (scan_keeps (ttlData s) now prefix) l Hnd).
  set (keep := filter (fun nd => scan_keeps (ttlData s) now prefix (kv nd)) l).
  assert (NoDup (n_key <$> keep)) as Hk
    by (eapply keys_NoDup_sublist; [apply sublist_filter|done]).
  eexists. split; [done|]. destruct (0 <? limit) eqn:E.
  - apply Z.ltb_lt in E. split; [by apply contents_take_subseteq|].
    split; [lia|]. intros _. rewrite !contents_size; [by rewrite length_take|done|].
    eapply keys_NoDup_sublist; [apply sublist_take|done].
  - apply Z.ltb_ge in E. split; [done|]. split; [done|]. lia.
Qed.

Lemma sample_store_reachable : reachable sample_store.
Proof.
  apply (reach_Set (NewSkiplistKVStore rand_flat) key_a val_1);
    [apply reach_New|vm_compute; reflexivity].
Qed.

Lemma sample_mixed_reachable : reachable sample_mixed.
Proof.
  apply (reach_Set sample_expiring key_b val_2);
    [exact sample_expiring_reachable|vm_compute; reflexivity].
Qed.

Lemma Scan_returns_witness :
  reachable sample_mixed /\
  store_entries sample_mixed = Some sample_mixed_entries /\
  ttlData sample_mixed = <[key_a := 5]> ∅ /\
  Store_Scan sample_mixed 4 [] 0 = Some sample_mixed_entries /\
  Store_Scan sample_mixed 5 [] 0 = Some (<[key_b := val_2]> ∅) /\
  Store_Scan sample_mixed 9 key_a 0 = Some ∅ /\
  Store_Scan sample_mixed 4 key_a 0 = Some (<[key_a := val_1]> ∅) /\
  exists m, Store_Scan sample_mixed 4 [] 1 = Some m /\ size m = 1%nat.
Proof.
  assert (store_entries sample_mixed = Some sample_mixed_entries) as H
    by (vm_compute; reflexivity).
  pose proof sample_mixed_reachable as Hr.
  split; [exact Hr|]. split; [exact H|]. split; [vm_compute; reflexivity|].
  split; [|split; [|split; [|split]]].
  - destruct (proj1 Scan_returns sample_mixed 4 [] 0 _ Hr H) as (m & Hm & _ & Heq & _).
    rewrite Hm, (Heq ltac:(lia)). vm_compute. reflexivity.
  - destruct (proj1 Scan_returns sample_mixed 5 [] 0 _ Hr H) as (m & Hm & _ & Heq & _).
    rewrite Hm, (Heq ltac:(lia)). vm_compute. reflexivity.
  - destruct (proj1 Scan_returns sample_mixed 9 key_a 0 _ Hr H) as (m & Hm & _ & Heq & _).
    rewrite Hm, (Heq ltac:(lia)). vm_compute. reflexivity.
  - destruct (proj1 Scan_returns sample_mixed 4 key_a 0 _ Hr H) as (m & Hm & _ & Heq & _).
    rewrite Hm, (Heq ltac:(lia)). vm_compute. reflexivity.
  - destruct (proj1 Scan_returns sample_mixed 4 [] 1 _ Hr H) as (m & Hm & _ & _ & Hsize).
    exists m. split; [exact Hm|]. rewrite (Hsize ltac:(lia)). vm_compute. reflexivity.
Defined.

Lemma nodes_of_nodes m l :
  Forall (agrees m) l -> nodes_of m (n_ptr <$> l) = Some l.
Proof.
  induction 1 as [|nd l (e & He & Hk & Hv & Hs & Hh) _ IH]; [done|].
  rewrite fmap_cons. cbn [nodes_of]. rewrite He. cbn [mbind option_bind].
  rewrite IH. cbn [fmap option_fmap option_map]. f_equal.
  destruct nd; simpl in *. by subst.
Qed.

Lemma inv_at_level_0 sl l : skiplist_inv sl l -> at_level 0 l = n_ptr <$> l.
Proof.
  intros Hinv. apply at_level_0. pose proof (inv_heights _ _ Hinv) as Hh.
  eapply Forall_impl; [exact Hh|]. simpl. intros; lia.
Qed.

Lemma sl_nodes_spec sl l : skiplist_inv sl l -> sl_nodes sl = Some l.
Proof.
  intros Hinv. unfold sl_nodes.
  rewrite (chain_spec sl l 0 Hinv) by (unfold MaxLevel; lia).
  cbn [mbind option_bind]. rewrite (inv_at_level_0 sl l Hinv).
  apply nodes_of_nodes, (inv_agree _ _ Hinv).
Qed.

Lemma run_inv r ops sl :
  Forall no_nan_insert ops -> sl_run ops (NewSkipList r) = Some sl ->
  exists l, skiplist_inv sl l /\ sl_nodes sl = Some l.
Proof.
  intros Hops Hrun.
  destruct (sl_run_inv ops (NewSkipList r) [] (NewSkipList_inv r) Hops)
    as (sl' & l & Hrun' & Hinv).
  assert (sl' = sl) as -> by congruence.
  exists l. split; [done|]. by apply sl_nodes_spec.
Qed.

Lemma run_nodes_inv r ops sl l :
  Forall no_nan_insert ops -> sl_run ops (NewSkipList r) = Some sl ->
  sl_nodes sl = Some l -> skiplist_inv sl l.
Proof.
  intros Hops Hrun Hn. destruct (run_inv r ops sl Hops Hrun) as (l' & Hinv & Hn').
  by assert (l' = l) as -> by congruence.
Qed.

(** At most one node of a sorted list holds a given pair. *)
Lemma hits_unique score key l a b :
  StronglySorted node_lt l -> a ∈ l -> b ∈ l ->
  hits score key a = true -> hits score key b = true -> a = b.
Proof.
  intros Hs Ha Hb Hha Hhb.
  destruct (split_at_target score key l Hs) as (l1 & l2 & _ & _ & _ & Hfirst).
  pose proof (Hfirst a Ha Hha) as E1. pose proof (Hfirst b Hb Hhb) as E2. congruence.
Qed.

Lemma filter_hits_mid score key l1 nd l2 :
  StronglySorted node_lt (l1 ++ nd :: l2) -> NoDup (n_ptr <$> l1 ++ nd :: l2) ->
  hits score key nd = true ->
  Forall (fun x => hits score key x = false) (l1 ++ l2).
Proof.
  intros Hs Hnd Hhit. apply Forall_forall. intros x Hx.
  apply not_true_is_false. intros Hhx.
  assert (x = nd) as ->.
  { apply (hits_unique score key (l1 ++ nd :: l2)); auto; set_solver. }
  rewrite fmap_app, fmap_cons in Hnd.
  apply NoDup_app in Hnd as (_ & Hd & [Hn _]%NoDup_cons).
  apply elem_of_app in Hx as [Hx|Hx].
  - apply (Hd (n_ptr nd)); [by apply list_elem_of_fmap_2|set_solver].
  - apply Hn. by apply list_elem_of_fmap_2.
Qed.

Lemma sample_list_run : sl_run sample_ops (NewSkipList rand_flat) = Some sample_list.
Proof. vm_compute. reflexivity. Qed.

Lemma sample_ops_no_nan : Forall no_nan_insert sample_ops.
Proof. repeat constructor. Qed.

(** ** Search, Insert and Delete on the elements of a list *)

(** X1: on a list built by Insert and Delete with no NaN score given to
    Insert, Search returns the element of the level-0 chain that holds the
    pair (score, key), and nil when there is none. *)
Theorem Search_finds r ops sl l key score :
  Forall no_nan_insert ops -> sl_run ops (NewSkipList r) = Some sl ->
  sl_nodes sl = Some l ->
  SkipList_Search sl key score =
    Some (n_ptr <$> head (filter (fun nd => hits score key nd = true) l)).
Proof.
  intros Hops Hrun Hn. pose proof (run_nodes_inv r ops sl l Hops Hrun Hn) as Hinv.
  destruct (filter (fun nd => hits score key nd = true) l) as [|nd rest] eqn:Hf.
  - apply (Search_absent sl l); [done|]. apply Forall_forall. intros nd Hnd.
    apply not_true_is_false. intros Hh.
    assert (nd ∈ filter (fun nd => hits score key nd = true) l) as Hin
      by (by apply list_elem_of_filter).
    rewrite Hf in Hin. by apply elem_of_nil in Hin.
  - assert (nd ∈ filter (fun nd => hits score key nd = true) l) as Hin
      by (rewrite Hf; apply list_elem_of_here).
    apply list_elem_of_filter in Hin as [Hh Hin].
    by apply (Search_found sl l).
Qed.

Lemma Search_finds_witness :
  SkipList_Search sample_list key_c (f64_of_Z 20) = Some (Some 3%nat) /\
  SkipList_Search sample_list key_a (f64_of_Z 10) = Some None.
Proof.
  assert (sl_nodes sample_list =
          Some [mkNode 2 key_b val_2 (f64_of_Z 5) 1; mkNode 3 key_c val_3 (f64_of_Z 20) 1])
    as Hn by (vm_compute; reflexivity).
  split.
  - rewrite (Search_finds rand_flat sample_ops sample_list _ key_c (f64_of_Z 20)
               sample_ops_no_nan sample_list_run Hn).
    vm_compute. reflexivity.
  - rewrite (Search_finds rand_flat sample_ops sample_list _ key_a (f64_of_Z 10)
               sample_ops_no_nan sample_list_run Hn).
    vm_compute. reflexivity.
Defined.

(** X2: on such a list, Insert of a pair (score, key) that no element holds,
    with a score that is not NaN, links one new element: it returns a
    fresh cell holding key, value and score, with between 1 and [MaxLevel]
    levels; the elements of the list are those it had, in their order,
    with the new one at its place in the order; the length grows by one
    and Search then finds the new element. *)
Theorem Insert_adds r ops sl l key value score :
  Forall no_nan_insert ops -> sl_run ops (NewSkipList r) = Some sl ->
  sl_nodes sl = Some l -> is_nan score = false ->
  Forall (fun nd => hits score key nd = false) l ->
  exists sl' l1 l2 h,
    SkipList_Insert sl key value score = Some (sl', length (sl_mem sl)) /\
    l = l1 ++ l2 /\
    sl_nodes sl' = Some (l1 ++ mkNode (length (sl_mem sl)) key value score h :: l2) /\
    StronglySorted node_lt (l1 ++ mkNode (length (sl_mem sl)) key value score h :: l2) /\
    (1 <= h <= MaxLevel)%nat /\
    Forall (fun nd => n_ptr nd < length (sl_mem sl))%nat l /\
    SkipList_Length sl' = SkipList_Length sl + 1 /\
    SkipList_Search sl' key score = Some (Some (length (sl_mem sl))).
Proof.
  intros Hops Hrun Hn Hnan Hno.
  pose proof (run_nodes_inv r ops sl l Hops Hrun Hn) as Hinv.
  destruct (Insert_cases sl l key value score Hinv Hnan)
    as (sl' & p & l' & Hins & Hinv' & _ & [Hhit|Hmiss]).
  - destruct Hhit as (l1 & nd & l2 & e & -> & Hh & _).
    rewrite Forall_forall in Hno. rewrite Hno in Hh by set_solver. done.
  - destruct Hmiss as (l1 & l2 & lv & -> & _ & -> & -> & Hlen).
    exists sl', l1, l2, lv. split; [done|]. split; [done|].
    split; [by apply sl_nodes_spec|]. split; [apply (inv_sorted _ _ Hinv')|].
    split.
    { pose proof (inv_heights _ _ Hinv') as Hh. pose proof (inv_level _ _ Hinv').
      apply Forall_app in Hh as [_ [Hh _]%Forall_cons]. simpl in Hh. lia. }
    split.
    { pose proof (ptrs_lt sl _ Hinv) as Hlt. by rewrite Forall_fmap in Hlt. }
    split; [done|].
    apply (Search_found sl' _ key score
             (mkNode (length (sl_mem sl)) key value score lv) Hinv'); [set_solver|].
    unfold hits, keq. simpl. rewrite f64_eq_refl by done.
    by apply bytes_Equal_eq.
Qed.

Lemma Insert_adds_witness :
  exists sl',
    SkipList_Insert sample_list key_a val_1 (f64_of_Z 10)
      = Some (sl', length (sl_mem sample_list)) /\
    sl_nodes sl' =
      Some [mkNode 2 key_b val_2 (f64_of_Z 5) 1; mkNode 4 key_a val_1 (f64_of_Z 10) 1;
            mkNode 3 key_c val_3 (f64_of_Z 20) 1].
Proof.
  destruct (Insert_adds rand_flat sample_ops sample_list
              [mkNode 2 key_b val_2 (f64_of_Z 5) 1; mkNode 3 key_c val_3 (f64_of_Z 20) 1]
              key_a val_1 (f64_of_Z 10) sample_ops_no_nan sample_list_run)
    as (sl' & l1 & l2 & h & Hins & _).
  - vm_compute. reflexivity.
  - reflexivity.
  - repeat constructor.
  - exists sl'. split; [exact Hins|].
    vm_compute in Hins. injection Hins as <-. vm_compute. reflexivity.
Defined.

(** X3: on such a list, Delete returns true exactly when an element holds the
    pair (score, key); the elements left are the others, in their order,
    Length is their number, and Search for the pair then returns nil.
    When no element holds the pair the list is left as it is. *)
Theorem Delete_removes r ops sl l key score :
  Forall no_nan_insert ops -> sl_run ops (NewSkipList r) = Some sl ->
  sl_nodes sl = Some l ->
  exists sl',
    SkipList_Delete sl key score =
      Some (sl', bool_decide (Exists (fun nd => hits score key nd = true) l)) /\
    sl_nodes sl' = Some (filter (fun nd => hits score key nd = false) l) /\
    SkipList_Length sl' =
      SkipList_Length sl - (if bool_decide (Exists (fun nd => hits score key nd = true) l)
                            then 1 else 0) /\
    SkipList_Search sl' key score = Some None /\
    (Forall (fun nd => hits score key nd = false) l -> sl' = sl).
Proof.
  intros Hops Hrun Hn.
  pose proof (run_nodes_inv r ops sl l Hops Hrun Hn) as Hinv.
  destruct (Delete_cases sl l key score Hinv)
    as (sl' & b & l' & Hdel & Hinv' & _ & [Habs|Hfound]).
  - destruct Habs as (-> & -> & -> & Hno).
    exists sl. rewrite bool_decide_eq_false_2.
    2:{ intros (nd & Hin & Hh)%Exists_exists. rewrite Forall_forall in Hno.
        by rewrite Hno in Hh. }
    split; [done|]. rewrite filter_all by done.
    split; [done|]. split; [lia|]. split; [|done].
    by apply (Search_absent sl l).
  - destruct Hfound as (-> & l1 & nd & l2 & -> & Hh & ->).
    pose proof (inv_nodup _ _ Hinv) as [_ Hnd]%NoDup_cons.
    pose proof (filter_hits_mid score key l1 nd l2 (inv_sorted _ _ Hinv) Hnd Hh) as Hno.
    exists sl'. rewrite bool_decide_eq_true_2.
    2:{ apply Exists_exists. exists nd. split; [set_solver|done]. }
    split; [done|].
    assert (filter (fun nd => hits score key nd = false) (l1 ++ nd :: l2) = l1 ++ l2) as ->.
    { apply Forall_app in Hno as [Hn1 Hn2].
      rewrite filter_app, filter_cons, decide_False by (by rewrite Hh).
      by rewrite !filter_all. }
    split; [by apply sl_nodes_spec|]. split.
    + unfold SkipList_Length. rewrite (inv_length _ _ Hinv'), (inv_length _ _ Hinv).
      rewrite !length_app. simpl. lia.
    + split; [by apply (Search_absent sl' (l1 ++ l2))|].
      intros Hall. rewrite Forall_forall in Hall.
      rewrite Hall in Hh by set_solver. done.
Qed.

Lemma Delete_removes_witness :
  exists sl',
    SkipList_Delete sample_list key_b (f64_of_Z 5) = Some (sl', true) /\
    sl_nodes sl' = Some [mkNode 3 key_c val_3 (f64_of_Z 20) 1].
Proof.
  destruct (Delete_removes rand_flat sample_ops sample_list
              [mkNode 2 key_b val_2 (f64_of_Z 5) 1; mkNode 3 key_c val_3 (f64_of_Z 20) 1]
              key_b (f64_of_Z 5) sample_ops_no_nan sample_list_run)
    as (sl' & Hdel & Hn & _).
  - vm_compute. reflexivity.
  - exists sl'. split; [exact Hdel|exact Hn].
Defined.

(** X4: on such a list, Length is the number of elements on the level-0
    chain. *)
Theorem Length_counts r ops sl :
  Forall no_nan_insert ops -> sl_run ops (NewSkipList r) = Some sl ->
  exists l, sl_nodes sl = Some l /\ SkipList_Length sl = Z.of_nat (length l).
Proof.
  intros Hops Hrun. destruct (run_inv r ops sl Hops Hrun) as (l & Hinv & Hn).
  exists l. split; [done|]. apply (inv_length _ _ Hinv).
Qed.

Lemma Length_counts_witness :
  exists l, sl_nodes sample_list = Some l /\
            SkipList_Length sample_list = Z.of_nat (length l).
Proof.
  exact (Length_counts rand_flat sample_ops sample_list
           sample_ops_no_nan sample_list_run).
Defined.

(** X5: on such a list, First returns the first element of the level-0 chain,
    nil when the list is empty, and that element is below every other one
    in (score, key). *)
Theorem First_is_least r ops sl l :
  Forall no_nan_insert ops -> sl_run ops (NewSkipList r) = Some sl ->
  sl_nodes sl = Some l ->
  SkipList_First sl = Some (n_ptr <$> head l) /\
  forall nd rest, l = nd :: rest -> Forall (node_lt nd) rest.
Proof.
  intros Hops Hrun Hn. pose proof (run_nodes_inv r ops sl l Hops Hrun Hn) as Hinv.
  split.
  - assert (0 < MaxLevel)%nat as H0 by (unfold MaxLevel; lia).
    pose proof (inv_links _ _ Hinv 0%nat H0) as Hl.
    unfold SkipList_First. rewrite (linked_next _ _ _ _ Hl).
    rewrite (inv_at_level_0 sl l Hinv). by destruct l.
  - intros nd rest ->. pose proof (inv_sorted _ _ Hinv) as Hs.
    by apply StronglySorted_cons in Hs as [? _].
Qed.

Lemma First_is_least_witness :
  SkipList_First sample_list = Some (Some 2%nat) /\
  SkipList_First (NewSkipList rand_flat) = Some None.
Proof.
  split.
  - refine (eq_trans (proj1 (First_is_least rand_flat sample_ops sample_list
              [mkNode 2 key_b val_2 (f64_of_Z 5) 1; mkNode 3 key_c val_3 (f64_of_Z 20) 1]
              sample_ops_no_nan sample_list_run _)) _); vm_compute; reflexivity.
  - refine (eq_trans (proj1 (First_is_least rand_flat [] (NewSkipList rand_flat) []
              (Forall_nil_2 _) eq_refl _)) _); vm_compute; reflexivity.
Defined.

(** ** The store as a finite map *)

Lemma reachable_entries s ents :
  reachable s -> store_entries s = Some ents ->
  exists l, store_inv s l /\ contents l = ents.
Proof.
  intros [l Hst]%reachable_inv Hents. exists l. split; [done|].
  rewrite (store_entries_spec s l Hst) in Hents. congruence.
Qed.

Lemma store_size s l : store_inv s l -> Store_Size s = Z.of_nat (size (contents l)).
Proof.
  intros Hst. rewrite contents_size by (by eapply store_keys_NoDup).
  destruct Hst as [Hinv _]. apply (inv_length _ _ Hinv).
Qed.

(** X6: on every state of the store, Set binds the key to the value and
    leaves every other entry as it was; Size grows by one when the key is
    new and stays when it was bound. *)
Theorem Set_binds_key s ents key value :
  reachable s -> store_entries s = Some ents ->
  exists s', Store_Set s key value = Some s' /\
    store_entries s' = Some (<[key := value]> ents) /\
    Store_Size s' = Store_Size s + (match ents !! key with Some _ => 0 | None => 1 end).
Proof.
  intros Hr Hents. destruct (reachable_entries s ents Hr Hents) as (l & Hst & <-).
  destruct (Store_Set_spec s l key value Hst) as (s' & l' & Hset & Hst' & Hc & _).
  exists s'. split; [done|]. split.
  - by rewrite (store_entries_spec s' l' Hst'), Hc.
  - rewrite (store_size s' l' Hst'), (store_size s l Hst), Hc, map_size_insert.
    destruct (contents l !! key); simpl; lia.
Qed.

Lemma Set_binds_key_witness :
  exists s', Store_Set sample_store key_b val_2 = Some s' /\
    store_entries s' = Some (<[key_b := val_2]> sample_entries) /\
    Store_Size s' = 2.
Proof.
  destruct (Set_binds_key sample_store sample_entries key_b val_2)
    as (s' & Hset & Hents & Hsize).
  - apply (reach_Set (NewSkiplistKVStore rand_flat) key_a val_1);
      [apply reach_New|vm_compute; reflexivity].
  - vm_compute. reflexivity.
  - exists s'. split; [exact Hset|]. split; [exact Hents|].
    rewrite Hsize. vm_compute. reflexivity.
Defined.

(** X7: on every state of the store, SetWithTTL binds the key to the value,
    leaves every other entry as it was, and records the instant
    [now + ttl] for the key, leaving the other TTL entries as they were. *)
Theorem SetWithTTL_binds_key s ents now key value ttl :
  reachable s -> store_entries s = Some ents ->
  exists s', Store_SetWithTTL s now key value ttl = Some s' /\
    store_entries s' = Some (<[key := value]> ents) /\
    ttlData s' = <[key := now + ttl]> (ttlData s) /\
    Store_Size s' = Store_Size s + (match ents !! key with Some _ => 0 | None => 1 end).
Proof.
  intros Hr Hents. destruct (reachable_entries s ents Hr Hents) as (l & Hst & <-).
  destruct (Store_SetWithTTL_spec s l now key value ttl Hst)
    as (s' & l' & Hset & Hst' & Hc & Httl).
  exists s'. split; [done|]. split; [|split; [done|]].
  - by rewrite (store_entries_spec s' l' Hst'), Hc.
  - rewrite (store_size s' l' Hst'), (store_size s l Hst), Hc, map_size_insert.
    destruct (contents l !! key); simpl; lia.
Qed.

Lemma SetWithTTL_binds_key_witness :
  exists s', Store_SetWithTTL sample_store 100 key_a val_2 50 = Some s' /\
    store_entries s' = Some (<[key_a := val_2]> sample_entries) /\
    ttlData s' = <[key_a := 150]> ∅ /\
    Store_Size s' = 1.
Proof.
  destruct (SetWithTTL_binds_key sample_store sample_entries 100 key_a val_2 50)
    as (s' & Hset & Hents & Httl & Hsize).
  - apply (reach_Set (NewSkiplistKVStore rand_flat) key_a val_1);
      [apply reach_New|vm_compute; reflexivity].
  - vm_compute. reflexivity.
  - exists s'. split; [exact Hset|]. split; [exact Hents|].
    split; [exact Httl|]. rewrite Hsize. vm_compute. reflexivity.
Defined.

(** X8: after SetWithTTL(key, value, ttl) at the instant [now], Get of the key
    returns the value as long as the clock is not after [now + ttl], and
    "not found" with a Delete of the key started once it is; GetTTL
    returns the time left while the clock is before [now + ttl], and
    (0, false) from that instant on. *)
Theorem SetWithTTL_then_Get s now key value ttl :
  reachable s ->
  exists s', Store_SetWithTTL s now key value ttl = Some s' /\
    forall now',
      Store_Get s' now' key =
        Some (if now + ttl <? now'
              then (s', inr ErrKeyNotFound, [GoDelete key])
              else (s', inl value, [])) /\
      Store_GetTTL s' now' key =
        (s', if now' <? now + ttl
             then (Z.min (2 ^ 63 - 1) (now + ttl - now'), true)
             else (0, false)).
Proof.
  intros [l Hst]%reachable_inv.
  destruct (Store_SetWithTTL_spec s l now key value ttl Hst)
    as (s' & l' & Hset & Hst' & Hc & Httl).
  exists s'. split; [done|]. intros now'.
  assert (ttlData s' !! key = Some (now + ttl)) as Hk
    by (by rewrite Httl, lookup_insert_eq).
  split.
  - destruct (now + ttl <? now') eqn:E.
    + unfold Store_Get, expired_for_Get. by rewrite Hk, E.
    + rewrite (Store_Get_spec s' l' now' key Hst').
      * by rewrite Hc, lookup_insert_eq.
      * unfold expired_for_Get. by rewrite Hk.
  - unfold Store_GetTTL, time_Until. rewrite Hk.
    destruct (now' <? now + ttl) eqn:E.
    + apply Z.ltb_lt in E. destruct (_ <=? 0) eqn:E'; [apply Z.leb_le in E'; lia|].
      do 2 f_equal. lia.
    + apply Z.ltb_ge in E. destruct (_ <=? 0) eqn:E'; [done|]. apply Z.leb_gt in E'. lia.
Qed.

Lemma SetWithTTL_then_Get_witness :
  exists s', Store_SetWithTTL sample_store 100 key_a val_2 50 = Some s' /\
    Store_Get s' 150 key_a = Some (s', inl val_2, []) /\
    Store_Get s' 151 key_a = Some (s', inr ErrKeyNotFound, [GoDelete key_a]) /\
    Store_GetTTL s' 120 key_a = (s', (30, true)) /\
    Store_GetTTL s' 150 key_a = (s', (0, false)).
Proof.
  destruct (SetWithTTL_then_Get sample_store 100 key_a val_2 50) as (s' & Hset & H).
  - apply (reach_Set (NewSkiplistKVStore rand_flat) key_a val_1);
      [apply reach_New|vm_compute; reflexivity].
  - exists s'. split; [exact Hset|].
    split; [exact (proj1 (H 150))|]. split; [exact (proj1 (H 151))|].
    split; [exact (proj2 (H 120))|exact (proj2 (H 150))].
Defined.

(** X9: on every state of the store, Delete returns true exactly when the key
    is bound; it unbinds the key and drops its TTL entry, leaving the other
    entries and TTL entries as they were; Size shrinks by one when the key
    was bound, and Get of the key then reports "not found" whatever the
    clock, starting no task. *)
Theorem Delete_unbinds_key s ents key :
  reachable s -> store_entries s = Some ents ->
  exists s', Store_Delete s key = Some (s', bool_decide (is_Some (ents !! key))) /\
    store_entries s' = Some (delete key ents) /\
    ttlData s' = delete key (ttlData s) /\
    Store_Size s' = Store_Size s - (match ents !! key with Some _ => 1 | None => 0 end) /\
    forall now, Store_Get s' now key = Some (s', inr ErrKeyNotFound, []).
Proof.
  intros Hr Hents. destruct (reachable_entries s ents Hr Hents) as (l & Hst & <-).
  destruct (Store_Delete_spec s l key Hst)
    as (s' & b & l' & Hdel & Hst' & Hc & Httl & Hf & Ht).
  exists s'. split.
  { rewrite Hdel. do 2 f_equal. destruct b.
    - destruct (Ht eq_refl) as [Hs _]. by rewrite bool_decide_eq_true_2.
    - destruct (Hf eq_refl) as [_ Hn]. rewrite bool_decide_eq_false_2; [done|].
      rewrite Hn. by intros [? ?]. }
  split; [by rewrite (store_entries_spec s' l' Hst'), Hc|]. split; [done|]. split.
  - rewrite (store_size s' l' Hst'), (store_size s l Hst), Hc, map_size_delete.
    destruct (contents l !! key) eqn:E; simpl; [|lia].
    assert (0 < size (contents l))%nat; [|lia].
    destruct (decide (size (contents l) = 0%nat)) as [H0|]; [|lia].
    apply map_size_empty_iff in H0. rewrite H0 in E. by rewrite lookup_empty in E.
  - intros now. rewrite (Store_Get_spec s' l' now key Hst').
    + by rewrite Hc, lookup_delete_eq.
    + unfold expired_for_Get. by rewrite Httl, lookup_delete_eq.
Qed.

Lemma Delete_unbinds_key_witness :
  exists s', Store_Delete sample_expiring key_a = Some (s', true) /\
    store_entries s' = Some ∅ /\ ttlData s' = ∅ /\ Store_Size s' = 0.
Proof.
  destruct (Delete_unbinds_key sample_expiring sample_entries key_a)
    as (s' & Hdel & Hents & Httl & Hsize & _).
  - apply (reach_SetWithTTL (NewSkiplistKVStore rand_flat) 0 key_a val_1 5);
      [apply reach_New|vm_compute; reflexivity].
  - vm_compute. reflexivity.
  - exists s'. split; [exact Hdel|]. split; [exact Hents|].
    split; [exact Httl|]. rewrite Hsize. vm_compute. reflexivity.
Defined.

(** X10: on every state of the store, Get returns the store as it was; when the
    key has a TTL entry before the clock it reports "not found" and starts
    a Delete of the key; otherwise it returns the value the key is bound
    to, or "not found" when it is not bound, and starts nothing. *)
Theorem Get_reads_entries s ents now key :
  reachable s -> store_entries s = Some ents ->
  Store_Get s now key =
    Some (if bool_decide (ttl_before (ttlData s) now key)
          then (s, inr ErrKeyNotFound, [GoDelete key])
          else match ents !! key with
               | Some v => (s, inl v, [])
               | None => (s, inr ErrKeyNotFound, [])
               end).
Proof.
  intros Hr Hents. destruct (reachable_entries s ents Hr Hents) as (l & Hst & <-).
  case_bool_decide as Hb.
  - destruct Hb as (expiry & Hk & Hlt). unfold Store_Get, expired_for_Get.
    by rewrite Hk, (proj2 (Z.ltb_lt _ _) Hlt).
  - rewrite (Store_Get_spec s l now key Hst).
    + by destruct (contents l !! key).
    + unfold expired_for_Get. destruct (ttlData s !! key) as [expiry|] eqn:Hk; [|done].
      apply Z.ltb_ge. destruct (decide (expiry < now)); [|lia].
      exfalso. apply Hb. by exists expiry.
Qed.

Lemma Get_reads_entries_witness :
  Store_Get sample_expiring 5 key_a = Some (sample_expiring, inl val_1, []) /\
  Store_Get sample_expiring 5 key_b = Some (sample_expiring, inr ErrKeyNotFound, []) /\
  Store_Get sample_expiring 6 key_a
    = Some (sample_expiring, inr ErrKeyNotFound, [GoDelete key_a]).
Proof.
  assert (reachable sample_expiring) as Hr.
  { apply (reach_SetWithTTL (NewSkiplistKVStore rand_flat) 0 key_a val_1 5);
      [apply reach_New|vm_compute; reflexivity]. }
  assert (store_entries sample_expiring = Some sample_entries) as He
    by (vm_compute; reflexivity).
  split; [|split].
  - rewrite (Get_reads_entries sample_expiring sample_entries 5 key_a Hr He).
    vm_compute. reflexivity.
  - rewrite (Get_reads_entries sample_expiring sample_entries 5 key_b Hr He).
    vm_compute. reflexivity.
  - rewrite (Get_reads_entries sample_expiring sample_entries 6 key_a Hr He).
    vm_compute. reflexivity.
Defined.

(** X11: on every state of the store, Size is the number of keys bound. *)
Theorem Size_counts_keys s ents :
  reachable s -> store_entries s = Some ents ->
  Store_Size s = Z.of_nat (size ents).
Proof.
  intros Hr Hents. destruct (reachable_entries s ents Hr Hents) as (l & Hst & <-).
  by apply store_size.
Qed.

Lemma Size_counts_keys_witness :
  Store_Size sample_store = Z.of_nat (size sample_entries).
Proof.
  apply (Size_counts_keys sample_store sample_entries).
  - apply (reach_Set (NewSkiplistKVStore rand_flat) key_a val_1);
      [apply reach_New|vm_compute; reflexivity].
  - vm_compute. reflexivity.
Defined.

(** ** The TTL table *)

Lemma store_inv_contents s l1 l2 :
  store_inv s l1 -> store_inv s l2 -> contents l1 = contents l2.
Proof.
  intros H1 H2. pose proof (store_entries_spec s l1 H1) as E1.
  rewrite (store_entries_spec s l2 H2) in E1. congruence.
Qed.

Lemma reachable_ttl s :
  reachable s ->
  forall l, store_inv s l ->
  forall k, is_Some (ttlData s !! k) -> is_Some (contents l !! k).
Proof.
  induction 1 as [r|s key value s' Hr IH Hset
                 |s now key value ttl s' Hr IH Hset
                 |s key s' b Hr IH Hdel]; intros l' Hst' k Hk.
  - simpl in Hk. rewrite lookup_empty in Hk. by destruct Hk.
  - destruct (reachable_inv s Hr) as [l Hst].
    destruct (Store_Set_spec s l key value Hst) as (s1 & l1 & Hs1 & Hst1 & Hc & Httl).
    assert (s1 = s') as -> by congruence.
    rewrite (store_inv_contents s' l' l1 Hst' Hst1), Hc.
    rewrite Httl in Hk. destruct (decide (k = key)) as [->|Hne].
    + rewrite lookup_delete_eq in Hk. by destruct Hk.
    + rewrite lookup_delete_ne in Hk by done. rewrite lookup_insert_ne by done.
      by apply IH.
  - destruct (reachable_inv s Hr) as [l Hst].
    destruct (Store_SetWithTTL_spec s l now key value ttl Hst)
      as (s1 & l1 & Hs1 & Hst1 & Hc & Httl).
    assert (s1 = s') as -> by congruence.
    rewrite (store_inv_contents s' l' l1 Hst' Hst1), Hc.
    rewrite Httl in Hk. destruct (decide (k = key)) as [->|Hne].
    + rewrite lookup_insert_eq. eauto.
    + rewrite lookup_insert_ne in Hk by done. rewrite lookup_insert_ne by done.
      by apply IH.
  - destruct (reachable_inv s Hr) as [l Hst].
    destruct (Store_Delete_spec s l key Hst)
      as (s1 & b1 & l1 & Hs1 & Hst1 & Hc & Httl & _).
    assert (s1 = s') as -> by congruence.
    rewrite (store_inv_contents s' l' l1 Hst' Hst1), Hc.
    rewrite Httl in Hk. destruct (decide (k = key)) as [->|Hne].
    + rewrite lookup_delete_eq in Hk. by destruct Hk.
    + rewrite lookup_delete_ne in Hk by done. rewrite lookup_delete_ne by done.
      by apply IH.
Qed.

(** X12: on every state of the store, a key that has a TTL entry is bound: the
    TTL table never outlives the element. *)
Theorem TTL_keys_are_bound s ents key :
  reachable s -> store_entries s = Some ents ->
  is_Some (ttlData s !! key) -> is_Some (ents !! key).
Proof.
  intros Hr Hents. destruct (reachable_entries s ents Hr Hents) as (l & Hst & <-).
  by apply reachable_ttl.
Qed.

Lemma TTL_keys_are_bound_witness : is_Some (sample_entries !! key_a).
Proof.
  apply (TTL_keys_are_bound sample_expiring sample_entries key_a).
  - apply (reach_SetWithTTL (NewSkiplistKVStore rand_flat) 0 key_a val_1 5);
      [apply reach_New|vm_compute; reflexivity].
  - vm_compute. reflexivity.
  - exists 5. vm_compute. reflexivity.
Defined.

(** ** The skip list of a store *)

(** X13: on every state of the store, the skip list is ordered: the store only
    inserts scores computed from keys, which are never NaN; every element
    carries the score of its key, and no two elements have the same key. *)
Theorem store_list_is_ordered s :
  reachable s ->
  ordered_levels (data s) /\
  exists l, sl_nodes (data s) = Some l /\
    Forall (fun nd => n_score nd = score_of (n_key nd)) l /\
    NoDup (n_key <$> l).
Proof.
  intros [l Hst]%reachable_inv. pose proof (store_keys_NoDup s l Hst) as Hnd.
  destruct Hst as [Hinv Hsc]. split; [by apply (inv_ordered_levels _ l)|].
  exists l. split; [by apply sl_nodes_spec|done].
Qed.

Lemma store_list_is_ordered_witness :
  ordered_levels (data sample_store) /\
  exists l, sl_nodes (data sample_store) = Some l /\
    Forall (fun nd => n_score nd = score_of (n_key nd)) l /\
    NoDup (n_key <$> l).
Proof.
  apply (store_list_is_ordered sample_store).
  apply (reach_Set (NewSkiplistKVStore rand_flat) key_a val_1);
    [apply reach_New|vm_compute; reflexivity].
Defined.

(** ** Operations on one key leave the others alone *)

(** X14: on every state of the store, Set, SetWithTTL and Delete of a key do
    not change what Get answers for any other key, at any instant. *)
Theorem other_keys_untouched s key key' now' :
  reachable s -> key' <> key ->
  (forall value s', Store_Set s key value = Some s' ->
     answer (Store_Get s' now' key') = answer (Store_Get s now' key')) /\
  (forall now value ttl s', Store_SetWithTTL s now key value ttl = Some s' ->
     answer (Store_Get s' now' key') = answer (Store_Get s now' key')) /\
  (forall s' b, Store_Delete s key = Some (s', b) ->
     answer (Store_Get s' now' key') = answer (Store_Get s now' key')).
Proof.
  intros Hr Hne. destruct (reachable_inv s Hr) as [l Hst].
  assert (forall s' l', store_inv s' l' ->
            contents l' !! key' = contents l !! key' ->
            ttlData s' !! key' = ttlData s !! key' ->
            answer (Store_Get s' now' key') = answer (Store_Get s now' key')) as Hsame.
  { intros s' l' Hst' Hc Ht.
    destruct (expired_for_Get s now' key') eqn:E.
    - unfold Store_Get. rewrite E.
      assert (expired_for_Get s' now' key' = true) as ->
        by (unfold expired_for_Get in *; by rewrite Ht).
      done.
    - rewrite (Store_Get_spec s l now' key' Hst E).
      rewrite (Store_Get_spec s' l' now' key' Hst').
      + rewrite Hc. by destruct (contents l !! key').
      + unfold expired_for_Get in *. by rewrite Ht. }
  split; [|split].
  - intros value s' Hset.
    destruct (Store_Set_spec s l key value Hst) as (s1 & l1 & Hs1 & Hst1 & Hc & Httl).
    assert (s1 = s') as -> by congruence.
    apply (Hsame s' l1 Hst1).
    + by rewrite Hc, lookup_insert_ne.
    + by rewrite Httl, lookup_delete_ne.
  - intros now value ttl s' Hset.
    destruct (Store_SetWithTTL_spec s l now key value ttl Hst)
      as (s1 & l1 & Hs1 & Hst1 & Hc & Httl).
    assert (s1 = s') as -> by congruence.
    apply (Hsame s' l1 Hst1).
    + by rewrite Hc, lookup_insert_ne.
    + by rewrite Httl, lookup_insert_ne.
  - intros s' b Hdel.
    destruct (Store_Delete_spec s l key Hst)
      as (s1 & b1 & l1 & Hs1 & Hst1 & Hc & Httl & _).
    assert (s1 = s') as -> by congruence.
    apply (Hsame s' l1 Hst1).
    + by rewrite Hc, lookup_delete_ne.
    + by rewrite Httl, lookup_delete_ne.
Qed.

Lemma other_keys_untouched_witness :
  exists s' b, Store_Delete sample_store key_b = Some (s', b) /\
    answer (Store_Get s' 0 key_a) = Some (inl val_1, []).
Proof.
  assert (exists s' b, Store_Delete sample_store key_b = Some (s', b))
    as (s' & b & Hdel) by (eexists _, _; vm_compute; reflexivity).
  exists s', b. split; [exact Hdel|].
  rewrite (proj2 (proj2 (other_keys_untouched sample_store key_b key_a 0
             (reach_Set (NewSkiplistKVStore rand_flat) key_a val_1 sample_store
                (reach_New rand_flat) eq_refl)
             ltac:(discriminate))) s' b Hdel).
  vm_compute. reflexivity.
Defined.

(** ** The reaper *)

Lemma filter_not_in_cons {A} (k : bytes) (keys : list bytes) (m : gmap bytes A) :
  filter (fun kv => kv.1 ∉ keys) (delete k m)
  = filter (fun kv => kv.1 ∉ k :: keys) m.
Proof.
  apply map_eq. intros i. apply option_eq. intros v.
  rewrite !map_lookup_filter_Some, lookup_delete_Some. simpl.
  rewrite not_elem_of_cons. naive_solver.
Qed.

Lemma delete_all_spec keys :
  forall s l, store_inv s l ->
  exists s' l', delete_all keys s = Some s' /\ store_inv s' l' /\
    contents l' = filter (fun kv => kv.1 ∉ keys) (contents l) /\
    ttlData s' = filter (fun kv => kv.1 ∉ keys) (ttlData s).
Proof.
  induction keys as [|key keys IH]; intros s l Hst.
  - exists s, l. split; [done|]. split; [done|].
    split; symmetry; apply map_filter_id; intros i x _; apply not_elem_of_nil.
  - destruct (Store_Delete_spec s l key Hst)
      as (s1 & b & l1 & Hdel & Hst1 & Hc & Httl & _).
    destruct (IH s1 l1 Hst1) as (s' & l' & Hall & Hst' & Hc' & Httl').
    exists s', l'. cbn [delete_all]. rewrite Hdel. cbn [mbind option_bind].
    split; [done|]. split; [done|].
    rewrite Hc', Httl', Hc, Httl. by rewrite !filter_not_in_cons.
Qed.

Lemma elem_of_expired_keys s now k :
  k ∈ expired_keys s now <-> ttl_before (ttlData s) now k.
Proof.
  unfold expired_keys, ttl_before. rewrite list_elem_of_fmap. split.
  - intros ([k' e] & -> & Hin). apply elem_of_map_to_list in Hin.
    apply map_lookup_filter_Some in Hin as [Hk He]. eauto.
  - intros (e & Hk & He). exists (k, e). split; [done|].
    apply elem_of_map_to_list, map_lookup_filter_Some. done.
Qed.

(** X15: on every state of the store, cleanExpiredKeys at the instant [now],
    running on its own, returns, whatever the order in which it meets the
    keys of the TTL table: it unbinds the keys whose TTL entry is before
    [now] and drops these entries; the other keys, their values and their
    TTL entries are as they were. *)
Theorem cleanExpiredKeys_removes s ents now :
  reachable s -> store_entries s = Some ents ->
  (exists s', Store_cleanExpiredKeys s now = Some s' /\
     store_entries s' = Some (filter (fun kv => ~ ttl_before (ttlData s) now kv.1) ents) /\
     ttlData s' = filter (fun kv => ~ kv.2 < now) (ttlData s)) /\
  (forall keys, keys ≡ₚ expired_keys s now ->
     exists s', delete_all keys s = Some s' /\
       store_entries s' = Some (filter (fun kv => ~ ttl_before (ttlData s) now kv.1) ents) /\
       ttlData s' = filter (fun kv => ~ kv.2 < now) (ttlData s)).
Proof.
  intros Hr Hents. destruct (reachable_entries s ents Hr Hents) as (l & Hst & <-).
  assert (forall keys, keys ≡ₚ expired_keys s now ->
     exists s', delete_all keys s = Some s' /\
       store_entries s'
         = Some (filter (fun kv => ~ ttl_before (ttlData s) now kv.1) (contents l)) /\
       ttlData s' = filter (fun kv => ~ kv.2 < now) (ttlData s)) as Hany.
  { intros keys Hp.
    destruct (delete_all_spec keys s l Hst) as (s' & l' & Hall & Hst' & Hc & Httl).
    exists s'. split; [done|]. split.
    - rewrite (store_entries_spec s' l' Hst'), Hc. f_equal.
      apply map_filter_ext. intros k v _. simpl.
      by rewrite Hp, elem_of_expired_keys.
    - rewrite Httl. apply map_filter_ext. intros k e Hk. simpl.
      rewrite Hp, elem_of_expired_keys. unfold ttl_before. split.
      + intros Hno Hlt. apply Hno. eauto.
      + intros Hno (e' & Hk' & Hlt). apply Hno. congruence. }
  split; [|exact Hany]. by apply (Hany (expired_keys s now)).
Qed.

Lemma cleanExpiredKeys_removes_witness :
  (exists s', Store_cleanExpiredKeys sample_expiring 6 = Some s' /\
     store_entries s' = Some ∅ /\ ttlData s' = ∅) /\
  (exists s', Store_cleanExpiredKeys sample_expiring 5 = Some s' /\
     store_entries s' = Some sample_entries /\ ttlData s' = <[key_a := 5]> ∅).
Proof.
  assert (reachable sample_expiring) as Hr.
  { apply (reach_SetWithTTL (NewSkiplistKVStore rand_flat) 0 key_a val_1 5);
      [apply reach_New|vm_compute; reflexivity]. }
  assert (store_entries sample_expiring = Some sample_entries) as He
    by (vm_compute; reflexivity).
  split.
  - destruct (proj1 (cleanExpiredKeys_removes sample_expiring sample_entries 6 Hr He))
      as (s' & Hc & Hents & Httl).
    exists s'. split; [exact Hc|]. split.
    + rewrite Hents. vm_compute. reflexivity.
    + rewrite Httl. vm_compute. reflexivity.
  - destruct (proj1 (cleanExpiredKeys_removes sample_expiring sample_entries 5 Hr He))
      as (s' & Hc & Hents & Httl).
    exists s'. split; [exact Hc|]. split.
    + rewrite Hents. vm_compute. reflexivity.
    + rewrite Httl. vm_compute. reflexivity.
Defined.

(** ** Keys and SizeActive *)

Lemma StronglySorted_sublist {A} (R : A -> A -> Prop) (l1 l2 : list A) :
  l1 `sublist_of` l2 -> StronglySorted R l2 -> StronglySorted R l1.
Proof.
  induction 1 as [|x l1 l2 Hsub IH|x l1 l2 Hsub IH]; intros Hs.
  - constructor.
  - apply StronglySorted_cons in Hs as [Hx Hs]. apply StronglySorted_cons.
    split; [|auto]. apply Forall_forall. intros y Hy.
    rewrite Forall_forall in Hx. apply Hx. by apply (sublist_subseteq _ _ Hsub).
  - apply StronglySorted_cons in Hs as [_ Hs]. auto.
Qed.

Lemma keys_loop_nodes m ttl clock t0 t1 l :
  (forall i, t0 <= clock i <= t1) ->
  forall x reads keys fuel,
  linked m 0 x (n_ptr <$> l) -> Forall (agrees m) l -> (length l < fuel)%nat ->
  exists ks,
    keys_loop fuel m ttl clock reads (head (n_ptr <$> l)) keys = Some (keys ++ ks) /\
    ks `sublist_of` (n_key <$> l) /\
    (forall k, k ∈ ks -> live_for_Scan ttl t0 k = true) /\
    (forall nd, nd ∈ l -> live_for_Scan ttl t1 (n_key nd) = true -> n_key nd ∈ ks).
Proof.
  intros Hclock.
  induction l as [|nd l IH]; intros x reads keys fuel Hl Hag Hfuel.
  - destruct fuel; [simpl in Hfuel; lia|]. exists []. simpl.
    rewrite app_nil_r. split; [done|]. split; [done|].
    split; [by intros k ?%elem_of_nil|by intros nd ?%elem_of_nil].
  - destruct fuel as [|fuel]; [simpl in Hfuel; lia|].
    rewrite fmap_cons in Hl. simpl in Hl, Hfuel. destruct Hl as [_ Hl].
    apply Forall_cons in Hag as [(e & He & Hk & _) Hag].
    rewrite !fmap_cons. cbn [head keys_loop]. rewrite He. cbn [mbind option_bind].
    pose proof (linked_next _ _ _ _ Hl) as Hnx. unfold get_Next in Hnx.
    rewrite He in Hnx. cbn [mbind option_bind] in Hnx. rewrite Hnx.
    cbn [mbind option_bind]. rewrite Hk.
    assert (forall reads' keep,
      (keep = true -> live_for_Scan ttl t0 (n_key nd) = true) ->
      (live_for_Scan ttl t1 (n_key nd) = true -> keep = true) ->
      exists ks,
        keys_loop fuel m ttl clock reads' (head (n_ptr <$> l))
          (if keep then keys ++ [n_key nd] else keys) = Some (keys ++ ks) /\
        ks `sublist_of` (n_key nd :: (n_key <$> l)) /\
        (forall k, k ∈ ks -> live_for_Scan ttl t0 k = true) /\
        (forall nd0, nd0 ∈ nd :: l -> live_for_Scan ttl t1 (n_key nd0) = true ->
           n_key nd0 ∈ ks)) as Hstep.
    { intros reads' keep H0 H1.
      destruct (IH (n_ptr nd) reads' (if keep then keys ++ [n_key nd] else keys) fuel
                  Hl Hag ltac:(lia)) as (ks & Hloop & Hsub & Hlive0 & Hlive1).
      destruct keep.
      - exists (n_key nd :: ks). rewrite Hloop, <- app_assoc. split; [done|].
        split; [by apply sublist_skip|]. split.
        + intros k [->|Hin]%elem_of_cons; auto.
        + intros nd0 [->|Hin]%elem_of_cons Hl1; [apply list_elem_of_here|].
          apply list_elem_of_further. auto.
      - exists ks. split; [done|]. split; [by apply sublist_cons|]. split; [done|].
        intros nd0 [->|Hin]%elem_of_cons Hl1; [|auto].
        specialize (H1 Hl1). done. }
    unfold live_for_Scan in Hstep.
    destruct (ttl !! n_key nd) as [expiry|] eqn:Ht.
    + apply Hstep.
      * intros Hlt%Z.ltb_lt. apply Z.ltb_lt. specialize (Hclock reads). lia.
      * intros Hlt%Z.ltb_lt. apply Z.ltb_lt. specialize (Hclock reads). lia.
    + apply (Hstep reads true); done.
Qed.

Lemma keys_sorted l :
  StronglySorted node_lt l ->
  Forall (fun nd => n_score nd = score_of (n_key nd)) l ->
  StronglySorted (fun a b => klt (score_of a) a (score_of b) b = true) (n_key <$> l).
Proof.
  induction 1 as [|nd l Hs IH Hx]; intros Hsc; [constructor|].
  apply Forall_cons in Hsc as [Hnd Hsc]. rewrite fmap_cons. constructor; [auto|].
  apply Forall_fmap, Forall_forall. intros y Hy. simpl.
  rewrite Forall_forall in Hx, Hsc. specialize (Hx y Hy). unfold node_lt in Hx.
  by rewrite Hnd, (Hsc y Hy) in Hx.
Qed.

Lemma size_active_loop_nodes m ttl now l :
  forall x count fuel,
  linked m 0 x (n_ptr <$> l) -> Forall (agrees m) l -> (length l < fuel)%nat ->
  size_active_loop fuel m ttl now (head (n_ptr <$> l)) count =
    Some (count + Z.of_nat (length
            (filter (fun nd => live_for_Scan ttl now (n_key nd) = true) l))).
Proof.
  induction l as [|nd l IH]; intros x count fuel Hl Hag Hfuel.
  - destruct fuel; [simpl in Hfuel; lia|]. simpl. f_equal. lia.
  - destruct fuel as [|fuel]; [simpl in Hfuel; lia|].
    rewrite fmap_cons in Hl. simpl in Hl, Hfuel. destruct Hl as [_ Hl].
    apply Forall_cons in Hag as [(e & He & Hk & _) Hag].
    rewrite !fmap_cons. cbn [head size_active_loop]. rewrite He.
    cbn [mbind option_bind].
    pose proof (linked_next _ _ _ _ Hl) as Hnx. unfold get_Next in Hnx.
    rewrite He in Hnx. cbn [mbind option_bind] in Hnx. rewrite Hnx.
    cbn [mbind option_bind]. rewrite Hk.
    rewrite (IH (n_ptr nd) _ fuel Hl Hag) by lia. f_equal.
    rewrite filter_cons. destruct (live_for_Scan ttl now (n_key nd)) eqn:E.
    + rewrite decide_True by done. simpl. lia.
    + rewrite decide_False by done. lia.
Qed.

Lemma contents_filter_live s l now :
  NoDup (n_key <$> l) ->
  contents (filter (fun nd => live_for_Scan (ttlData s) now (n_key nd) = true) l)
  = filter (fun kv => live_for_Scan (ttlData s) now kv.1 = true) (contents l).
Proof.
  intros Hnd.
  by rewrite <- (contents_filter
                   (fun kv => live_for_Scan (ttlData s) now kv.1 = true) l Hnd).
Qed.

Lemma first_of_store s l :
  store_inv s l ->
  linked (sl_mem (data s)) 0 (sl_head (data s)) (n_ptr <$> l) /\
  (length l < S (length (sl_mem (data s))))%nat.
Proof.
  intros [Hinv _].
  assert (0 < MaxLevel)%nat as H0 by (unfold MaxLevel; lia).
  pose proof (inv_links _ _ Hinv 0%nat H0) as Hl.
  rewrite (inv_at_level_0 _ l Hinv) in Hl. split; [done|].
  pose proof (at_level_length _ l Hinv 0) as Hlen.
  rewrite (inv_at_level_0 _ l Hinv), length_fmap in Hlen. lia.
Qed.

Lemma Store_SizeActive_spec s l now :
  store_inv s l ->
  Store_SizeActive s now =
    Some (Z.of_nat (size (filter (fun kv => live_for_Scan (ttlData s) now kv.1 = true)
                            (contents l)))).
Proof.
  intros Hst. pose proof (store_keys_NoDup s l Hst) as Hnd.
  destruct (first_of_store s l Hst) as [Hl Hlen]. destruct Hst as [Hinv _].
  unfold Store_SizeActive, SkipList_First. rewrite (linked_next _ _ _ _ Hl).
  cbn [mbind option_bind].
  rewrite (size_active_loop_nodes _ _ _ l (sl_head (data s)) 0 _ Hl
             (inv_agree _ _ Hinv) Hlen).
  f_equal. rewrite <- (contents_filter_live s l now Hnd), contents_size; [lia|].
  eapply keys_NoDup_sublist; [apply sublist_filter|done].
Qed.

Lemma Store_Scan_all s l now :
  store_inv s l ->
  Store_Scan s now [] 0 =
    Some (filter (fun kv => live_for_Scan (ttlData s) now kv.1 = true) (contents l)).
Proof.
  intros Hst. pose proof (store_keys_NoDup s l Hst) as Hnd.
  rewrite (Store_Scan_spec s l now [] 0 Hst). cbv zeta.
  change (0 <? 0) with false. cbv iota. f_equal.
  rewrite <- (contents_filter_live s l now Hnd). f_equal.
  apply list_filter_iff. intros nd. unfold scan_keeps, kv. simpl.
  split; [by intros [_ ?]|intros ?; split; [by destruct (n_key nd)|done]].
Qed.

Lemma Store_Keys_spec s l clock t0 t1 :
  store_inv s l -> (forall i, t0 <= clock i <= t1) ->
  exists ks, Store_Keys s clock = Some ks /\
    ks `sublist_of` (n_key <$> l) /\
    (forall k, k ∈ ks -> live_for_Scan (ttlData s) t0 k = true) /\
    (forall nd, nd ∈ l -> live_for_Scan (ttlData s) t1 (n_key nd) = true ->
       n_key nd ∈ ks).
Proof.
  intros Hst Hclock. destruct (first_of_store s l Hst) as [Hl Hlen].
  destruct Hst as [Hinv _].
  destruct (keys_loop_nodes (sl_mem (data s)) (ttlData s) clock t0 t1 l Hclock
              (sl_head (data s)) 0%nat [] (S (length (sl_mem (data s)))) Hl
              (inv_agree _ _ Hinv) Hlen)
    as (ks & Hloop & Hrest).
  exists ks. split; [|done].
  unfold Store_Keys, SkipList_Length, SkipList_First.
  rewrite (inv_length _ _ Hinv).
  rewrite (proj2 (Z.ltb_ge _ _)) by lia.
  rewrite (linked_next _ _ _ _ Hl). cbn [mbind option_bind]. by rewrite Hloop.
Qed.

(** X16: on every state of the store, Keys returns.  It reads the clock once
    for each element that has a TTL entry; when all the readings lie
    between [t0] and [t1], the result has every bound key that is live at
    [t1] (no TTL entry, or one after [t1]) and only bound keys that are
    live at [t0]; no key comes twice, and the keys come in the order of
    the list, ascending in (score of the key, key). *)
Theorem Keys_lists_live_keys s ents clock t0 t1 :
  reachable s -> store_entries s = Some ents ->
  (forall i, t0 <= clock i <= t1) ->
  exists ks, Store_Keys s clock = Some ks /\
    NoDup ks /\
    StronglySorted (fun a b => klt (score_of a) a (score_of b) b = true) ks /\
    (forall k, k ∈ ks ->
       is_Some (ents !! k) /\ live_for_Scan (ttlData s) t0 k = true) /\
    (forall k, is_Some (ents !! k) -> live_for_Scan (ttlData s) t1 k = true ->
       k ∈ ks).
Proof.
  intros Hr Hents Hclock.
  destruct (reachable_entries s ents Hr Hents) as (l & Hst & <-).
  pose proof (store_keys_NoDup s l Hst) as Hnd.
  destruct (Store_Keys_spec s l clock t0 t1 Hst Hclock)
    as (ks & Hks & Hsub & Hlive0 & Hlive1).
  destruct Hst as [Hinv Hsc].
  exists ks. split; [done|]. split; [by eapply sublist_NoDup|].
  split.
  { eapply StronglySorted_sublist; [exact Hsub|].
    apply keys_sorted; [apply (inv_sorted _ _ Hinv)|done]. }
  split.
  - intros k Hk. split; [|auto].
    apply (sublist_subseteq _ _ Hsub) in Hk.
    apply list_elem_of_fmap in Hk as (nd & -> & Hin).
    exists (n_val nd). apply (contents_lookup _ _ _ Hnd). eauto.
  - intros k [v Hv] Hlive.
    apply (contents_lookup _ _ _ Hnd) in Hv as (nd & Hin & <- & _). auto.
Qed.

Lemma Keys_lists_live_keys_witness :
  Store_Keys sample_expiring (fun _ => 4) = Some [key_a] /\
  Store_Keys sample_expiring (fun _ => 5) = Some [].
Proof.
  assert (reachable sample_expiring) as Hr.
  { apply (reach_SetWithTTL (NewSkiplistKVStore rand_flat) 0 key_a val_1 5);
      [apply reach_New|vm_compute; reflexivity]. }
  assert (store_entries sample_expiring = Some sample_entries) as He
    by (vm_compute; reflexivity).
  split.
  - destruct (Keys_lists_live_keys sample_expiring sample_entries (fun _ => 4) 4 4 Hr He)
      as (ks & Hks & _); [intros _; lia|].
    rewrite Hks. vm_compute in Hks. symmetry. exact Hks.
  - destruct (Keys_lists_live_keys sample_expiring sample_entries (fun _ => 5) 5 5 Hr He)
      as (ks & Hks & _); [intros _; lia|].
    rewrite Hks. vm_compute in Hks. symmetry. exact Hks.
Defined.

(** X17: on every state of the store, SizeActive at an instant is the number
    of bound keys that are live at that instant; it is the number of
    entries that Scan with the empty prefix and no limit returns at the
    same instant, and it is at most Size. *)
Theorem SizeActive_counts_live_keys s ents now :
  reachable s -> store_entries s = Some ents ->
  Store_SizeActive s now =
    Some (Z.of_nat (size (filter (fun kv => live_for_Scan (ttlData s) now kv.1 = true)
                            ents))) /\
  Store_Scan s now [] 0 =
    Some (filter (fun kv => live_for_Scan (ttlData s) now kv.1 = true) ents) /\
  Z.of_nat (size (filter (fun kv => live_for_Scan (ttlData s) now kv.1 = true) ents))
    <= Store_Size s.
Proof.
  intros Hr Hents. destruct (reachable_entries s ents Hr Hents) as (l & Hst & <-).
  split; [by apply Store_SizeActive_spec|]. split; [by apply Store_Scan_all|].
  rewrite (store_size s l Hst). apply inj_le, map_size_filter.
Qed.

Lemma SizeActive_counts_live_keys_witness :
  Store_SizeActive sample_expiring 4 = Some 1 /\
  Store_SizeActive sample_expiring 5 = Some 0 /\
  Store_Size sample_expiring = 1.
Proof.
  assert (reachable sample_expiring) as Hr.
  { apply (reach_SetWithTTL (NewSkiplistKVStore rand_flat) 0 key_a val_1 5);
      [apply reach_New|vm_compute; reflexivity]. }
  assert (store_entries sample_expiring = Some sample_entries) as He
    by (vm_compute; reflexivity).
  split; [|split].
  - rewrite (proj1 (SizeActive_counts_live_keys sample_expiring sample_entries 4 Hr He)).
    vm_compute. reflexivity.
  - rewrite (proj1 (SizeActive_counts_live_keys sample_expiring sample_entries 5 Hr He)).
    vm_compute. reflexivity.
  - vm_compute. reflexivity.
Defined.

(** ** The instant of expiry *)

(** X18: on every state of the store, at the very instant recorded in the TTL
    entry of a bound key, Get still returns the value and starts nothing
    (its test is "the clock is after the entry"), while GetTTL reports no
    TTL, Scan leaves the key out and SizeActive does not count it (their
    test is "the clock is before the entry"). *)
Theorem at_the_expiry_instant s ents key value expiry :
  reachable s -> store_entries s = Some ents ->
  ents !! key = Some value -> ttlData s !! key = Some expiry ->
  Store_Get s expiry key = Some (s, inl value, []) /\
  Store_GetTTL s expiry key = (s, (0, false)) /\
  (exists m, Store_Scan s expiry [] 0 = Some m /\ m !! key = None /\
             Store_SizeActive s expiry = Some (Z.of_nat (size m))) /\
  forall clock, (forall i, clock i = expiry) ->
    exists ks, Store_Keys s clock = Some ks /\ key ∉ ks.
Proof.
  intros Hr Hents Hk Ht.
  destruct (reachable_entries s ents Hr Hents) as (l & Hst & <-).
  split; [|split; [|split]].
  - rewrite (Store_Get_spec s l expiry key Hst); [by rewrite Hk|].
    unfold expired_for_Get. rewrite Ht. apply Z.ltb_irrefl.
  - unfold Store_GetTTL, time_Until. rewrite Ht.
    replace (expiry - expiry) with 0 by lia. done.
  - eexists. split; [by apply Store_Scan_all|]. split.
    + apply map_lookup_filter_None. right. intros v _. simpl.
      unfold live_for_Scan. rewrite Ht, Z.ltb_irrefl. done.
    + by apply Store_SizeActive_spec.
  - intros clock Hclock.
    destruct (Store_Keys_spec s l clock expiry expiry Hst)
      as (ks & Hks & _ & Hlive0 & _); [intros i; rewrite Hclock; lia|].
    exists ks. split; [done|].
    intros Hin. specialize (Hlive0 key Hin). unfold live_for_Scan in Hlive0.
    rewrite Ht, Z.ltb_irrefl in Hlive0. done.
Qed.

Lemma at_the_expiry_instant_witness :
  Store_Get sample_expiring 5 key_a = Some (sample_expiring, inl val_1, []) /\
  Store_GetTTL sample_expiring 5 key_a = (sample_expiring, (0, false)) /\
  Store_Scan sample_expiring 5 [] 0 = Some ∅.
Proof.
  assert (reachable sample_expiring) as Hr.
  { apply (reach_SetWithTTL (NewSkiplistKVStore rand_flat) 0 key_a val_1 5);
      [apply reach_New|vm_compute; reflexivity]. }
  assert (store_entries sample_expiring = Some sample_entries) as He
    by (vm_compute; reflexivity).
  destruct (at_the_expiry_instant sample_expiring sample_entries key_a val_1 5 Hr He)
    as (Hg & Ht & _); [vm_compute; reflexivity|vm_compute; reflexivity|].
  split; [exact Hg|]. split; [exact Ht|]. vm_compute. reflexivity.
Defined.

(** ** The backward links and the tail *)

Lemma back_linked_ext m m' c :
  forall prev,
  (forall p, p ∈ c -> prev_of m' p = prev_of m p) ->
  back_linked m prev c -> back_linked m' prev c.
Proof.
  induction c as [|p c IH]; intros prev Hsame; [done|]. simpl. intros [Hp Hc].
  split; [rewrite Hsame; [done|apply list_elem_of_here]|].
  apply IH; [|done]. intros q Hq. apply Hsame. by apply list_elem_of_further.
Qed.

Lemma last_or_cons prev p c : last_or prev (p :: c) = last_or (Some p) c.
Proof.
  unfold last_or. destruct c as [|q c]; [done|]. rewrite last_cons_cons.
  destruct (last (q :: c)) eqn:E; [done|]. by rewrite last_cons in E; destruct (last c).
Qed.

Lemma back_linked_app m a b :
  forall prev,
  back_linked m prev (a ++ b) <->
  back_linked m prev a /\ back_linked m (last_or prev a) b.
Proof.
  induction a as [|p a IH]; intros prev.
  - simpl. unfold last_or. simpl. tauto.
  - simpl. rewrite IH, last_or_cons. tauto.
Qed.

Lemma last_or_app prev a b : last_or prev (a ++ b) = last_or (last_or prev a) b.
Proof.
  revert prev. induction a as [|p a IH]; intros prev; [done|].
  by rewrite <- app_comm_cons, !last_or_cons, IH.
Qed.

Lemma last_last_or c : last c = last_or None c.
Proof. unfold last_or. by destruct (last c). Qed.

Lemma prev_of_set_Next m p i v m' q :
  set_Next m p i v = Some m' -> prev_of m' q = prev_of m q.
Proof.
  unfold set_Next, prev_of. destruct (m !! p) as [e|] eqn:He; [|done]. simpl.
  case_decide; [|done]. intros [= <-].
  destruct (decide (q = p)) as [->|Hne].
  - rewrite list_lookup_insert_eq by (by eapply lookup_lt_Some). by rewrite He.
  - by rewrite list_lookup_insert_ne.
Qed.

Lemma prev_of_set_Prev m p v m' q :
  set_Prev m p v = Some m' ->
  prev_of m' q = if decide (q = p) then Some v else prev_of m q.
Proof.
  unfold set_Prev, prev_of. destruct (m !! p) as [e|] eqn:He; [|done]. simpl.
  intros [= <-]. case_decide as Hq.
  - subst q. by rewrite list_lookup_insert_eq by (by eapply lookup_lt_Some).
  - by rewrite list_lookup_insert_ne.
Qed.

Lemma prev_of_with_Value m p e v q :
  m !! p = Some e -> prev_of (<[p := with_Value e v]> m) q = prev_of m q.
Proof.
  intros He. unfold prev_of. destruct (decide (q = p)) as [->|Hne].
  - rewrite list_lookup_insert_eq by (by eapply lookup_lt_Some). by rewrite He.
  - by rewrite list_lookup_insert_ne.
Qed.

Lemma prev_of_splice upd n k :
  forall i m m', splice k i upd n m = Some m' ->
  forall q, prev_of m' q = prev_of m q.
Proof.
  induction k as [|k IH]; intros i m m' Hs q; simpl in Hs; [by injection Hs as <-|].
  destruct (upd !! i) as [[u|]|]; simpl in Hs; try done.
  destruct (get_Next m u i) as [nx|]; simpl in Hs; [|done].
  destruct (set_Next m n i nx) as [m1|] eqn:H1; simpl in Hs; [|done].
  destruct (set_Next m1 u i (Some n)) as [m2|] eqn:H2; simpl in Hs; [|done].
  rewrite (IH _ _ _ Hs q), (prev_of_set_Next _ _ _ _ _ q H2).
  apply (prev_of_set_Next _ _ _ _ _ q H1).
Qed.

Lemma unsplice_frame upd x k :
  forall i m m', unsplice k i upd x m = Some m' ->
  (forall q, prev_of m' q = prev_of m q) /\
  (forall q j, (forall i' u, upd !! i' = Some (Some u) -> u <> q) ->
     get_Next m' q j = get_Next m q j).
Proof.
  induction k as [|k IH]; intros i m m' Hs; simpl in Hs; [by injection Hs as <-|].
  destruct (upd !! i) as [[u|]|] eqn:Hu; simpl in Hs; try done.
  destruct (get_Next m u i) as [nu|]; simpl in Hs; [|done].
  case_decide; [|by injection Hs as <-].
  destruct (get_Next m x i) as [nx|]; simpl in Hs; [|done].
  destruct (set_Next m u i nx) as [m1|] eqn:H1; simpl in Hs; [|done].
  destruct (IH _ _ _ Hs) as [IHp IHn]. split.
  - intros q. rewrite IHp. apply (prev_of_set_Next _ _ _ _ _ q H1).
  - intros q j Hq. rewrite (IHn q j Hq), (get_Next_set_Next _ _ _ _ _ q j H1).
    rewrite decide_False; [done|]. intros [-> _]. by apply (Hq i u).
Qed.

Lemma NewSkipList_back r : back_links (NewSkipList r) [].
Proof. done. Qed.

Lemma lastd_last_or (hd : ptr) c :
  hd ∉ c ->
  (if decide (lastd hd c = hd) then None else Some (lastd hd c)) = last_or None c.
Proof.
  intros Hhd. unfold lastd, last_or. destruct (last c) as [p|] eqn:E; simpl.
  - rewrite decide_False; [done|]. intros ->. apply Hhd.
    by apply last_Some_elem_of.
  - by rewrite decide_True.
Qed.

Lemma Insert_miss_back sl l1 l2 key value score sl' h :
  skiplist_inv sl (l1 ++ l2) ->
  back_links sl (n_ptr <$> l1 ++ l2) ->
  Forall (fun nd => below score key nd = true) l1 ->
  Forall (fun nd => below score key nd = false) l2 ->
  (forall nd, head l2 = Some nd -> hits score key nd = false) ->
  SkipList_Insert sl key value score = Some (sl', length (sl_mem sl)) ->
  skiplist_inv sl' (l1 ++ mkNode (length (sl_mem sl)) key value score h :: l2) ->
  back_links sl' (n_ptr <$> l1 ++ mkNode (length (sl_mem sl)) key value score h :: l2).
Proof.
  intros Hinv [Htail Hback] H1 H2 Hmiss Hins Hinv'.
  destruct (walk_for_target sl _ l1 l2 score key Hinv eq_refl H1 H2)
    as (upd & Hw & Hulen & Hulo & Huhi).
  pose proof (next_after_walk sl _ l1 l2 (fun s k => klt s k score key)
                Hinv eq_refl H2) as Hnext.
  pose proof (randomLevel_bounds (sl_rand sl)) as Hlv.
  pose proof (inv_level _ _ Hinv) as Hlevel.
  pose proof (inv_nodup _ _ Hinv) as Hnd.
  pose proof (ptrs_lt sl _ Hinv) as Hlt.
  assert (at_level 0 l1 = n_ptr <$> l1) as E1.
  { apply at_level_0. pose proof (inv_heights _ _ Hinv) as Hh.
    apply Forall_app in Hh as [Hh _]. eapply Forall_impl; [exact Hh|].
    simpl. intros; lia. }
  (* the links of the new element in the list as Insert leaves it *)
  assert (get_Next (sl_mem sl') (length (sl_mem sl)) 0 = Some (head (n_ptr <$> l2)))
    as Hnew.
  { assert (0 < MaxLevel)%nat as H0 by (unfold MaxLevel; lia).
    pose proof (inv_links _ _ Hinv' 0%nat H0) as Hl.
    rewrite (inv_at_level_0 _ _ Hinv'), fmap_app, fmap_cons in Hl.
    rewrite (cons_middle _ (n_ptr <$> l1)), app_assoc in Hl.
    apply linked_app in Hl. rewrite lastd_app, lastd_cons, lastd_nil in Hl.
    by apply linked_next in Hl. }
  unfold SkipList_Insert in Hins. rewrite Hw in Hins. simpl in Hins.
  rewrite Hnext in Hins. simpl in Hins.
  assert (match n_ptr <$> head l2 with
          | Some y => ey ← sl_mem sl !! y;
                      if matches score key ey then Some y else None
          | None => None
          end = None) as Hhit.
  { destruct l2 as [|z l2]; [done|]. simpl.
    destruct (node_lookup sl _ Hinv z) as (e & -> & Hk & _ & Hs & _); [set_solver|].
    simpl. specialize (Hmiss z eq_refl). unfold hits in Hmiss. unfold matches.
    rewrite Hk, Hs. fold (keq (n_score z) (n_key z) score key). by rewrite Hmiss. }
  rewrite Hhit in Hins. clear Hhit.
  destruct (randomLevel (sl_rand sl)) as [lv r'] eqn:Hrl. simpl in Hlv.
  set (n := length (sl_mem sl)) in *.
  set (m0 := sl_mem sl ++ [NewElement key value score lv]) in *.
  set (pred0 := pred_at (sl_head sl) l1 0) in *.
  destruct (if decide (sl_level sl < lv)%nat
            then raise_update (lv - sl_level sl) (sl_level sl) (sl_head sl) upd
            else Some upd) as [upd1|] eqn:Hup; simpl in Hins; [|done].
  assert (upd1 !! 0%nat = Some (Some pred0)) as Hu0.
  { case_decide as Hc.
    - destruct (raise_update_spec (lv - sl_level sl) (sl_head sl) (sl_level sl) upd)
        as (upd1' & Hr & _ & _ & Hout); [lia|].
      rewrite Hr in Hup. injection Hup as <-. rewrite Hout by lia. apply Hulo. lia.
    - injection Hup as <-. apply Hulo. lia. }
  clear Hup.
  destruct (splice lv 0 upd1 n m0) as [m1|] eqn:Hsp; simpl in Hins; [|done].
  rewrite Hu0 in Hins. simpl in Hins.
  destruct (if decide (Some pred0 = Some (sl_head sl)) then Some m1
            else set_Prev m1 n (Some pred0)) as [m2|] eqn:Hm2; simpl in Hins; [|done].
  (* the backward links after the first write *)
  assert (forall q, prev_of m0 q =
            if decide (q = n) then Some None
            else if decide (q < n)%nat then prev_of (sl_mem sl) q else None) as P0.
  { intros q. unfold prev_of, m0. destruct (decide (q = n)) as [Hq|Hq].
    - rewrite Hq. unfold n. by rewrite list_lookup_middle.
    - destruct (decide (q < n)%nat).
      + by rewrite lookup_app_l.
      + rewrite lookup_ge_None_2; [done|]. rewrite length_app. simpl. fold n. lia. }
  assert (hd_notin : sl_head sl ∉ n_ptr <$> l1).
  { apply NoDup_cons in Hnd as [Hhd _]. rewrite fmap_app in Hhd.
    intros ?. apply Hhd. apply elem_of_app. by left. }
  assert (forall q, prev_of m2 q =
            if decide (q = n) then Some (last_or None (n_ptr <$> l1))
            else if decide (q < n)%nat then prev_of (sl_mem sl) q else None) as P2.
  { intros q. pose proof (lastd_last_or (sl_head sl) (n_ptr <$> l1) hd_notin) as Hlo.
    assert (pred0 = lastd (sl_head sl) (n_ptr <$> l1)) as Hp0
      by (unfold pred0, pred_at; by rewrite E1).
    rewrite <- Hp0 in Hlo.
    destruct (decide (Some pred0 = Some (sl_head sl))) as [Hc|Hc].
    - injection Hm2 as <-. injection Hc as Hc.
      rewrite (prev_of_splice _ _ _ _ _ _ Hsp), P0.
      rewrite decide_True in Hlo by done. by rewrite <- Hlo.
    - rewrite (prev_of_set_Prev _ _ _ _ q Hm2), (prev_of_splice _ _ _ _ _ _ Hsp), P0.
      rewrite decide_False in Hlo by congruence. rewrite <- Hlo.
      by destruct (decide (q = n)). }
  destruct (get_Next m2 n 0) as [nx0|] eqn:Hnx0; simpl in Hins; [|done].
  assert (Forall (fun q => q < n)%nat (n_ptr <$> l1 ++ l2)) as Hlt' by exact Hlt.
  rewrite fmap_app in Hback. apply back_linked_app in Hback as [Hb1 Hb2].
  destruct nx0 as [y|].
  - destruct (set_Prev m2 y (Some n)) as [m3|] eqn:Hm3; simpl in Hins; [|done].
    injection Hins as <-. cbn [sl_mem sl_tail] in *.
    rewrite (get_Next_set_Prev _ _ _ _ n 0%nat Hm3), Hnx0 in Hnew.
    destruct l2 as [|z l2]; [done|]. rewrite fmap_cons in Hnew.
    injection Hnew as Hy. subst y.
    assert (forall q, prev_of m3 q =
              if decide (q = n_ptr z) then Some (Some n)
              else if decide (q = n) then Some (last_or None (n_ptr <$> l1))
              else if decide (q < n)%nat then prev_of (sl_mem sl) q else None) as P3.
    { intros q. rewrite (prev_of_set_Prev _ _ _ _ q Hm3).
      destruct (decide (q = n_ptr z)); [done|apply P2]. }
    rewrite fmap_app, !fmap_cons in Hnd, Hlt' |- *.
    apply NoDup_cons in Hnd as [_ Hnd].
    apply NoDup_app in Hnd as (Hd1 & Hd12 & [Hz Hd2]%NoDup_cons).
    apply Forall_app in Hlt' as [Hlt1 [Hltz Hlt2]%Forall_cons].
    simpl in Hb2. destruct Hb2 as [Hbz Hb2].
    split.
    + unfold back_links. cbn [sl_tail]. rewrite Htail, !fmap_app, !fmap_cons.
      by rewrite !last_last_or, !last_or_app, !last_or_cons.
    + apply back_linked_app. split.
      * eapply back_linked_ext; [|exact Hb1]. intros q Hq. rewrite P3.
        rewrite Forall_forall in Hlt1. specialize (Hlt1 q Hq).
        rewrite decide_False by (intros ->; by apply (Hd12 (n_ptr z)); [|left]).
        rewrite decide_False by lia. by rewrite decide_True.
      * simpl. split; [|split].
        -- rewrite P3. rewrite decide_False by lia. by rewrite decide_True.
        -- rewrite P3. by rewrite decide_True.
        -- eapply back_linked_ext; [|exact Hb2]. intros q Hq. rewrite P3.
           rewrite Forall_forall in Hlt2. specialize (Hlt2 q Hq).
           rewrite decide_False by (intros ->; done).
           rewrite decide_False by lia. by rewrite decide_True.
  - injection Hins as <-. cbn [sl_mem sl_tail] in *. rewrite Hnx0 in Hnew.
    destruct l2 as [|z l2]; [|done].
    rewrite app_nil_r in *. rewrite fmap_app. simpl. split.
    + by rewrite last_snoc.
    + apply back_linked_app. split.
      * eapply back_linked_ext; [|exact Hb1]. intros q Hq. rewrite P2.
        rewrite Forall_forall in Hlt'. specialize (Hlt' q Hq).
        rewrite decide_False by lia. by rewrite decide_True.
      * simpl. split; [|done]. rewrite P2. by rewrite decide_True.
Qed.

Lemma Delete_found_back sl l1 nd l2 key score sl' :
  skiplist_inv sl (l1 ++ nd :: l2) ->
  back_links sl (n_ptr <$> l1 ++ nd :: l2) ->
  Forall (fun nd => below score key nd = true) l1 ->
  Forall (fun nd => below score key nd = false) (nd :: l2) ->
  hits score key nd = true ->
  SkipList_Delete sl key score = Some (sl', true) ->
  back_links sl' (n_ptr <$> l1 ++ l2).
Proof.
  intros Hinv [Htail Hback] H1 H2 Hhit Hdel.
  destruct (walk_for_target sl _ l1 (nd :: l2) score key Hinv eq_refl H1 H2)
    as (upd & Hw & Hulen & Hulo & Huhi).
  destruct (node_lookup sl _ Hinv nd) as (ex & Hex & Hk & _ & Hs & Hhx); [set_solver|].
  pose proof (inv_nodup _ _ Hinv) as Hnd.
  destruct (NoDup_ptrs_mid _ _ _ _ Hnd) as [Hne Hothers].
  assert (forall j, pred_at (sl_head sl) l1 j <> n_ptr nd) as Hpx.
  { intros j Heq. pose proof (pred_at_elem_of (sl_head sl) l1 j) as Hin.
    rewrite Heq in Hin. apply elem_of_cons in Hin as [?|Hin]; [done|].
    apply at_level_elem_of in Hin as (x & Hx & Hxe & _).
    apply (Hothers x); [set_solver|done]. }
  (* the successor of the element, before the call *)
  assert (get_Next (sl_mem sl) (n_ptr nd) 0 = Some (head (n_ptr <$> l2))) as Hsucc.
  { assert (0 < MaxLevel)%nat as H0 by (unfold MaxLevel; lia).
    pose proof (inv_links _ _ Hinv 0%nat H0) as Hl.
    rewrite (inv_at_level_0 _ _ Hinv), fmap_app, fmap_cons in Hl.
    rewrite (cons_middle _ (n_ptr <$> l1)), app_assoc in Hl.
    apply linked_app in Hl. rewrite lastd_app, lastd_cons, lastd_nil in Hl.
    by apply linked_next in Hl. }
  unfold SkipList_Delete in Hdel. rewrite Hw in Hdel. simpl in Hdel.
  rewrite (next_after_walk sl _ l1 (nd :: l2) (fun s k => klt s k score key)
             Hinv eq_refl H2) in Hdel. simpl in Hdel.
  rewrite Hex in Hdel. simpl in Hdel. unfold hits, keq in Hhit.
  rewrite Hk, Hs in Hdel. apply andb_true_iff in Hhit as [Hh1 Hh2].
  rewrite Hh1, Hh2 in Hdel. simpl in Hdel.
  destruct (unsplice (sl_level sl) 0 upd (n_ptr nd) (sl_mem sl)) as [m1|] eqn:Hun;
    simpl in Hdel; [|done].
  destruct (unsplice_frame _ _ _ _ _ _ Hun) as [Pp Pn].
  destruct (m1 !! n_ptr nd) as [ex1|] eqn:Hex1; simpl in Hdel; [|done].
  destruct (Next ex1 !! 0%nat) as [nx0|] eqn:Hnx0; simpl in Hdel; [|done].
  assert (nx0 = head (n_ptr <$> l2)) as ->.
  { assert (get_Next m1 (n_ptr nd) 0 = Some nx0) as Hg
      by (unfold get_Next; rewrite Hex1; done).
    rewrite Pn, Hsucc in Hg; [congruence|].
    intros i' u Hu. destruct (decide (i' < sl_level sl)%nat).
    - rewrite Hulo in Hu by done. injection Hu as <-. apply Hpx.
    - destruct (decide (i' < MaxLevel)%nat).
      + rewrite Huhi in Hu by lia. done.
      + rewrite lookup_ge_None_2 in Hu by lia. done. }
  rewrite fmap_app, fmap_cons in Hback.
  apply back_linked_app in Hback as [Hb1 [Hbx Hb2]].
  assert (Prev ex1 = last_or None (n_ptr <$> l1)) as Hprev.
  { specialize (Pp (n_ptr nd)). unfold prev_of in Pp, Hbx.
    rewrite Hex1 in Pp. rewrite <- Pp in Hbx. simpl in Hbx. congruence. }
  rewrite fmap_app, fmap_cons in Hnd. apply NoDup_cons in Hnd as [_ Hnd].
  apply NoDup_app in Hnd as (Hd1 & Hd12 & [Hx Hd2]%NoDup_cons).
  destruct l2 as [|z l2].
  - simpl in Hdel.
    destruct (shrink_level m1 (sl_head sl) (sl_level sl)) as [level'|];
      simpl in Hdel; [|done].
    injection Hdel as <-. unfold back_links. cbn [sl_tail sl_mem].
    rewrite app_nil_r, Hprev. split; [by rewrite last_last_or|].
    eapply back_linked_ext; [|exact Hb1]. intros q _. apply Pp.
  - rewrite ?fmap_cons in Hdel, Hb2, Hd2, Hd12. simpl in Hdel.
    destruct (set_Prev m1 (n_ptr z) (Prev ex1)) as [m2|] eqn:Hm2;
      simpl in Hdel; [|done].
    destruct (shrink_level m2 (sl_head sl) (sl_level sl)) as [level'|];
      simpl in Hdel; [|done].
    injection Hdel as <-. unfold back_links. cbn [sl_tail sl_mem].
    assert (forall q, prev_of m2 q =
              if decide (q = n_ptr z) then Some (last_or None (n_ptr <$> l1))
              else prev_of (sl_mem sl) q) as P2.
    { intros q. rewrite (prev_of_set_Prev _ _ _ _ q Hm2), Hprev.
      destruct (decide (q = n_ptr z)); [done|apply Pp]. }
    simpl in Hb2. destruct Hb2 as [Hbz Hb2].
    apply NoDup_cons in Hd2 as [Hz Hd2].
    split.
    + rewrite Htail, !fmap_app, !fmap_cons.
      by rewrite !last_last_or, !last_or_app, !last_or_cons.
    + rewrite fmap_app, fmap_cons. apply back_linked_app. split.
      * eapply back_linked_ext; [|exact Hb1]. intros q Hq. rewrite P2.
        rewrite decide_False; [done|]. intros ->.
        apply (Hd12 (n_ptr z)); [done|].
        apply list_elem_of_further, list_elem_of_here.
      * simpl. split; [rewrite P2; by rewrite decide_True|].
        eapply back_linked_ext; [|exact Hb2]. intros q Hq. rewrite P2.
        rewrite decide_False; [done|]. by intros ->.
Qed.

(** ** The level of the list *)

Lemma Insert_level sl key value score sl' p :
  SkipList_Insert sl key value score = Some (sl', p) ->
  (p < length (sl_mem sl) /\ sl_level sl' = sl_level sl)%nat \/
  (p = length (sl_mem sl) /\
   sl_level sl' = Nat.max (sl_level sl) (fst (randomLevel (sl_rand sl)))).
Proof.
  unfold SkipList_Insert. intros H.
  destruct (walk_down _ _ _ _ _) as [[x upd]|]; simpl in H; [|done].
  destruct (get_Next (sl_mem sl) x 0) as [nx|]; simpl in H; [|done].
  assert (forall y, nx = Some y ->
            (ey ← sl_mem sl !! y; if matches score key ey then Some y else None)
            = Some y -> (y < length (sl_mem sl))%nat) as Hy.
  { intros y _ Hm. destruct (sl_mem sl !! y) eqn:E; [|done].
    by eapply lookup_lt_Some. }
  destruct (match nx with
            | Some y => ey ← sl_mem sl !! y;
                        if matches score key ey then Some y else None
            | None => None
            end) as [y|] eqn:Hhit.
  - destruct (set_Value (sl_mem sl) y value) as [m'|]; simpl in H; [|done].
    injection H as <- <-. left. split; [|done].
    destruct nx as [y'|]; [|done].
    assert (y' = y) as ->.
    { destruct (sl_mem sl !! y'); simpl in Hhit; [|done].
      destruct (matches score key _); congruence. }
    by apply Hy.
  - right. destruct (randomLevel (sl_rand sl)) as [lv r']. cbn [fst].
    assert ((if decide (sl_level sl < lv)%nat then lv else sl_level sl)
            = Nat.max (sl_level sl) lv) as Hmax by (case_decide; lia).
    destruct (if decide (sl_level sl < lv)%nat
              then raise_update (lv - sl_level sl) (sl_level sl) (sl_head sl) upd
              else Some upd) as [upd1|]; simpl in H; [|done].
    destruct (splice _ _ _ _ _) as [m1|]; simpl in H; [|done].
    destruct (upd1 !! 0%nat) as [u0|]; simpl in H; [|done].
    destruct (if decide (u0 = Some (sl_head sl)) then Some m1
              else set_Prev m1 (length (sl_mem sl)) u0) as [m2|]; simpl in H; [|done].
    destruct (get_Next m2 (length (sl_mem sl)) 0) as [[y|]|]; simpl in H; [| |done].
    + destruct (set_Prev m2 y _) as [m3|]; simpl in H; [|done].
      injection H as <- <-. by rewrite <- Hmax.
    + injection H as <- <-. by rewrite <- Hmax.
Qed.

Lemma shrink_level_top m hd level level' :
  shrink_level m hd level = Some level' ->
  (level' <= 1)%nat \/ (exists y, get_Next m hd (level' - 1) = Some (Some y)).
Proof.
  revert level'. induction level as [|[|t] IH]; intros level' H.
  - injection H as <-. left. lia.
  - injection H as <-. left. lia.
  - rewrite shrink_level_eq in H.
    destruct (get_Next m hd (S t)) as [[y|]|] eqn:E; simpl in H; [| |done].
    + injection H as <-. right. exists y.
      by replace (S (S t) - 1)%nat with (S t) by lia.
    + by apply IH.
Qed.

Lemma Delete_level sl key score sl' :
  SkipList_Delete sl key score = Some (sl', true) ->
  shrink_level (sl_mem sl') (sl_head sl) (sl_level sl) = Some (sl_level sl').
Proof.
  unfold SkipList_Delete. intros H.
  destruct (walk_down _ _ _ _ _) as [[x0 upd]|]; simpl in H; [|done].
  destruct (get_Next (sl_mem sl) x0 0) as [nx|]; simpl in H; [|done].
  destruct (match nx with
            | Some x => ex ← sl_mem sl !! x;
                        if negb (f64_eq (Score ex) score)
                           || negb (bytes_Equal (Key ex) key)
                        then None else Some (x, ex)
            | None => None
            end) as [[x ex]|]; [|done].
  destruct (unsplice _ _ _ _ _) as [m1|]; simpl in H; [|done].
  destruct (m1 !! x) as [ex1|]; simpl in H; [|done].
  destruct (Next ex1 !! 0%nat) as [nx0|]; simpl in H; [|done].
  destruct (match nx0 with
            | Some y => set_Prev m1 y (Prev ex1)
            | None => Some m1
            end) as [m2|]; simpl in H; [|done].
  destruct (shrink_level m2 (sl_head sl) (sl_level sl)) as [level'|] eqn:E;
    simpl in H; [|done].
  by injection H as <-.
Qed.

(** The greatest height of the nodes, 1 when there are none. *)
Lemma max_height_cons nd l :
  max_height (nd :: l)
  = Nat.max (n_height nd) (max_height l).
Proof. done. Qed.

Lemma max_height_pos l : (1 <= max_height l)%nat.
Proof.
  induction l as [|nd l IH]; [done|]. rewrite max_height_cons. lia.
Qed.

Lemma max_height_app l1 l2 :
  max_height (l1 ++ l2)
  = Nat.max (max_height l1)
            (max_height l2).
Proof.
  induction l1 as [|nd l1 IH].
  - pose proof (max_height_pos l2). change (max_height []) with 1%nat.
    rewrite app_nil_l. lia.
  - rewrite <- app_comm_cons, !max_height_cons, IH. lia.
Qed.

Lemma max_height_ge l nd :
  nd ∈ l -> (n_height nd <= max_height l)%nat.
Proof.
  induction 1 as [nd l|nd x l _ IH]; rewrite max_height_cons; lia.
Qed.

Lemma max_height_le l n :
  (1 <= n)%nat -> Forall (fun nd => n_height nd <= n)%nat l ->
  (max_height l <= n)%nat.
Proof.
  intros Hn. induction 1 as [|nd l Hnd _ IH]; [done|]. rewrite max_height_cons. lia.
Qed.

Lemma max_height_set_val l1 nd l2 value :
  max_height (l1 ++ node_set_val value nd :: l2) = max_height (l1 ++ nd :: l2).
Proof. unfold max_height. by rewrite !fmap_app, !fmap_cons. Qed.

(** The invariant with the backward links and the level. *)
Lemma Insert_full sl l key value score :
  skiplist_inv sl l -> back_links sl (n_ptr <$> l) -> sl_level sl = max_height l ->
  is_nan score = false ->
  exists sl' p l',
    SkipList_Insert sl key value score = Some (sl', p) /\
    skiplist_inv sl' l' /\ back_links sl' (n_ptr <$> l') /\
    sl_level sl' = max_height l'.
Proof.
  intros Hinv Hback Htight Hnan.
  destruct (split_at_target score key l (inv_sorted _ _ Hinv))
    as (l1 & l2 & Hl & H1 & H2 & Hfirst).
  assert ((exists z l2', l2 = z :: l2' /\ hits score key z = true) \/
          (forall nd, head l2 = Some nd -> hits score key nd = false))
    as [(z & l2' & -> & Hhit)|Hmiss].
  { destruct l2 as [|z l2']; [by right|].
    destruct (hits score key z) eqn:Hhit; [left; eauto|].
    right. by intros nd [= <-]. }
  - subst l.
    destruct (Insert_hit sl l1 z l2' key value score Hinv H1 H2 Hhit)
      as (e & He & Hins).
    eexists _, _, _. split; [exact Hins|]. split; [by apply inv_set_Value|].
    destruct Hback as [Htail Hb]. split; [split|].
    + cbn [sl_tail]. rewrite Htail. by rewrite !fmap_app, !fmap_cons.
    + cbn [sl_mem]. rewrite fmap_app, fmap_cons. cbn [node_set_val n_ptr].
      rewrite fmap_app, fmap_cons in Hb.
      eapply back_linked_ext; [|exact Hb]. intros q _.
      by apply prev_of_with_Value.
    + cbn [sl_level]. by rewrite max_height_set_val.
  - subst l.
    destruct (Insert_miss sl l1 l2 key value score Hinv H1 H2 Hmiss Hnan)
      as (sl' & Hins & _ & Hinv').
    eexists _, _, _. split; [exact Hins|]. split; [exact Hinv'|]. split.
    + by apply (Insert_miss_back sl l1 l2 key value score sl' _ Hinv Hback H1 H2 Hmiss).
    + destruct (Insert_level _ _ _ _ _ _ Hins) as [[Hlt _]|[_ ->]]; [lia|].
      rewrite Htight, !max_height_app, max_height_cons. cbn [n_height]. lia.
Qed.

Lemma Delete_full sl l key score :
  skiplist_inv sl l -> back_links sl (n_ptr <$> l) -> sl_level sl = max_height l ->
  exists sl' b l',
    SkipList_Delete sl key score = Some (sl', b) /\
    skiplist_inv sl' l' /\ back_links sl' (n_ptr <$> l') /\
    sl_level sl' = max_height l'.
Proof.
  intros Hinv Hback Htight.
  destruct (split_at_target score key l (inv_sorted _ _ Hinv))
    as (l1 & l2 & Hl & H1 & H2 & Hfirst).
  assert ((exists z l2', l2 = z :: l2' /\ hits score key z = true) \/
          Forall (fun nd => hits score key nd = false) l) as [(z & l2' & -> & Hhit)|Hno].
  { destruct l2 as [|z l2'].
    - right. apply Forall_forall. intros nd Hin.
      destruct (hits score key nd) eqn:E; [|done]. by specialize (Hfirst nd Hin E).
    - destruct (hits score key z) eqn:Hhit; [left; eauto|]. right.
      apply Forall_forall. intros nd Hin.
      destruct (hits score key nd) eqn:E; [|done].
      specialize (Hfirst nd Hin E). simpl in Hfirst. injection Hfirst as ->.
      congruence. }
  - subst l. destruct (Delete_found sl l1 z l2' key score Hinv H1 H2 Hhit)
      as (sl' & Hdel & Hhd & Hinv').
    exists sl', true, (l1 ++ l2'). split; [done|]. split; [done|]. split.
    + by apply (Delete_found_back sl l1 z l2' key score sl' Hinv Hback H1 H2 Hhit).
    + pose proof (Delete_level _ _ _ _ Hdel) as Hshrink.
      pose proof (inv_level _ _ Hinv') as Hlevel'.
      pose proof (max_height_le _ _ (proj1 Hlevel') (Forall_impl _ _ _
                    (inv_heights _ _ Hinv') (fun nd H => proj2 H))) as Hle.
      pose proof (max_height_pos (l1 ++ l2')) as Hpos.
      destruct (shrink_level_top _ _ _ _ Hshrink) as [H1'|[y Hy]]; [lia|].
      assert (sl_level sl' - 1 < MaxLevel)%nat as Hlt by lia.
      pose proof (inv_links _ _ Hinv' _ Hlt) as Hlk.
      rewrite Hhd in Hlk. rewrite (linked_next _ _ _ _ Hlk) in Hy.
      injection Hy as Hy. apply head_Some_elem_of in Hy.
      apply at_level_elem_of in Hy as (nd & Hin & _ & Hh).
      pose proof (max_height_ge _ _ Hin). lia.
  - exists sl, false, l. split; [by apply (Delete_absent sl l)|]. done.
Qed.

Lemma sl_run_full ops :
  forall sl l, skiplist_inv sl l -> back_links sl (n_ptr <$> l) ->
  sl_level sl = max_height l -> Forall no_nan_insert ops ->
  exists sl' l', sl_run ops sl = Some sl' /\ skiplist_inv sl' l' /\
                 back_links sl' (n_ptr <$> l') /\ sl_level sl' = max_height l'.
Proof.
  induction ops as [|o ops IH]; intros sl l Hinv Hback Htight Hops.
  - exists sl, l. done.
  - apply Forall_cons in Hops as [Ho Hops]. cbn [sl_run].
    assert (exists sl1 l1, sl_step sl o = Some sl1 /\ skiplist_inv sl1 l1 /\
                           back_links sl1 (n_ptr <$> l1) /\
                           sl_level sl1 = max_height l1)
      as (sl1 & l1 & Hstep & Hinv1 & Hb1 & Ht1).
    { destruct o as [key value score|key score]; simpl in *.
      - destruct (Insert_full sl l key value score Hinv Hback Htight Ho)
          as (sl1 & p & l1 & -> & ? & ? & ?). by exists sl1, l1.
      - destruct (Delete_full sl l key score Hinv Hback Htight)
          as (sl1 & b & l1 & -> & ? & ? & ?). by exists sl1, l1. }
    rewrite Hstep. cbn [mbind option_bind]. by apply (IH sl1 l1).
Qed.

Lemma run_full r ops sl l :
  Forall no_nan_insert ops -> sl_run ops (NewSkipList r) = Some sl ->
  sl_nodes sl = Some l ->
  skiplist_inv sl l /\ back_links sl (n_ptr <$> l) /\ sl_level sl = max_height l.
Proof.
  intros Hops Hrun Hn.
  destruct (sl_run_full ops (NewSkipList r) [] (NewSkipList_inv r)
              (NewSkipList_back r) eq_refl Hops) as (sl' & l' & Hrun' & Hinv & Hb & Ht).
  assert (sl' = sl) as -> by congruence.
  pose proof (sl_nodes_spec sl l' Hinv) as Hn'.
  by assert (l' = l) as -> by congruence.
Qed.

(** X19: on a list built by Insert and Delete with no NaN score given to
    Insert, Last returns the last element of the level-0 chain, nil when
    the list is empty, and every other element is below that one in
    (score, key). *)
Theorem Last_is_greatest r ops sl l :
  Forall no_nan_insert ops -> sl_run ops (NewSkipList r) = Some sl ->
  sl_nodes sl = Some l ->
  SkipList_Last sl = n_ptr <$> last l /\
  forall front nd, l = front ++ [nd] -> Forall (fun x => node_lt x nd) front.
Proof.
  intros Hops Hrun Hn. destruct (run_full r ops sl l Hops Hrun Hn) as (Hinv & [Htail _] & _).
  split.
  - unfold SkipList_Last. by rewrite Htail, fmap_last.
  - intros front nd ->. pose proof (inv_sorted _ _ Hinv) as Hs.
    apply Forall_forall. intros x Hx.
    apply (StronglySorted_app_1_elem_of _ _ _ x nd Hs Hx). apply list_elem_of_here.
Qed.

Lemma Last_is_greatest_witness :
  SkipList_Last sample_list = Some 3%nat /\
  SkipList_Last (NewSkipList rand_flat) = None.
Proof.
  split.
  - refine (eq_trans (proj1 (Last_is_greatest rand_flat sample_ops sample_list
              [mkNode 2 key_b val_2 (f64_of_Z 5) 1; mkNode 3 key_c val_3 (f64_of_Z 20) 1]
              sample_ops_no_nan sample_list_run _)) _); vm_compute; reflexivity.
  - refine (eq_trans (proj1 (Last_is_greatest rand_flat [] (NewSkipList rand_flat) []
              (Forall_nil_2 _) eq_refl _)) _); vm_compute; reflexivity.
Defined.

(** X20: on such a list, the backward links mirror the level-0 chain: the
    backward link of the first element is nil (not the head), and the
    backward link of every other element is the element before it. *)
Theorem Prev_links_mirror_chain r ops sl c :
  Forall no_nan_insert ops -> sl_run ops (NewSkipList r) = Some sl ->
  chain sl 0 = Some c ->
  back_linked (sl_mem sl) None c.
Proof.
  intros Hops Hrun Hc. destruct (run_inv r ops sl Hops Hrun) as (l & Hinv & Hn).
  destruct (run_full r ops sl l Hops Hrun Hn) as (_ & [_ Hb] & _).
  rewrite (chain_spec sl l 0 Hinv) in Hc by (unfold MaxLevel; lia).
  rewrite (inv_at_level_0 sl l Hinv) in Hc. by injection Hc as <-.
Qed.

Lemma Prev_links_mirror_chain_witness :
  prev_of (sl_mem sample_list) 2 = Some None /\
  prev_of (sl_mem sample_list) 3 = Some (Some 2%nat).
Proof.
  pose proof (Prev_links_mirror_chain rand_flat sample_ops sample_list [2; 3]%nat
                sample_ops_no_nan sample_list_run) as H.
  destruct H as (H2 & H3 & _); [vm_compute; reflexivity|].
  split; [exact H2|exact H3].
Defined.

(** ** randomLevel *)

Lemma randomLevel_loop_spec fuel :
  forall r level,
  (1 <= level <= MaxLevel)%nat -> (MaxLevel - level < fuel)%nat ->
  (level <= fst (randomLevel_loop fuel r level) <= MaxLevel)%nat /\
  rand_below (snd (randomLevel_loop fuel r level)) = rand_below r /\
  rand_pos (snd (randomLevel_loop fuel r level)) =
    (rand_pos r + (fst (randomLevel_loop fuel r level) - level)
     + (if (fst (randomLevel_loop fuel r level) <? MaxLevel)%nat then 1 else 0))%nat /\
  (forall i, (i < fst (randomLevel_loop fuel r level) - level)%nat ->
     rand_below r (rand_pos r + i) = true) /\
  ((fst (randomLevel_loop fuel r level) < MaxLevel)%nat ->
     rand_below r (rand_pos r + (fst (randomLevel_loop fuel r level) - level)) = false).
Proof.
  induction fuel as [|fuel IH]; intros r level Hlevel Hfuel; [lia|].
  cbn [randomLevel_loop]. destruct (level <? MaxLevel)%nat eqn:Hlt.
  - apply Nat.ltb_lt in Hlt. destruct (rand_below r (rand_pos r)) eqn:Hdraw.
    + destruct (IH (rand_next r) (S level)) as (Hb & Hrb & Hrp & Htrue & Hfalse);
        [lia|lia|].
      cbn [rand_next rand_below rand_pos] in *.
      split; [lia|]. split; [done|]. split; [rewrite Hrp; lia|]. split.
      * intros i Hi. destruct i as [|i]; [by rewrite Nat.add_0_r|].
        replace (rand_pos r + S i)%nat with (S (rand_pos r) + i)%nat by lia.
        apply Htrue. lia.
      * intros Hm. specialize (Hfalse Hm).
        replace (rand_pos r + (fst (randomLevel_loop fuel (rand_next r) (S level)) - level))%nat
          with (S (rand_pos r)
                + (fst (randomLevel_loop fuel (rand_next r) (S level)) - S level))%nat
          by lia.
        done.
    + cbn [fst snd rand_next rand_below rand_pos].
      rewrite (proj2 (Nat.ltb_lt _ _) Hlt), Nat.sub_diag, Nat.add_0_r.
      split; [lia|]. split; [done|]. split; [lia|]. split; [intros i; lia|done].
  - apply Nat.ltb_ge in Hlt. cbn [fst snd].
    assert (level = MaxLevel) as -> by lia.
    rewrite Nat.ltb_irrefl, Nat.sub_diag, !Nat.add_0_r.
    split; [lia|]. split; [done|]. split; [done|]. split; [intros i; lia|lia].
Qed.

(** X21: randomLevel returns a level between 1 and [MaxLevel]: one more than
    the number of draws below [Probability] it made in a row, stopping at
    [MaxLevel] without a further draw.  It consumes these draws and, below
    [MaxLevel], the one that was not below [Probability]. *)
Theorem randomLevel_counts_draws r :
  (1 <= fst (randomLevel r) <= MaxLevel)%nat /\
  rand_below (snd (randomLevel r)) = rand_below r /\
  rand_pos (snd (randomLevel r)) =
    (rand_pos r + (fst (randomLevel r) - 1)
     + (if (fst (randomLevel r) <? MaxLevel)%nat then 1 else 0))%nat /\
  (forall i, (i < fst (randomLevel r) - 1)%nat ->
     rand_below r (rand_pos r + i) = true) /\
  ((fst (randomLevel r) < MaxLevel)%nat ->
     rand_below r (rand_pos r + (fst (randomLevel r) - 1)) = false).
Proof.
  unfold randomLevel. apply randomLevel_loop_spec; unfold MaxLevel; lia.
Qed.

Lemma randomLevel_counts_draws_witness :
  fst (randomLevel rand_two) = 3%nat /\ rand_pos (snd (randomLevel rand_two)) = 3%nat.
Proof.
  pose proof (randomLevel_counts_draws rand_two) as (_ & _ & Hpos & _).
  split; [vm_compute; reflexivity|].
  rewrite Hpos. vm_compute. reflexivity.
Defined.


(** ** The level, and Insert followed by Delete *)

(** X22: on a list built by Insert and Delete with no NaN score given to
    Insert, the level of the list is the greatest number of levels of its
    elements, 1 when it is empty: Insert raises it with a taller element
    and Delete lowers it when the tallest one goes. *)
Theorem level_is_max_height r ops sl l :
  Forall no_nan_insert ops -> sl_run ops (NewSkipList r) = Some sl ->
  sl_nodes sl = Some l ->
  sl_level sl = max_height l /\ (1 <= sl_level sl <= MaxLevel)%nat.
Proof.
  intros Hops Hrun Hn. destruct (run_full r ops sl l Hops Hrun Hn) as (Hinv & _ & Ht).
  split; [done|]. apply (inv_level _ _ Hinv).
Qed.

Lemma level_is_max_height_witness :
  exists sl1 sl2,
    sl_run [OpInsert key_a val_1 (f64_of_Z 10)] (NewSkipList rand_two) = Some sl1 /\
    sl_level sl1 = 3%nat /\
    sl_run [OpInsert key_a val_1 (f64_of_Z 10); OpDelete key_a (f64_of_Z 10)]
      (NewSkipList rand_two) = Some sl2 /\
    sl_level sl2 = 1%nat.
Proof.
  eexists _, _. split; [vm_compute; reflexivity|]. split.
  - refine (eq_trans (proj1 (level_is_max_height rand_two
              [OpInsert key_a val_1 (f64_of_Z 10)] _
              [mkNode 1 key_a val_1 (f64_of_Z 10) 3] _ _ _)) _);
      [repeat constructor|vm_compute; reflexivity|vm_compute; reflexivity
      |vm_compute; reflexivity].
  - split; [vm_compute; reflexivity|].
    refine (eq_trans (proj1 (level_is_max_height rand_two
              [OpInsert key_a val_1 (f64_of_Z 10); OpDelete key_a (f64_of_Z 10)] _
              [] _ _ _)) _);
      [repeat constructor|vm_compute; reflexivity|vm_compute; reflexivity
      |vm_compute; reflexivity].
Defined.

Lemma Delete_nodes sl l key score :
  skiplist_inv sl l ->
  exists sl' l',
    SkipList_Delete sl key score =
      Some (sl', bool_decide (Exists (fun nd => hits score key nd = true) l)) /\
    skiplist_inv sl' l' /\
    l' = filter (fun nd => hits score key nd = false) l.
Proof.
  intros Hinv.
  destruct (Delete_cases sl l key score Hinv)
    as (sl' & b & l' & Hdel & Hinv' & _ & [Habs|Hfound]).
  - destruct Habs as (-> & -> & -> & Hno). exists sl, l.
    rewrite bool_decide_eq_false_2.
    2:{ intros (nd & Hin & Hh)%Exists_exists. rewrite Forall_forall in Hno.
        by rewrite Hno in Hh. }
    split; [done|]. split; [done|]. by rewrite filter_all.
  - destruct Hfound as (-> & l1 & nd & l2 & -> & Hh & ->).
    pose proof (inv_nodup _ _ Hinv) as [_ Hnd]%NoDup_cons.
    pose proof (filter_hits_mid score key l1 nd l2 (inv_sorted _ _ Hinv) Hnd Hh) as Hno.
    exists sl', (l1 ++ l2). rewrite bool_decide_eq_true_2.
    2:{ apply Exists_exists. exists nd. split; [set_solver|done]. }
    split; [done|]. split; [done|].
    apply Forall_app in Hno as [Hn1 Hn2].
    rewrite filter_app, filter_cons, decide_False by (by rewrite Hh).
    by rewrite !filter_all.
Qed.

(** X23: on such a list, Insert of a pair that no element holds followed by
    Delete of that pair gives back the list of elements it started from,
    with the same Length, level, First and Last (the cell of the removed
    element stays in the arena, unlinked). *)
Theorem Insert_then_Delete_restores r ops sl l key value score :
  Forall no_nan_insert ops -> sl_run ops (NewSkipList r) = Some sl ->
  sl_nodes sl = Some l -> is_nan score = false ->
  Forall (fun nd => hits score key nd = false) l ->
  exists sl1 p sl2,
    SkipList_Insert sl key value score = Some (sl1, p) /\
    SkipList_Delete sl1 key score = Some (sl2, true) /\
    sl_nodes sl2 = Some l /\
    SkipList_Length sl2 = SkipList_Length sl /\
    sl_level sl2 = sl_level sl /\
    SkipList_First sl2 = SkipList_First sl /\
    SkipList_Last sl2 = SkipList_Last sl.
Proof.
  intros Hops Hrun Hn Hnan Hno.
  destruct (run_full r ops sl l Hops Hrun Hn) as (Hinv & Hback & Htight).
  destruct (Insert_cases sl l key value score Hinv Hnan)
    as (sl1 & p & l1 & Hins & Hinv1 & Hhd1 & [Hhit|Hmiss]).
  { destruct Hhit as (la & nd & lb & e & -> & Hh & _).
    rewrite Forall_forall in Hno. rewrite Hno in Hh by set_solver. done. }
  destruct Hmiss as (la & lb & lv & -> & _ & -> & -> & _).
  assert (Forall no_nan_insert (ops ++ [OpInsert key value score])) as Hops1.
  { apply Forall_app. split; [done|]. by repeat constructor. }
  assert (sl_run (ops ++ [OpInsert key value score]) (NewSkipList r) = Some sl1) as Hrun1.
  { clear -Hrun Hins. revert Hrun. generalize (NewSkipList r).
    induction ops as [|o ops IH]; intros s0 Hrun; simpl in *.
    - injection Hrun as ->. by rewrite Hins.
    - destruct (sl_step s0 o) as [s1|]; simpl in *; [|done]. by apply IH. }
  destruct (run_full r _ sl1 _ Hops1 Hrun1 (sl_nodes_spec _ _ Hinv1))
    as (_ & Hback1 & Htight1).
  destruct (Delete_full sl1 _ key score Hinv1 Hback1 Htight1)
    as (sl2 & b & l2 & Hdel & Hinv2 & Hback2 & Htight2).
  destruct (Delete_nodes sl1 _ key score Hinv1) as (sl2' & l2' & Hdel' & Hinv2' & Hl2').
  rewrite Hdel in Hdel'. injection Hdel' as <- Hb.
  assert (l2 = la ++ lb) as ->.
  { pose proof (sl_nodes_spec _ _ Hinv2) as E1.
    rewrite (sl_nodes_spec _ _ Hinv2') in E1. injection E1 as <-. rewrite Hl2'.
    apply Forall_app in Hno as [Hna Hnb].
    rewrite filter_app, filter_cons, decide_False.
    - by rewrite !filter_all.
    - unfold hits, keq. simpl. rewrite f64_eq_refl by done.
      rewrite (proj2 (bytes_Equal_eq key key) eq_refl). done. }
  assert (b = true) as ->.
  { rewrite Hb. apply bool_decide_eq_true_2, Exists_exists.
    eexists. split; [apply elem_of_app; right; apply list_elem_of_here|].
    unfold hits, keq. simpl. rewrite f64_eq_refl by done.
    by apply bytes_Equal_eq. }
  exists sl1, (length (sl_mem sl)), sl2. split; [done|]. split; [done|].
  split; [by apply sl_nodes_spec|]. split.
  { unfold SkipList_Length. by rewrite (inv_length _ _ Hinv2), (inv_length _ _ Hinv). }
  split; [congruence|]. split.
  - assert (0 < MaxLevel)%nat as H0 by (unfold MaxLevel; lia).
    unfold SkipList_First.
    rewrite (linked_next _ _ _ _ (inv_links _ _ Hinv2 0%nat H0)).
    by rewrite (linked_next _ _ _ _ (inv_links _ _ Hinv 0%nat H0)).
  - unfold SkipList_Last. destruct Hback as [-> _]. by destruct Hback2 as [-> _].
Qed.

Lemma Insert_then_Delete_restores_witness :
  exists sl1 p sl2,
    SkipList_Insert sample_list key_a val_1 (f64_of_Z 10) = Some (sl1, p) /\
    SkipList_Delete sl1 key_a (f64_of_Z 10) = Some (sl2, true) /\
    sl_nodes sl2 = sl_nodes sample_list.
Proof.
  destruct (Insert_then_Delete_restores rand_flat sample_ops sample_list
              [mkNode 2 key_b val_2 (f64_of_Z 5) 1; mkNode 3 key_c val_3 (f64_of_Z 20) 1]
              key_a val_1 (f64_of_Z 10) sample_ops_no_nan sample_list_run)
    as (sl1 & p & sl2 & Hins & Hdel & Hn & _).
  - vm_compute. reflexivity.
  - reflexivity.
  - repeat constructor.
  - exists sl1, p, sl2. split; [exact Hins|]. split; [exact Hdel|].
    rewrite Hn. vm_compute. reflexivity.
Defined.

(** ** A Delete that runs late *)

(** X24: on every state of the store where the key has a TTL entry before the
    clock, Get starts a Delete of the key.  That Delete does not look at
    the TTL table again: when a Set of the same key gets in before it
    runs, the Delete removes the value just set, and Get then reports
    "not found". *)
Theorem late_Delete_removes_new_value s now key value :
  reachable s -> ttl_before (ttlData s) now key ->
  exists g s1 s2,
    Store_Get s now key = Some (s, inr ErrKeyNotFound, [g]) /\
    Store_Set s key value = Some s1 /\
    (forall now', Store_Get s1 now' key = Some (s1, inl value, [])) /\
    run_goroutine g s1 = Some s2 /\
    (forall now', Store_Get s2 now' key = Some (s2, inr ErrKeyNotFound, [])).
Proof.
  intros Hr (expiry & Hk & Hlt). destruct (reachable_inv s Hr) as [l Hst].
  destruct (Store_Set_spec s l key value Hst) as (s1 & l1 & Hset & Hst1 & Hc1 & Ht1).
  destruct (Store_Delete_spec s1 l1 key Hst1)
    as (s2 & b & l2 & Hdel & Hst2 & Hc2 & Ht2 & _).
  exists (GoDelete key), s1, s2. split.
  { unfold Store_Get, expired_for_Get. by rewrite Hk, (proj2 (Z.ltb_lt _ _) Hlt). }
  split; [done|]. split.
  { intros now'. rewrite (Store_Get_spec s1 l1 now' key Hst1).
    - by rewrite Hc1, lookup_insert_eq.
    - unfold expired_for_Get. by rewrite Ht1, lookup_delete_eq. }
  split; [simpl; by rewrite Hdel|].
  intros now'. rewrite (Store_Get_spec s2 l2 now' key Hst2).
  - by rewrite Hc2, lookup_delete_eq.
  - unfold expired_for_Get. by rewrite Ht2, lookup_delete_eq.
Qed.

Lemma late_Delete_removes_new_value_witness :
  exists g s1 s2,
    Store_Get sample_expiring 6 key_a = Some (sample_expiring, inr ErrKeyNotFound, [g]) /\
    Store_Set sample_expiring key_a val_2 = Some s1 /\
    (forall now', Store_Get s1 now' key_a = Some (s1, inl val_2, [])) /\
    run_goroutine g s1 = Some s2 /\
    (forall now', Store_Get s2 now' key_a = Some (s2, inr ErrKeyNotFound, [])).
Proof.
  apply (late_Delete_removes_new_value sample_expiring 6 key_a val_2).
  - apply (reach_SetWithTTL (NewSkiplistKVStore rand_flat) 0 key_a val_1 5);
      [apply reach_New|vm_compute; reflexivity].
  - exists 5. split; [vm_compute; reflexivity|lia].
Defined.

(** ** The upper levels, and the head *)

(** X25: on a list built by Insert and Delete with no NaN score given to
    Insert, the chain of every level is a part of the level-0 chain, in
    the same order, hence strictly increasing in (score, key); the levels
    from the level of the list upwards are empty. *)
Theorem every_level_is_sorted r ops sl i :
  Forall no_nan_insert ops -> sl_run ops (NewSkipList r) = Some sl ->
  (i < MaxLevel)%nat ->
  exists c0 ci,
    chain sl 0 = Some c0 /\ chain sl i = Some ci /\
    ci `sublist_of` c0 /\
    StronglySorted (elem_lt (sl_mem sl)) ci /\
    ((sl_level sl <= i)%nat -> ci = []).
Proof.
  intros Hops Hrun Hi. destruct (run_inv r ops sl Hops Hrun) as (l & Hinv & _).
  exists (at_level 0 l), (at_level i l).
  split; [apply (chain_spec sl l 0 Hinv); unfold MaxLevel; lia|].
  split; [by apply (chain_spec sl l i Hinv)|].
  assert (at_level i l `sublist_of` at_level 0 l) as Hsub.
  { rewrite (inv_at_level_0 sl l Hinv). unfold at_level.
    apply fmap_sublist, sublist_filter. }
  split; [done|]. split.
  - eapply StronglySorted_sublist; [exact Hsub|]. by apply chain0_sorted.
  - intros Hlv. apply at_level_nil_ge.
    eapply Forall_impl; [apply (inv_heights _ _ Hinv)|]. simpl. intros; lia.
Qed.

Lemma every_level_is_sorted_witness :
  exists sl,
    sl_run [OpInsert key_a val_1 (f64_of_Z 10); OpInsert key_b val_2 (f64_of_Z 5)]
      (NewSkipList rand_two) = Some sl /\
    chain sl 0 = Some [2; 1]%nat /\ chain sl 2 = Some [1%nat] /\ chain sl 3 = Some [].
Proof.
  eexists. split; [vm_compute; reflexivity|].
  destruct (every_level_is_sorted rand_two
              [OpInsert key_a val_1 (f64_of_Z 10); OpInsert key_b val_2 (f64_of_Z 5)]
              _ 3 ltac:(repeat constructor) ltac:(vm_compute; reflexivity)
              ltac:(unfold MaxLevel; lia))
    as (c0 & c3 & _ & H3 & _ & _ & Hempty).
  split; [vm_compute; reflexivity|]. split; [vm_compute; reflexivity|].
  rewrite H3, Hempty; [reflexivity|]. vm_compute. lia.
Defined.

(** X26: on such a list, the head is not an element of the level-0 chain,
    and every operation returns and hands out elements of that chain only:
    First and Search return an element of the chain or nil, Last returns
    an element of the chain or nil, Insert (of a score that is not NaN)
    returns an element of the chain of the list it leaves, whose head is
    the same and is not on that chain either, and Range (for a [minScore]
    that is not NaN) returns elements of the chain.  So the head is never
    handed out. *)
Theorem head_is_never_returned r ops sl :
  Forall no_nan_insert ops -> sl_run ops (NewSkipList r) = Some sl ->
  exists c0,
    chain sl 0 = Some c0 /\ sl_head sl ∉ c0 /\
    (exists f, SkipList_First sl = Some f /\ forall p, f = Some p -> p ∈ c0) /\
    (forall p, SkipList_Last sl = Some p -> p ∈ c0) /\
    (forall key score,
       exists f, SkipList_Search sl key score = Some f /\
                 forall p, f = Some p -> p ∈ c0) /\
    (forall key value score, is_nan score = false ->
       exists sl' p c0',
         SkipList_Insert sl key value score = Some (sl', p) /\
         sl_head sl' = sl_head sl /\
         chain sl' 0 = Some c0' /\ p ∈ c0' /\ sl_head sl' ∉ c0') /\
    (forall minScore maxScore limit, is_nan minScore = false ->
       exists ps, SkipList_Range sl minScore maxScore limit = Some ps /\
                  ps ⊆ c0).
Proof.
  intros Hops Hrun. destruct (run_inv r ops sl Hops Hrun) as (l & Hinv & Hn).
  destruct (run_full r ops sl l Hops Hrun Hn) as (_ & [Htail _] & _).
  pose proof (inv_nodup _ _ Hinv) as [Hhd _]%NoDup_cons.
  assert (0 < MaxLevel)%nat as H0 by (unfold MaxLevel; lia).
  exists (n_ptr <$> l).
  split; [by rewrite (chain_spec sl l 0 Hinv H0), (inv_at_level_0 sl l Hinv)|].
  split; [done|]. split; [|split; [|split; [|split]]].
  - exists (head (n_ptr <$> l)). split.
    + unfold SkipList_First.
      rewrite (linked_next _ _ _ _ (inv_links _ _ Hinv 0%nat H0)).
      by rewrite (inv_at_level_0 sl l Hinv).
    + intros p Hp. by apply head_Some_elem_of.
  - unfold SkipList_Last. rewrite Htail. intros p Hp.
    by apply last_Some_elem_of.
  - intros key score.
    destruct (decide (Exists (fun nd => hits score key nd = true) l)) as [Hex|Hno].
    + apply Exists_exists in Hex as (nd & Hin & Hh).
      exists (Some (n_ptr nd)).
      split; [by apply (Search_found sl l key score nd Hinv Hin Hh)|].
      intros p [= <-]. by apply list_elem_of_fmap_2.
    + exists None. split; [|done]. apply (Search_absent sl l key score Hinv).
      apply Forall_forall. intros nd Hin. apply not_true_is_false. intros Hh.
      apply Hno, Exists_exists. eauto.
  - intros key value score Hnan.
    destruct (Insert_cases sl l key value score Hinv Hnan)
      as (sl1 & p1 & l1 & Hins1 & Hinv1 & Hhd1 & Hcase).
    pose proof (inv_nodup _ _ Hinv1) as [Hhd' _]%NoDup_cons.
    exists sl1, p1, (n_ptr <$> l1). split; [done|]. split; [done|].
    split; [by rewrite (chain_spec sl1 l1 0 Hinv1 H0), (inv_at_level_0 sl1 l1 Hinv1)|].
    split; [|done].
    destruct Hcase as [(la & nd & lb & e & _ & _ & -> & Hp & _)
                      |(la & lb & lv & _ & _ & -> & Hp & _)].
    + rewrite Hp, fmap_app, fmap_cons. set_solver.
    + rewrite fmap_app, fmap_cons. set_solver.
  - intros minScore maxScore limit Hnan.
    destruct (Range_nodes sl l minScore maxScore limit Hinv Hnan)
      as (l1 & la & lb & Hl & Hr' & _).
    eexists. split; [exact Hr'|]. intros p Hin.
    assert (truncate limit (n_ptr <$> la) ⊆ n_ptr <$> la) as Hsub.
    { unfold truncate. destruct (0 <? limit); [apply subseteq_take|done]. }
    apply Hsub in Hin. rewrite Hl, !fmap_app. set_solver.
Qed.

Lemma head_is_never_returned_witness :
  exists c0,
    chain sample_list 0 = Some c0 /\ sl_head sample_list ∉ c0 /\
    (exists f, SkipList_First sample_list = Some f /\ forall p, f = Some p -> p ∈ c0) /\
    (forall p, SkipList_Last sample_list = Some p -> p ∈ c0) /\
    (exists f, SkipList_Search sample_list key_c (f64_of_Z 20) = Some f /\
               forall p, f = Some p -> p ∈ c0) /\
    (exists ps, SkipList_Range sample_list (f64_of_Z 0) (f64_of_Z 30) 0 = Some ps /\
                ps ⊆ c0).
Proof.
  destruct (head_is_never_returned rand_flat sample_ops sample_list
              sample_ops_no_nan sample_list_run)
    as (c0 & Hc & Hhd & Hfirst & Hlast & Hsearch & _ & Hrange).
  exists c0. split; [exact Hc|]. split; [exact Hhd|]. split; [exact Hfirst|].
  split; [exact Hlast|]. split; [exact (Hsearch key_c (f64_of_Z 20))|].
  apply Hrange. reflexivity.
Defined.
